(** * ffevaluation: force-field evaluation kernels and topology indexer

    A shallow embedding of [src/ffevaluation/ffevaluate.py].

    Numbers.  The kernels are float code; the properties studied here are
    stated "in exact arithmetic", so a float is a real number [R] and the
    float32/float64 casts are the identity.  Two things a real number cannot
    be are kept explicit:
    - a scalar division whose divisor is zero raises [ZeroDivisionError]
      (numba's default error model for [@jit(nopython=True)]);
    - NaN.  The NaN padding of the packed parameter rows is [None] in a
      [list (option R)]; an array division by a zero scalar (which numpy
      answers with nan/inf instead of raising) ends the run with
      [NotANumber] at the place where the NaN would be stored.

    Arrays.  Index arrays with the [-1] sentinel are [list (list Z)];
    [uint32] topology arrays are lists of [nat]; the accumulators
    [energies], [forces], [atmnrg] of one frame are a record of lists. *)

From Stdlib Require Import Reals Lra Lia List ZArith Bool String Ascii.
From Stdlib Require Import Permutation Sorted.
Import ListNotations.

Open Scope R_scope.

(** ** Exceptions and the result monad *)

Inductive exn : Type :=
| ZeroDivisionError
| NotANumber
| KeyError
| IndexError
| ValueError
| TypeError
| RuntimeError.

Inductive res (A : Type) : Type :=
| Ok (a : A)
| Raise (e : exn).

Arguments Ok {A} a.
Arguments Raise {A} e.

Definition bind {A B : Type} (m : res A) (k : A -> res B) : res B :=
  match m with
  | Ok a => k a
  | Raise e => Raise e
  end.

Notation "x <- m ;; k" := (bind m (fun x => k))
  (at level 61, m at next level, right associativity).
Notation "' p <- m ;; k" := (bind m (fun x => match x with p => k end))
  (at level 61, p pattern, m at next level, right associativity).

(** [for x in xs: st = body x st], stopping at the first exception. *)
Fixpoint forM {A S : Type} (xs : list A) (body : A -> S -> res S) (st : S)
  : res S :=
  match xs with
  | [] => Ok st
  | x :: r => st' <- body x st ;; forM r body st'
  end.

(** [[g x for x in xs]], stopping at the first exception. *)
Fixpoint mapM {A B : Type} (g : A -> res B) (xs : list A) : res (list B) :=
  match xs with
  | [] => Ok []
  | x :: r => y <- g x ;; ys <- mapM g r ;; Ok (y :: ys)
  end.

(** Scalar true division [x / y] under numba's python error model. *)
Definition fdiv (x y : R) : res R :=
  if Req_EM_T y 0 then Raise ZeroDivisionError else Ok (x / y).

(** ** Vectors, energy rows and accumulators *)

Definition vec3 : Type := (R * R * R)%type.

Definition vzero : vec3 := (0, 0, 0).
Definition vadd (a b : vec3) : vec3 :=
  let '(a0, a1, a2) := a in let '(b0, b1, b2) := b in
  (a0 + b0, a1 + b1, a2 + b2).
Definition vsub (a b : vec3) : vec3 :=
  let '(a0, a1, a2) := a in let '(b0, b1, b2) := b in
  (a0 - b0, a1 - b1, a2 - b2).
Definition vscale (c : R) (a : vec3) : vec3 :=
  let '(a0, a1, a2) := a in (c * a0, c * a1, c * a2).
Definition vopp (a : vec3) : vec3 :=
  let '(a0, a1, a2) := a in (- a0, - a1, - a2).

(** Row index of the energy arrays:
    0 bond, 1 LJ, 2 electrostatic, 3 angle, 4 dihedral, 5 improper. *)
Inductive term : Type := Bond | LJ | Elec | Angle | Dihedral | Improper.

Record nrg : Type := mk_nrg {
  e_bond : R; e_lj : R; e_elec : R;
  e_angle : R; e_dihedral : R; e_improper : R
}.

Definition nrg_zero : nrg := mk_nrg 0 0 0 0 0 0.

Definition nrg_get (t : term) (e : nrg) : R :=
  match t with
  | Bond => e_bond e | LJ => e_lj e | Elec => e_elec e
  | Angle => e_angle e | Dihedral => e_dihedral e | Improper => e_improper e
  end.

(** [e[t] += v] *)
Definition nrg_add (t : term) (v : R) (e : nrg) : nrg :=
  match t with
  | Bond => mk_nrg (e_bond e + v) (e_lj e) (e_elec e)
                   (e_angle e) (e_dihedral e) (e_improper e)
  | LJ => mk_nrg (e_bond e) (e_lj e + v) (e_elec e)
                 (e_angle e) (e_dihedral e) (e_improper e)
  | Elec => mk_nrg (e_bond e) (e_lj e) (e_elec e + v)
                   (e_angle e) (e_dihedral e) (e_improper e)
  | Angle => mk_nrg (e_bond e) (e_lj e) (e_elec e)
                    (e_angle e + v) (e_dihedral e) (e_improper e)
  | Dihedral => mk_nrg (e_bond e) (e_lj e) (e_elec e)
                       (e_angle e) (e_dihedral e + v) (e_improper e)
  | Improper => mk_nrg (e_bond e) (e_lj e) (e_elec e)
                       (e_angle e) (e_dihedral e) (e_improper e + v)
  end.

(** [energies[:, f].sum()] *)
Definition nrg_sum (e : nrg) : R :=
  e_bond e + e_lj e + e_elec e + e_angle e + e_dihedral e + e_improper e.

(** [l[i] = g (l[i])]; an index past the end writes nothing (numba does
    no bounds check, the topology indexes are expected below [natoms]). *)
Fixpoint list_upd {A : Type} (i : nat) (g : A -> A) (l : list A) : list A :=
  match l, i with
  | [], _ => []
  | x :: r, O => g x :: r
  | x :: r, S i' => x :: list_upd i' g r
  end.

(** The three output arrays restricted to one frame [f]:
    [energies[:, f]], [forces[:, :, f]], [atmnrg[:, :, f]]. *)
Record acc : Type := mk_acc {
  energies : nrg;
  forces : list vec3;
  atmnrg : list nrg
}.

Definition acc_zero (natoms : nat) : acc :=
  mk_acc nrg_zero (repeat vzero natoms) (repeat nrg_zero natoms).

Definition add_energy (t : term) (v : R) (st : acc) : acc :=
  mk_acc (nrg_add t v (energies st)) (forces st) (atmnrg st).
Definition add_force (i : nat) (v : vec3) (st : acc) : acc :=
  mk_acc (energies st) (list_upd i (fun w => vadd w v) (forces st)) (atmnrg st).
Definition sub_force (i : nat) (v : vec3) (st : acc) : acc :=
  mk_acc (energies st) (list_upd i (fun w => vsub w v) (forces st)) (atmnrg st).
Definition add_atmnrg (i : nat) (t : term) (v : R) (st : acc) : acc :=
  mk_acc (energies st) (forces st) (list_upd i (nrg_add t v) (atmnrg st)).

(** [forces[:, :, f].sum(axis=0)] and [atmnrg[:, :, f].sum()] *)
Definition vsum (l : list vec3) : vec3 := fold_right vadd vzero l.
Definition Rsum (l : list R) : R := fold_right Rplus 0 l.
Definition atmnrg_sum (l : list nrg) : R := Rsum (map nrg_sum l).

(** ** Arrays read by the kernels *)

(** A float32 row padded with NaN ([None]); reading a NaN (or past the
    row) leaves exact arithmetic. *)
Definition readf (row : list (option R)) (idx : nat) : res R :=
  match nth idx row None with
  | Some x => Ok x
  | None => Raise NotANumber
  end.

(** [coords] of shape (natoms, 3, nframes) and [box] of shape (3, nframes) *)
Record ndarray3 : Type := mk_ndarray3 {
  shape0 : nat; shape1 : nat; shape2 : nat;
  at3 : nat -> nat -> nat -> R
}.
Record ndarray2 : Type := mk_ndarray2 {
  rows2 : nat; cols2 : nat;
  at2 : nat -> nat -> R
}.

(** [coords[i, :, f]] and [box[:, f]] *)
Definition atom_pos (coords : ndarray3) (i f : nat) : vec3 :=
  (at3 coords i 0%nat f, at3 coords i 1%nat f, at3 coords i 2%nat f).
Definition frame_box (box : ndarray2) (f : nat) : vec3 :=
  (at2 box 0%nat f, at2 box 1%nat f, at2 box 2%nat f).

(** The helpers imported from [ffevaluation.numbautil], which is not part
    of the sources at hand: the two wrapping functions and the dihedral
    angle are taken as parameters of the kernels. *)
Record numbautil : Type := mk_numbautil {
  wrapDistance : R -> R -> R;
  wrapBondedDistance : R -> R -> R;
  dihedralAngleFull :
    vec3 * vec3 * vec3 * vec3 -> vec3 -> res (R * vec3 * vec3 * vec3)
}.

(** Modelled from the spec: [numbautil.cross], the cross product of two
    3-vectors ("cross products c1 = r12 x r23"). *)
Definition cross (a b : vec3) : vec3 :=
  let '(a0, a1, a2) := a in let '(b0, b1, b2) := b in
  (a1 * b2 - a2 * b1, a2 * b0 - a0 * b2, a0 * b1 - a1 * b0).

(** Modelled from the spec: [numbautil.dot], the dot product of two
    3-vectors. *)
Definition dot (a b : vec3) : R :=
  let '(a0, a1, a2) := a in let '(b0, b1, b2) := b in
  a0 * b0 + a1 * b1 + a2 * b2.

(** One row of the [nbfix] table:
    [idx1, idx2, eps, sig, eps14, sig14], all [-1] when unused. *)
Definition nbfix_row : Type := (R * R * R * R * R * R)%type.

(** The 21 arrays returned by [init]. *)
Record topo : Type := mk_topo {
  typeint : list nat;
  excl : list (list Z);
  nbfix : list nbfix_row;
  sigma : list R;
  sigma14 : list R;
  epsilon : list R;
  epsilon14 : list R;
  s14a : list (list Z);
  e14a : list (list Z);
  s14v : list (list (option R));
  e14v : list (list (option R));
  bonda : list (list Z);
  bondv : list (list (option R));
  ELEC_FACTOR : R;
  charge : list R;
  angles : list (nat * nat * nat);
  angle_params : list (R * R);
  dihedrals : list (nat * nat * nat * nat);
  dihedral_params : list (list (option R));
  impropers : list (nat * nat * nat * nat);
  improper_params : list (list (option R))
}.

(** The argument list [self._args] handed to [_ffevaluate]: the arrays of
    [init] followed by the five options appended by [FFEvaluate.__init__]. *)
Record ffargs : Type := mk_ffargs {
  ff_topo :> topo;
  set1 : list Z;
  set2 : list Z;
  cutoff : R;
  rfa : bool;
  solventDielectric : R
}.

(** ** [_ispaired] and [_insets] *)

Fixpoint _ispaired_row (row : list Z) (j : Z) : bool :=
  match row with
  | [] => false
  | x :: r =>
      if (x =? -1)%Z then false
      else if (x =? j)%Z then true
      else _ispaired_row r j
  end.

Definition _ispaired (excl : list (list Z)) (i j : nat) : bool :=
  _ispaired_row (nth i excl []) (Z.of_nat j).

(** The column scans of [_getSigmaEpsilon], [_evaluate_harmonic_bonds] and
    [_evaluate_elec]: the first column [e] with [row[e] == j], none once
    the [-1] sentinel is met. *)
Fixpoint find_col (row : list Z) (j : Z) (e : nat) : option nat :=
  match row with
  | [] => None
  | x :: r =>
      if (x =? -1)%Z then None
      else if (x =? j)%Z then Some e
      else find_col r j (S e)
  end.

(** First loop of [_insets]: [(ifound, jfound)] after scanning [set1]. *)
Fixpoint insets_scan1 (s : list Z) (i j : Z) (ifound jfound : nat)
  : nat * nat :=
  match s with
  | [] => (ifound, jfound)
  | x :: r =>
      if (x =? i)%Z && (ifound =? 0)%nat then (1%nat, jfound)
      else if (x =? j)%Z then (ifound, 1%nat)
      else insets_scan1 r i j ifound jfound
  end.

(** Second loop of [_insets]. *)
Fixpoint insets_scan2 (s : list Z) (i j : Z) (ifound jfound : nat)
  : nat * nat :=
  match s with
  | [] => (ifound, jfound)
  | x :: r =>
      if (x =? i)%Z then (2%nat, jfound)
      else if (x =? j)%Z then (ifound, 2%nat)
      else insets_scan2 r i j ifound jfound
  end.

Definition _insets (i j : Z) (set1 set2 : list Z) : bool :=
  let '(set1, set2) :=
    if (List.length set2 <? List.length set1)%nat then (set2, set1)
    else (set1, set2) in
  let '(ifound, jfound) := insets_scan1 set1 i j 0%nat 0%nat in
  if (ifound =? 0)%nat && (jfound =? 0)%nat then false
  else
    let '(ifound, jfound) := insets_scan2 set2 i j ifound jfound in
    if negb (ifound =? 0)%nat && negb (jfound =? 0)%nat
    then negb (ifound =? jfound)%nat
    else false.

(** ** Pair kernels *)

(** [x == y] on floats *)
Definition Req_b (x y : R) : bool := if Req_EM_T x y then true else false.

Definition nbfix_match (it jt : nat) (row : nbfix_row) : bool :=
  let '(t0, t1, _, _, _, _) := row in
  (Req_b t0 (INR it) && Req_b t1 (INR jt))
  || (Req_b t0 (INR jt) && Req_b t1 (INR it)).

Definition _getSigmaEpsilon (i j it jt : nat) (a : ffargs)
  : res (R * R * R * R * R) :=
  let idx_nbfix := find (nbfix_match it jt) (nbfix a) in
  '(scale, found14) <-
     match find_col (nth i (s14a a) []) (Z.of_nat j) 0 with
     | Some e => s <- readf (nth i (s14v a) []) e ;; Ok (s, true)
     | None => Ok (1, false)
     end ;;
  '(sig, eps) <-
     match idx_nbfix with
     | Some (_, _, eps, sig, eps14, sig14) =>
         if found14 : bool then Ok (sig14, eps14) else Ok (sig, eps)
     | None =>
         let sigmai := nth it (if found14 then sigma14 a else sigma a) 0 in
         let sigmaj := nth jt (if found14 then sigma14 a else sigma a) 0 in
         let epsiloni := nth it (if found14 then epsilon14 a else epsilon a) 0 in
         let epsilonj := nth jt (if found14 then epsilon14 a else epsilon a) 0 in
         if Rlt_dec (epsiloni * epsilonj) 0 then Raise NotANumber
         else Ok (0.5 * (sigmai + sigmaj), sqrt (epsiloni * epsilonj))
     end ;;
  let s2 := sig * sig in
  let s6 := s2 * s2 * s2 in
  let s12 := s6 * s6 in
  let A := eps * 4 * s12 in
  let B := eps * 4 * s6 in
  Ok (sig, eps, A, B, scale).

Definition _evaluate_lj (i j : nat) (a : ffargs) (dist : R) : res (R * R) :=
  '(_, _, A, B, scale) <-
     _getSigmaEpsilon i j (nth i (typeint a) 0%nat) (nth j (typeint a) 0%nat) a ;;
  rinv1 <- fdiv 1 dist ;;
  let rinv2 := rinv1 * rinv1 in
  let rinv6 := rinv2 * rinv2 * rinv2 in
  let rinv12 := rinv6 * rinv6 in
  pot <- fdiv ((A * rinv12) - (B * rinv6)) scale ;;
  force <- fdiv ((-12 * A * rinv12 + 6 * B * rinv6) * rinv1) scale ;;
  Ok (pot, force).

Definition _evaluate_harmonic_bonds (i j : nat) (bonda : list (list Z))
    (bondv : list (list (option R))) (dist : R) : res (R * R) :=
  match find_col (nth i bonda []) (Z.of_nat j) 0 with
  | None => Ok (0, 0)
  | Some col =>
      k0 <- readf (nth i bondv []) (col * 2 + 0) ;;
      d0 <- readf (nth i bondv []) (col * 2 + 1) ;;
      let x := dist - d0 in
      Ok (k0 * (x ^ 2), 2 * k0 * x)
  end.

(** The scale loop of [_evaluate_elec]: the entry of [e14v] in the column
    where row [i] of [e14a] holds [j], and 1 when there is none. *)
Definition elec_scale (i j : nat) (e14a : list (list Z))
    (e14v : list (list (option R))) : res R :=
  match find_col (nth i e14a []) (Z.of_nat j) 0 with
  | Some e => readf (nth i e14v []) e
  | None => Ok 1
  end.

Definition _evaluate_elec (i j : nat) (charge : list R)
    (e14a : list (list Z)) (e14v : list (list (option R)))
    (ELEC_FACTOR dist : R) (rfa : bool) (solventDielectric cutoff : R)
  : res (R * R) :=
  scale <- elec_scale i j e14a e14v ;;
  let qi := nth i charge 0 in
  let qj := nth j charge 0 in
  if rfa then
    let denom := (2 * solventDielectric) + 1 in
    c3 <- fdiv 1 (cutoff ^ 3) ;;
    krf <- fdiv (c3 * (solventDielectric - 1)) denom ;;
    c1 <- fdiv 1 cutoff ;;
    crf <- fdiv (c1 * (3 * solventDielectric)) denom ;;
    common <- fdiv (ELEC_FACTOR * qi * qj) scale ;;
    let dist2 := dist ^ 2 in
    rinv <- fdiv 1 dist ;;
    let pot := common * (rinv + krf * dist2 - crf) in
    rinv2 <- fdiv 1 dist2 ;;
    let force := common * (2 * krf * dist - rinv2) in
    Ok (pot, force)
  else
    p <- fdiv (ELEC_FACTOR * qi * qj) dist ;;
    pot <- fdiv p scale ;;
    force <- fdiv (- pot) dist ;;
    Ok (pot, force).

(** ** Angle and torsion kernels, and the evaluator *)

Section Kernels.

Variable nu : numbautil.

(** [w(a[k] - b[k], box[k])] for [k] in [range(3)] *)
Definition wrap3 (w : R -> R -> R) (a b box : vec3) : vec3 :=
  let '(a0, a1, a2) := a in
  let '(b0, b1, b2) := b in
  let '(l0, l1, l2) := box in
  (w (a0 - b0) l0, w (a1 - b1) l1, w (a2 - b2) l2).

Definition _evaluate_angles (pos : vec3 * vec3 * vec3) (angle_params : R * R)
    (box : vec3) : res (R * (vec3 * vec3 * vec3)) :=
  let '(k0, theta0) := angle_params in
  let '(p0, p1, p2) := pos in
  let r23 := wrap3 (wrapBondedDistance nu) p2 p1 box in
  let r21 := wrap3 (wrapBondedDistance nu) p0 p1 box in
  let '(a0, a1, a2) := r23 in
  let '(b0, b1, b2) := r21 in
  let dotprod := a0 * b0 + a1 * b1 + a2 * b2 in
  let norm23 := a0 * a0 + a1 * a1 + a2 * a2 in
  let norm21 := b0 * b0 + b1 * b1 + b2 * b2 in
  norm23inv <- fdiv 1 (sqrt norm23) ;;
  norm21inv <- fdiv 1 (sqrt norm21) ;;
  let cos_theta := dotprod * norm21inv * norm23inv in
  let cos_theta := if Rlt_dec cos_theta (-1) then -1 else cos_theta in
  let cos_theta := if Rgt_dec cos_theta 1 then 1 else cos_theta in
  let theta := acos cos_theta in
  let delta_theta := theta - theta0 in
  let pot := k0 * delta_theta * delta_theta in
  let sin_theta := sqrt (1 - cos_theta * cos_theta) in
  let coef :=
    if Req_EM_T sin_theta 0 then 0
    else -2 * k0 * delta_theta / sin_theta in
  let f0 (x21 x23 : R) :=
    coef * (cos_theta * x21 * norm21inv - x23 * norm23inv) * norm21inv in
  let f2 (x21 x23 : R) :=
    coef * (cos_theta * x23 * norm23inv - x21 * norm21inv) * norm23inv in
  let f1 (x21 x23 : R) := - (f0 x21 x23 + f2 x21 x23) in
  Ok (pot, ((f0 b0 a0, f0 b1 a1, f0 b2 a2),
            (f1 b0 a0, f1 b1 a1, f1 b2 a2),
            (f2 b0 a0, f2 b1 a1, f2 b2 a2))).

(** Index of the first NaN of a parameter row, counting from [i]. *)
Fixpoint first_nan (tp : list (option R)) (i : nat) : option nat :=
  match tp with
  | [] => None
  | None :: _ => Some i
  | Some _ :: r => first_nan r (S i)
  end.

Definition ntorsions_of (torsionparam : list (option R)) : nat :=
  match first_nan torsionparam 0 with
  | Some i => (i / 3)%nat
  | None => (List.length torsionparam / 3)%nat
  end.

(** The wrap of the harmonic branch:
    [if diff < -pi: diff += 2 * pi elif diff > pi: diff -= 2 * pi]. *)
Definition wrap_diff (diff : R) : R :=
  if Rlt_dec diff (- PI) then diff + 2 * PI
  else if Rgt_dec diff PI then diff - 2 * PI
  else diff.

(** One pass of the component loop of [_evaluate_torsion] on [(pot, coef)]. *)
Definition torsion_term (torsionparam : list (option R)) (phi : R) (i : nat)
    (pc : R * R) : res (R * R) :=
  let '(pot, coef) := pc in
  k0 <- readf torsionparam (i * 3 + 0) ;;
  phi0 <- readf torsionparam (i * 3 + 1) ;;
  per <- readf torsionparam (i * 3 + 2) ;;
  if Rgt_dec per 0 then
    Ok (pot + k0 * (1 + cos (per * phi - phi0)),
        coef + - per * k0 * sin (per * phi - phi0))
  else
    let diff := wrap_diff (phi - phi0) in
    Ok (pot + k0 * diff ^ 2, coef + 2 * k0 * diff).

Definition _evaluate_torsion (pos : vec3 * vec3 * vec3 * vec3)
    (torsionparam : list (option R)) (box : vec3)
  : res (R * (vec3 * vec3 * vec3 * vec3)) :=
  let ntorsions := ntorsions_of torsionparam in
  '(phi, r12, r23, r34) <- dihedralAngleFull nu pos box ;;
  '(pot, coef) <-
     forM (seq 0 ntorsions) (torsion_term torsionparam phi) (0, 0) ;;
  let dEdTheta := coef in
  let cross1 := cross r12 r23 in
  let cross2 := cross r23 r34 in
  let norm2Delta2 := dot r23 r23 in
  let normDelta2 := sqrt norm2Delta2 in
  let normCross1 := dot cross1 cross1 in
  let normCross2 := dot cross2 cross2 in
  let normBC := normDelta2 in
  ff0 <- fdiv (- dEdTheta * normBC) normCross1 ;;
  ff3 <- fdiv (dEdTheta * normBC) normCross2 ;;
  ff1 <- fdiv (dot r12 r23) norm2Delta2 ;;
  ff2 <- fdiv (dot r34 r23) norm2Delta2 ;;
  let force1 := vscale ff0 cross1 in
  let force4 := vscale ff3 cross2 in
  let s := vsub (vscale ff1 force1) (vscale ff2 force4) in
  Ok (pot, (vsub vzero force1,
            vadd vzero (vadd force1 s),
            vadd vzero (vsub force4 s),
            vsub vzero force4)).

Variable coords : ndarray3.
Variable box : ndarray2.
Variable a : ffargs.

Definition natoms : nat := shape0 coords.
Definition nframes : nat := shape2 coords.

Definition usersets : bool :=
  (0 <? List.length (set1 a))%nat || (0 <? List.length (set2 a))%nat.

(** [direction_vec / dist]: numpy answers a zero [dist] with NaN entries. *)
Definition unitvec (direction_vec : vec3) (dist : R) : option vec3 :=
  if Req_EM_T dist 0 then None
  else let '(d0, d1, d2) := direction_vec in
       Some (d0 / dist, d1 / dist, d2 / dist).

(** [direction_vec] and [dist] of the pair [i], [j] in the frame [f]. *)
Definition pair_direction (f i j : nat) : vec3 :=
  wrap3 (wrapDistance nu) (atom_pos coords i f) (atom_pos coords j f)
        (frame_box box f).
Definition pair_dist (f i j : nat) : R :=
  let '(d0, d1, d2) := pair_direction f i j in
  sqrt (d0 * d0 + d1 * d1 + d2 * d2).

(** [cutoff != 0 and dist > cutoff] *)
Definition beyond_cutoff (dist : R) : bool :=
  if Req_EM_T (cutoff a) 0 then false
  else if Rgt_dec dist (cutoff a) then true else false.

(** Body of the pair loop for the frame [f] and the pair [i < j]. *)
Definition pair_body (f i j : nat) (st : acc) : res acc :=
  let isbonded := _ispaired (bonda a) i j in
  let isexcluded := _ispaired (excl a) i j in
  let insets := _insets (Z.of_nat i) (Z.of_nat j) (set1 a) (set2 a) in
  if usersets && negb insets then Ok st
  else if isexcluded && negb isbonded then Ok st
  else
    let direction_vec := pair_direction f i j in
    let dist := pair_dist f i j in
    let direction_unitvec := unitvec direction_vec dist in
    if beyond_cutoff dist then Ok st
    else
      '(pot_bo, force_bo) <-
         (if isbonded
          then _evaluate_harmonic_bonds i j (bonda a) (bondv a) dist
          else Ok (0, 0)) ;;
      let st := if isbonded then add_energy Bond pot_bo st else st in
      let coeff := if isbonded then 0 + force_bo else 0 in
      '(pot_lj, force_lj) <-
         (if isexcluded then Ok (0, 0) else _evaluate_lj i j a dist) ;;
      let st := if isexcluded then st else add_energy LJ pot_lj st in
      let coeff := if isexcluded then coeff else coeff + force_lj in
      '(pot_el, force_el) <-
         (if isexcluded then Ok (0, 0)
          else _evaluate_elec i j (charge a) (e14a a) (e14v a) (ELEC_FACTOR a)
                 dist (rfa a) (solventDielectric a) (cutoff a)) ;;
      let st := if isexcluded then st else add_energy Elec pot_el st in
      let coeff := if isexcluded then coeff else coeff + force_el in
      let st := add_atmnrg i Bond (pot_bo * 0.5) st in
      let st := add_atmnrg j Bond (pot_bo * 0.5) st in
      let st := add_atmnrg i LJ (pot_lj * 0.5) st in
      let st := add_atmnrg j LJ (pot_lj * 0.5) st in
      let st := add_atmnrg i Elec (pot_el * 0.5) st in
      let st := add_atmnrg j Elec (pot_el * 0.5) st in
      match direction_unitvec with
      | None => Raise NotANumber
      | Some u =>
          let st := sub_force i (vscale coeff u) st in
          let st := add_force j (vscale coeff u) st in
          Ok st
      end.

(** [for i in range(natoms): for j in range(i + 1, natoms): ...] *)
Definition pair_loop (f : nat) (st : acc) : res acc :=
  forM (seq 0 natoms)
       (fun i => forM (seq (i + 1) (natoms - (i + 1))) (pair_body f i)) st.

Definition angle_body (f i : nat) (st : acc) : res acc :=
  let '(i0, i1, i2) := nth i (angles a) (0, 0, 0)%nat in
  '(pot_an, force_an) <-
     _evaluate_angles
       (atom_pos coords i0 f, atom_pos coords i1 f, atom_pos coords i2 f)
       (nth i (angle_params a) (0, 0)) (frame_box box f) ;;
  let '(fa0, fa1, fa2) := force_an in
  let st := add_energy Angle pot_an st in
  let st := add_force i0 fa0 st in
  let st := add_atmnrg i0 Angle (pot_an / 3) st in
  let st := add_force i1 fa1 st in
  let st := add_atmnrg i1 Angle (pot_an / 3) st in
  let st := add_force i2 fa2 st in
  let st := add_atmnrg i2 Angle (pot_an / 3) st in
  Ok st.

(** The body shared by the dihedral and the improper loops, for the atom
    quadruple [q] and its parameter row. *)
Definition torsion_step (t : term) (f : nat) (q : nat * nat * nat * nat)
    (row : list (option R)) (st : acc) : res acc :=
  let '(i0, i1, i2, i3) := q in
  '(pot, force) <-
     _evaluate_torsion
       (atom_pos coords i0 f, atom_pos coords i1 f,
        atom_pos coords i2 f, atom_pos coords i3 f)
       row (frame_box box f) ;;
  let '(f0, f1, f2, f3) := force in
  let st := add_energy t pot st in
  let st := add_force i0 f0 st in
  let st := add_atmnrg i0 t (pot / 4) st in
  let st := add_force i1 f1 st in
  let st := add_atmnrg i1 t (pot / 4) st in
  let st := add_force i2 f2 st in
  let st := add_atmnrg i2 t (pot / 4) st in
  let st := add_force i3 f3 st in
  let st := add_atmnrg i3 t (pot / 4) st in
  Ok st.

(** Pass [i] of the dihedral or of the improper loop: [quads] and [params]
    are [dihedrals], [dihedral_params] with [t = Dihedral], or [impropers],
    [improper_params] with [t = Improper]. *)
Definition torsion_body (t : term) (quads : list (nat * nat * nat * nat))
    (params : list (list (option R))) (f i : nat) (st : acc) : res acc :=
  torsion_step t f (nth i quads (0, 0, 0, 0)%nat) (nth i params []) st.

(** One pass of the frame loop of [_ffevaluate]. *)
Definition frame_eval (f : nat) : res acc :=
  st <- pair_loop f (acc_zero natoms) ;;
  if usersets then Ok st
  else
    st <- forM (seq 0 (List.length (angles a))) (angle_body f) st ;;
    st <- forM (seq 0 (List.length (dihedrals a)))
               (torsion_body Dihedral (dihedrals a) (dihedral_params a) f) st ;;
    forM (seq 0 (List.length (impropers a)))
         (torsion_body Improper (impropers a) (improper_params a) f) st.

(** [_ffevaluate]: the frames in order, the first exception ends the
    call; the [f]-th element of the result holds [energies[:, f]],
    [forces[:, :, f]] and [atmnrg[:, :, f]]. *)
Definition _ffevaluate : res (list acc) :=
  mapM frame_eval (seq 0 nframes).

End Kernels.

(** ** Well-formed inputs *)

(** Every atom index of the angle, dihedral and improper arrays is below
    the number of atoms [n]. *)
Definition topology_in_range (n : nat) (a : ffargs) : bool :=
  forallb (fun '(i0, i1, i2) => (i0 <? n) && (i1 <? n) && (i2 <? n))%nat
          (angles a)
  && forallb (fun '(i0, i1, i2, i3) =>
                (i0 <? n) && (i1 <? n) && (i2 <? n) && (i3 <? n))%nat
             (dihedrals a)
  && forallb (fun '(i0, i1, i2, i3) =>
                (i0 <? n) && (i1 <? n) && (i2 <? n) && (i3 <? n))%nat
             (impropers a).

(** ** The molecule and the parameter set *)

(** A tuple of atom types, the key of the parmed tables. *)
Definition key : Type := list string.

Definition quad : Type := (nat * nat * nat * nat)%type.

(** What [init] reads of a moleculekit [Molecule]; [mol.numAtoms] is the
    length of the per-atom arrays. *)
Record Molecule : Type := mk_Molecule {
  atomtype : list string;
  mol_charge : list R;
  mol_bonds : list (nat * nat);
  mol_angles : list (nat * nat * nat);
  mol_dihedrals : list quad;
  mol_impropers : list quad
}.

Definition numAtoms (mol : Molecule) : nat := List.length (atomtype mol).

Record AtomType : Type := mk_AtomType {
  at_sigma : R; at_epsilon : R; at_sigma_14 : R; at_epsilon_14 : R;
  at_nbfix : list (string * (R * R * R * R))
}.
Record BondType : Type := mk_BondType { bt_k : R; bt_req : R }.
Record AngleType : Type := mk_AngleType { an_k : R; an_theteq : R }.
Record DihedralType : Type := mk_DihedralType {
  phi_k : R; phase : R; per : R; scnb : R; scee : R
}.
Record ImproperType : Type := mk_ImproperType { psi_k : R; psi_eq : R }.

(** What [init] reads of a parmed [ParameterSet].  The tables are ordered
    dictionaries: association lists in iteration order.  The Urey-Bradley
    table only triggers a log message and is left out. *)
Record ParameterSet : Type := mk_ParameterSet {
  atom_types : list (string * AtomType);
  bond_types : list (key * BondType);
  angle_types : list (key * AngleType);
  dihedral_types : list (key * list DihedralType);
  improper_types : list (key * ImproperType);
  improper_periodic_types : list (key * DihedralType);
  nbfix_types : list key
}.

Fixpoint key_eqb (k1 k2 : key) : bool :=
  match k1, k2 with
  | [], [] => true
  | x :: r1, y :: r2 => String.eqb x y && key_eqb r1 r2
  | _, _ => false
  end.

(** [d[k]] when [k in d] *)
Fixpoint lookup {V : Type} (k : key) (d : list (key * V)) : option V :=
  match d with
  | [] => None
  | (k', v) :: r => if key_eqb k k' then Some v else lookup k r
  end.

Fixpoint lookup_str {V : Type} (k : string) (d : list (string * V))
  : option V :=
  match d with
  | [] => None
  | (k', v) :: r => if String.eqb k k' then Some v else lookup_str k r
  end.

(** [d[k]], raising [KeyError] *)
Definition getitem {V : Type} (k : key) (d : list (key * V)) : res V :=
  match lookup k d with Some v => Ok v | None => Raise KeyError end.

Definition getitem_str {V : Type} (k : string) (d : list (string * V))
  : res V :=
  match lookup_str k d with Some v => Ok v | None => Raise KeyError end.

(** [math.radians] *)
Definition radians (deg : R) : R := deg * PI / 180.

(** ** Sorting and [np.unique] *)

Fixpoint insert_sorted {A : Type} (cmp : A -> A -> comparison) (x : A)
    (l : list A) : list A :=
  match l with
  | [] => [x]
  | y :: r =>
      match cmp x y with
      | Gt => y :: insert_sorted cmp x r
      | _ => x :: l
      end
  end.

(** [sorted(l)] *)
Definition sorted {A : Type} (cmp : A -> A -> comparison) (l : list A)
  : list A :=
  fold_right (insert_sorted cmp) [] l.

Fixpoint insert_uniq {A : Type} (cmp : A -> A -> comparison) (x : A)
    (l : list A) : list A :=
  match l with
  | [] => [x]
  | y :: r =>
      match cmp x y with
      | Lt => x :: l
      | Eq => l
      | Gt => y :: insert_uniq cmp x r
      end
  end.

(** [np.unique(l)]: the sorted distinct values. *)
Definition np_unique {A : Type} (cmp : A -> A -> comparison) (l : list A)
  : list A :=
  fold_right (insert_uniq cmp) [] l.

Fixpoint index_of (s : string) (l : list string) : nat :=
  match l with
  | [] => O
  | x :: r => if String.eqb s x then O else S (index_of s r)
  end.

Definition mem_str (s : string) (l : list string) : bool :=
  existsb (String.eqb s) l.
Definition mem_nat (n : nat) (l : list nat) : bool :=
  existsb (Nat.eqb n) l.

(** ** [nestedListToArray] for the flat per-row lists of [init] *)

Definition pad_row {A : Type} (w : nat) (default : A) (row : list A)
  : list A :=
  row ++ repeat default (w - List.length row).

Definition nestedListToArray {A : Type} (nl : list (list A)) (default : A)
  : list (list A) :=
  match nl with
  | [] => [[default]]
  | _ =>
      let w := list_max (map (@List.length A) nl) in
      if (w =? 0)%nat then map (fun _ => [default]) nl
      else map (pad_row w default) nl
  end.

(** ** [wildcard_substituted] *)

Definition has_X (k : key) : bool := mem_str "X"%string k.

(** The inner loop: does the key [atom_types] match [type] position by
    position?  [type[i]] is read only where the key is not ['X']. *)
Fixpoint wildcard_match (atom_types type : key) : res bool :=
  match atom_types with
  | [] => Ok true
  | t :: r =>
      if String.eqb t "X" then wildcard_match r (tl type)
      else
        match type with
        | [] => Raise IndexError
        | x :: _ =>
            if String.eqb t x then wildcard_match r (tl type) else Ok false
        end
  end.

Fixpoint wildcard_scan (params : list key) (type : key) : res key :=
  match params with
  | [] => Ok []
  | atom_types :: r =>
      m <- wildcard_match atom_types type ;;
      if m : bool then Ok atom_types else wildcard_scan r type
  end.

(** Returns the first wildcard key that matches, or the empty tuple. *)
Definition wildcard_substituted {V : Type} (type : key)
    (params : list (key * V)) : res key :=
  wildcard_scan (filter has_X (map fst params)) type.

(** ** Improper parameters *)

Fixpoint remove_nth {A : Type} (i : nat) (l : list A) : list A :=
  match l, i with
  | [], _ => []
  | _ :: r, O => r
  | x :: r, S i' => x :: remove_nth i' r
  end.

(** [itertools.permutations], in its order (by position). *)
Fixpoint permutations_aux {A : Type} (n : nat) (l : list A)
  : list (list A) :=
  match n with
  | O => [[]]
  | S n' =>
      flat_map
        (fun i =>
           match nth_error l i with
           | Some x => map (cons x) (permutations_aux n' (remove_nth i l))
           | None => []
           end)
        (seq 0 (List.length l))
  end.

Definition permutations {A : Type} (l : list A) : list (list A) :=
  permutations_aux (List.length l) l.

(** [[x for x in permutations((0, 1, 2, 3)) if x[2] == 2]] *)
Definition perms : list (list nat) :=
  filter (fun x => (nth 2 x 0 =? 2)%nat) (permutations [0; 1; 2; 3]%nat).

(** [tuple(type[p])]: numpy indexing of the type array by a list. *)
Fixpoint take_perm (type : key) (p : list nat) : res key :=
  match p with
  | [] => Ok []
  | i :: r =>
      match nth_error type i with
      | None => Raise IndexError
      | Some t => ts <- take_perm type r ;; Ok (t :: ts)
      end
  end.

(** The parameter found, tagged with the table it comes from (the strings
    ["improper_types"] and ["improper_periodic_types"] of the source). *)
Inductive improper_param : Type :=
| From_improper_types (p : ImproperType)
| From_improper_periodic_types (p : DihedralType).

Fixpoint getImproperParameter_loop (ps : list (list nat)) (type : key)
    (parameters : ParameterSet) : res improper_param :=
  match ps with
  | [] => Raise RuntimeError
  | p :: rest =>
      k <- take_perm type p ;;
      match lookup k (improper_types parameters) with
      | Some v => Ok (From_improper_types v)
      | None =>
          match lookup k (improper_periodic_types parameters) with
          | Some v => Ok (From_improper_periodic_types v)
          | None =>
              improper_params <-
                wildcard_substituted k (improper_types parameters) ;;
              match improper_params with
              | _ :: _ =>
                  v <- getitem improper_params (improper_types parameters) ;;
                  Ok (From_improper_types v)
              | [] =>
                  improper_periodic_params <-
                    wildcard_substituted k
                      (improper_periodic_types parameters) ;;
                  match improper_periodic_params with
                  | _ :: _ =>
                      v <- getitem improper_periodic_params
                             (improper_periodic_types parameters) ;;
                      Ok (From_improper_periodic_types v)
                  | [] => getImproperParameter_loop rest type parameters
                  end
              end
          end
      end
  end.

Definition getImproperParameter (type : key) (parameters : ParameterSet)
  : res improper_param :=
  getImproperParameter_loop perms type parameters.

(** [graph.neighbors(i)] in the graph whose edges are the bonds. *)
Definition neighbors (bonds : list (nat * nat)) (i : nat) : list nat :=
  flat_map (fun '(x, y) =>
              (if (x =? i)%nat then [y] else [])
              ++ (if (y =? i)%nat then [x] else []))
           bonds.

(** [np.intersect1d(l1, l2)]: the sorted distinct common values. *)
Definition intersect1d (l1 l2 : list nat) : list nat :=
  np_unique Nat.compare (filter (fun v => mem_nat v l2) l1).

(** [np.setdiff1d(l, x)]: the sorted distinct values of [l] other than [x]. *)
Definition setdiff1d (l : list nat) (x : nat) : list nat :=
  np_unique Nat.compare (filter (fun v => negb (v =? x)%nat) l).

Definition quad_list (q : quad) : list nat :=
  let '(i0, i1, i2, i3) := q in [i0; i1; i2; i3].

Fixpoint detectImproperCenter_loop (todo indexes : list nat)
    (bonds : list (nat * nat)) : option nat :=
  match todo with
  | [] => None
  | i :: r =>
      if (List.length (intersect1d (neighbors bonds i) indexes) =? 3)%nat
      then Some i
      else detectImproperCenter_loop r indexes bonds
  end.

Definition detectImproperCenter (indexes : list nat)
    (bonds : list (nat * nat)) : option nat :=
  detectImproperCenter_loop indexes indexes bonds.

(** [uqtypes[typeint[idx]]]: the atom types of a list of atom indexes. *)
Fixpoint types_at (atomtypes : list string) (idx : list nat) : res key :=
  match idx with
  | [] => Ok []
  | i :: r =>
      match nth_error atomtypes i with
      | None => Raise IndexError
      | Some t => ts <- types_at atomtypes r ;; Ok (t :: ts)
      end
  end.

Definition types_of (mol : Molecule) (idx : list nat) : res key :=
  types_at (atomtype mol) idx.

(** The retry of [init] after a failed lookup: relocate the center. *)
Definition relocated_type (mol : Molecule) (impr : list nat)
  : res key :=
  match detectImproperCenter impr (mol_bonds mol) with
  | None => Raise RuntimeError
  | Some center =>
      let notcenter := setdiff1d impr center in
      nts <- types_of mol notcenter ;;
      let notcenter := sorted String.compare nts in
      cts <- types_of mol [center] ;;
      Ok (firstn 2 notcenter ++ cts ++ skipn 2 notcenter)
  end.

(** The [try ... except] of the improper loop of [init]. *)
Definition resolve_improper (mol : Molecule) (prm : ParameterSet)
    (impr : quad) : res improper_param :=
  ty <- types_of mol (quad_list impr) ;;
  match getImproperParameter ty prm with
  | Ok r => Ok r
  | Raise _ =>
      match (ty <- relocated_type mol (quad_list impr) ;;
             getImproperParameter ty prm) with
      | Ok r => Ok r
      | Raise _ => Raise RuntimeError
      end
  end.

Definition improper_row (p : improper_param) : list (option R) :=
  match p with
  | From_improper_periodic_types t =>
      [Some (phi_k t); Some (radians (phase t)); Some (per t)]
  | From_improper_types t =>
      [Some (psi_k t); Some (radians (psi_eq t)); Some 0]
  end.

(** ** [init]: the topology indexer *)

(** [ll[i].append(v)] *)
Definition append_at {A : Type} (i : nat) (v : A) (ll : list (list A))
  : res (list (list A)) :=
  if (i <? List.length ll)%nat
  then Ok (list_upd i (fun row => row ++ [v]) ll)
  else Raise IndexError.

(** One row of the [nbfix] table for the key [nbf] of [prm.nbfix_types]. *)
Definition nbfix_row_of (uqtypes : list string) (prm : ParameterSet)
    (nbf : key) : res nbfix_row :=
  match nbf with
  | t0 :: t1 :: _ =>
      if mem_str t0 uqtypes && mem_str t1 uqtypes then
        aty <- getitem_str t0 (atom_types prm) ;;
        '(rmin, eps, rmin14, eps14) <- getitem_str t1 (at_nbfix aty) ;;
        let sig := rmin * Rpower 2 (-1 / 6) in
        let sig14 := rmin14 * Rpower 2 (-1 / 6) in
        Ok (INR (index_of t0 uqtypes), INR (index_of t1 uqtypes),
            eps, sig, eps14, sig14)
      else Ok (-1, -1, -1, -1, -1, -1)
  | _ => Raise IndexError
  end.

Definition bond_step (atomtypes : list string) (prm : ParameterSet) (bond : nat * nat)
    (st : list (list nat) * list (list nat) * list (list R))
  : res (list (list nat) * list (list nat) * list (list R)) :=
  let '(excl_list, bond_pairs, bond_params) := st in
  let '(b0, b1) := bond in
  types <- types_at atomtypes [b0; b1] ;;
  let lo := Nat.min b0 b1 in
  let hi := Nat.max b0 b1 in
  excl_list <- append_at lo hi excl_list ;;
  bond_pairs <- append_at lo hi bond_pairs ;;
  bt <- getitem types (bond_types prm) ;;
  bond_params <- append_at lo (bt_k bt) bond_params ;;
  bond_params <- append_at lo (bt_req bt) bond_params ;;
  Ok (excl_list, bond_pairs, bond_params).

(** The angle loop: threads [excl_list] and yields the rows of
    [angle_params]. *)
Fixpoint angle_loop (atomtypes : list string) (prm : ParameterSet)
    (angs : list (nat * nat * nat)) (excl_list : list (list nat))
  : res (list (list nat) * list (R * R)) :=
  match angs with
  | [] => Ok (excl_list, [])
  | (a0, a1, a2) :: r =>
      excl_list <- append_at (Nat.min a0 a2) (Nat.max a0 a2) excl_list ;;
      types <- types_at atomtypes [a0; a1; a2] ;;
      aty <- getitem types (angle_types prm) ;;
      '(excl_list, rows) <- angle_loop atomtypes prm r excl_list ;;
      Ok (excl_list, (an_k aty, radians (an_theteq aty)) :: rows)
  end.

(** State of the dihedral loop.  [alreadyadded] holds the sorted index
    quadruples (the source joins their decimal forms with spaces into a
    dictionary key, which names the sorted quadruple one to one). *)
Record dihedral_state : Type := mk_dihedral_state {
  alreadyadded : list (list nat);
  s14_atom_list : list (list nat);
  s14_value_list : list (list R);
  e14_atom_list : list (list nat);
  e14_value_list : list (list R)
}.

Fixpoint list_nat_eqb (l1 l2 : list nat) : bool :=
  match l1, l2 with
  | [], [] => true
  | x :: r1, y :: r2 => (x =? y)%nat && list_nat_eqb r1 r2
  | _, _ => false
  end.

Definition stringrep (dihed : quad) : list nat :=
  sorted Nat.compare (quad_list dihed).

(** The lookup of the dihedral loop: exact, reversed, then wildcard. *)
Definition dihedral_lookup (prm : ParameterSet) (ty : key)
  : res (list DihedralType) :=
  match lookup ty (dihedral_types prm) with
  | Some dihparam => Ok dihparam
  | None =>
      match lookup (rev ty) (dihedral_types prm) with
      | Some dihparam => Ok dihparam
      | None =>
          w <- wildcard_substituted ty (dihedral_types prm) ;;
          dihparam <- getitem w (dihedral_types prm) ;;
          match dihparam with
          | [] => Raise RuntimeError
          | _ => Ok dihparam
          end
      end
  end.

(** One pass of the dihedral loop: the new state and the row
    [dihedral_params[idx]] (left empty for a repeated dihedral). *)
Definition dihedral_step (atomtypes : list string) (prm : ParameterSet) (dihed : quad)
    (st : dihedral_state) : res (dihedral_state * list R) :=
  if existsb (list_nat_eqb (stringrep dihed)) (alreadyadded st)
  then Ok (st, [])
  else
    let added := stringrep dihed :: alreadyadded st in
    ty <- types_at atomtypes (quad_list dihed) ;;
    dihparam <- dihedral_lookup prm ty ;;
    let '(d0, _, _, d3) := dihed in
    let i := Nat.min d0 d3 in
    let j := Nat.max d0 d3 in
    s14a' <- append_at i j (s14_atom_list st) ;;
    first <- match dihparam with
             | [] => Raise IndexError
             | dip :: _ => Ok dip
             end ;;
    s14v' <- append_at i (scnb first) (s14_value_list st) ;;
    e14a' <- append_at i j (e14_atom_list st) ;;
    e14v' <- append_at i (scee first) (e14_value_list st) ;;
    Ok (mk_dihedral_state added s14a' s14v' e14a' e14v',
        flat_map (fun dip => [phi_k dip; radians (phase dip); per dip])
                 dihparam).

Fixpoint dihedral_loop (atomtypes : list string) (prm : ParameterSet)
    (diheds : list quad) (st : dihedral_state)
  : res (dihedral_state * list (list R)) :=
  match diheds with
  | [] => Ok (st, [])
  | dihed :: r =>
      '(st, row) <- dihedral_step atomtypes prm dihed st ;;
      '(st, rows) <- dihedral_loop atomtypes prm r st ;;
      Ok (st, row :: rows)
  end.

(** [scipy.constants] (CODATA 2018) *)
Definition const_epsilon_0 : R := 8.8541878128 / 10 ^ 12.
Definition const_elementary_charge : R := 1.602176634 / 10 ^ 19.
Definition const_angstrom : R := 1 / 10 ^ 10.
Definition const_Avogadro : R := 6.02214076 * 10 ^ 23.
Definition const_kilo : R := 1000.
Definition const_calorie : R := 4.184.

Definition ELEC_FACTOR_value : R :=
  1 / (4 * PI * const_epsilon_0)
  * const_elementary_charge ^ 2
  / const_angstrom
  * (const_Avogadro / (const_kilo * const_calorie)).

Definition int_array (nl : list (list nat)) : list (list Z) :=
  nestedListToArray (map (map Z.of_nat) nl) (-1)%Z.
Definition float_array (nl : list (list R)) : list (list (option R)) :=
  nestedListToArray (map (map (@Some R)) nl) None.

Definition init (mol : Molecule) (prm : ParameterSet) : res topo :=
  let natoms := numAtoms mol in
  let uqtypes := np_unique String.compare (atomtype mol) in
  let typeint := map (fun t => index_of t uqtypes) (atomtype mol) in
  atys <- mapM (fun t => getitem_str t (atom_types prm)) uqtypes ;;
  nbfix <- mapM (nbfix_row_of uqtypes prm) (nbfix_types prm) ;;
  '(excl_list, bond_pairs, bond_params) <-
     forM (mol_bonds mol) (bond_step (atomtype mol) prm)
          (repeat [] natoms, repeat [] natoms, repeat [] natoms) ;;
  '(excl_list, angle_params) <-
     angle_loop (atomtype mol) prm (mol_angles mol) excl_list ;;
  let excl_list := map (np_unique Nat.compare) excl_list in
  '(dst, dihedral_params) <-
     dihedral_loop (atomtype mol) prm (mol_dihedrals mol)
       (mk_dihedral_state [] (repeat [] natoms) (repeat [] natoms)
                          (repeat [] natoms) (repeat [] natoms)) ;;
  improper_params <-
     mapM (fun impr => p <- resolve_improper mol prm impr ;;
                       Ok (improper_row p))
          (mol_impropers mol) ;;
  Ok (mk_topo typeint
        (int_array excl_list)
        nbfix
        (map at_sigma atys) (map at_sigma_14 atys)
        (map at_epsilon atys) (map at_epsilon_14 atys)
        (int_array (s14_atom_list dst))
        (int_array (e14_atom_list dst))
        (float_array (s14_value_list dst))
        (float_array (e14_value_list dst))
        (int_array bond_pairs)
        (float_array bond_params)
        ELEC_FACTOR_value
        (mol_charge mol)
        (mol_angles mol) angle_params
        (mol_dihedrals mol) (float_array dihedral_params)
        (mol_impropers mol) improper_params).

(** ** The class [FFEvaluate] *)

Section FFEvaluate.

(** [mol.atomselect(sel, indexes=True)] of moleculekit, the upstream
    selection component: a parameter. *)
Variable atomselect : Molecule -> string -> res (list Z).

Definition calculateSets (mol : Molecule) (betweensets : option (string * string))
  : res (Molecule * list Z * list Z) :=
  match betweensets with
  | None => Ok (mol, [], [])
  | Some (selA, selB) =>
      setA <- atomselect mol selA ;;
      setB <- atomselect mol selB ;;
      Ok (mk_Molecule (atomtype mol) (mol_charge mol) [] [] [] [], setA, setB)
  end.

(** [FFEvaluate.__init__]: the object is its [_args]. *)
Definition FFEvaluate_init (mol : Molecule) (prm : ParameterSet)
    (betweensets : option (string * string)) (cutoff : R) (rfa : bool)
    (solventDielectric : R) : res ffargs :=
  '(mol, setA, setB) <- calculateSets mol betweensets ;;
  args <- init mol prm ;;
  Ok (mk_ffargs args setA setB cutoff rfa solventDielectric).

End FFEvaluate.

(** *** Arrays in memory

    [calculate] receives numpy arrays of the caller.  A numpy array is a
    view (shape) of a buffer; the buffers live in a heap, so that a view
    shares its buffer and [copy] and [astype] allocate a new one. *)

Definition heap : Type := list (list R).

Record ndarray : Type := mk_ndarray {
  base : nat;
  shape : list nat
}.

Definition buffer_of (h : heap) (x : ndarray) : list R := nth (base x) h [].

(** [x[:, :, np.newaxis]]: a view of the same buffer. *)
Definition newaxis (x : ndarray) : ndarray :=
  mk_ndarray (base x) (shape x ++ [1%nat]).

(** [x.copy()] and [x.astype(np.float32)]: a new array with the same
    entries (the cast is the identity in exact arithmetic). *)
Definition copy (x : ndarray) (h : heap) : heap * ndarray :=
  (h ++ [buffer_of h x], mk_ndarray (List.length h) (shape x)).
Definition astype (x : ndarray) (h : heap) : heap * ndarray := copy x h.

(** [np.zeros(shape)] *)
Definition zeros (sh : list nat) (h : heap) : heap * ndarray :=
  (h ++ [repeat 0 (fold_right Nat.mul 1%nat sh)],
   mk_ndarray (List.length h) sh).

(** The entries of a C-contiguous array of 3, or of 2, dimensions. *)
Definition view3 (h : heap) (x : ndarray) (s0 s1 s2 : nat) : ndarray3 :=
  mk_ndarray3 s0 s1 s2
    (fun i k f => nth ((i * s1 + k) * s2 + f) (buffer_of h x) 0).
Definition view2 (h : heap) (x : ndarray) (r c : nat) : ndarray2 :=
  mk_ndarray2 r c (fun k f => nth (k * c + f) (buffer_of h x) 0).

(** [FFEvaluate.calculate]: the heap after the call and the result.
    [coords.shape[2]] is read where the source reads it: for the default
    box, and in the shape test after [box.shape[0]] and [box.shape[1]]. *)
Definition calculate (nu : numbautil) (self : ffargs) (coords : ndarray)
    (box : option ndarray) (h : heap) : heap * res (list acc) :=
  let '(h, coords) :=
    if (List.length (shape coords) =? 2)%nat
    then copy (newaxis coords) h
    else (h, coords) in
  let nfr := nth_error (shape coords) 2 in
  let '(h, box) :=
    match box, nfr with
    | Some b, _ => (h, Ok b)
    | None, Some n => let '(h, b) := zeros [3%nat; n] h in (h, Ok b)
    | None, None => (h, Raise IndexError)
    end in
  match box with
  | Raise e => (h, Raise e)
  | Ok box =>
      match shape box with
      | [] => (h, Raise IndexError)
      | b0 :: rest =>
          if negb (b0 =? 3)%nat then (h, Raise ValueError)
          else
            match rest, nfr with
            | b1 :: _, Some n =>
                if negb (b1 =? n)%nat then (h, Raise ValueError)
                else
                  let '(h, coords32) := astype coords h in
                  let '(h, box32) := astype box h in
                  match shape coords32, shape box32 with
                  | [s0; s1; s2], [r; c] =>
                      (h, _ffevaluate nu (view3 h coords32 s0 s1 s2)
                            (view2 h box32 r c) self)
                  | _, _ => (h, Raise TypeError)
                  end
            | _, _ => (h, Raise IndexError)
            end
      end
  end.

(** ** Frame invariants *)

(** The gap between the energy row and the per-atom attribution, and the
    total force, of a frame. *)
Definition gap (st : acc) : R :=
  nrg_sum (energies st) - atmnrg_sum (atmnrg st).
Definition ftot (st : acc) : vec3 := vsum (forces st).

(** Shape of the accumulators of a frame of [n] atoms. *)
Definition shaped (n : nat) (st : acc) : Prop :=
  List.length (forces st) = n /\ List.length (atmnrg st) = n.

Definition balanced (n : nat) (st : acc) : Prop :=
  shaped n st /\ gap st = 0 /\ ftot st = vzero.

(** [(i, v)] is the sorted pair of a bond of the molecule (a 1-2 pair). *)
Definition bond_entry (bonds : list (nat * nat)) (i v : nat) : Prop :=
  exists b0 b1, In (b0, b1) bonds /\ Nat.min b0 b1 = i /\ Nat.max b0 b1 = v.

(** [(i, v)] is the sorted pair of the two ends of an angle of the molecule
    (a 1-3 pair). *)
Definition angle_entry (angs : list (nat * nat * nat)) (i v : nat) : Prop :=
  exists a0 a1 a2,
    In (a0, a1, a2) angs /\ Nat.min a0 a2 = i /\ Nat.max a0 a2 = v.

(** What an excluded, bonded pair adds to the accumulators: the bond
    potential, its two halves, and the opposite forces along [u]. *)
Definition bond_only_update (i j : nat) (pot_bo force_bo : R) (u : vec3)
    (st : acc) : acc :=
  add_force j (vscale force_bo u)
    (sub_force i (vscale force_bo u)
       (add_atmnrg j Bond (pot_bo * 0.5)
          (add_atmnrg i Bond (pot_bo * 0.5)
             (add_energy Bond pot_bo st)))).

(** ** Between-sets *)

(** The symmetric membership predicate of the between-sets restriction. *)
Definition straddles (i j : Z) (A B : list Z) : Prop :=
  (In i A /\ In j B) \/ (In i B /\ In j A).

(** The arguments with the two sets emptied: no between-sets restriction. *)
Definition without_sets (a : ffargs) : ffargs :=
  mk_ffargs a [] [] (cutoff a) (rfa a) (solventDielectric a).

(** The four bonded rows of an energy record are zero. *)
Definition bonded_terms_zero (e : nrg) : Prop :=
  e_bond e = 0 /\ e_angle e = 0 /\ e_dihedral e = 0 /\ e_improper e = 0.

(** ** The helpers of [numbautil], from the specification *)

(** Modelled from the spec: "round" of the minimum-image formula, the
    nearest integer (the specification does not say how ties go; here a
    half rounds up). *)
Definition spec_round (x : R) : Z := up (x - / 2).

(** Modelled from the spec: [numbautil.wrapDistance].  "For any axis with
    L > 0, the minimum image along that axis is d - L * round(d / L); for
    L <= 0 the axis is non-periodic and d is used unchanged." *)
Definition spec_wrapDistance (d L : R) : R :=
  if Rgt_dec L 0 then d - L * IZR (spec_round (d / L)) else d.

(** Modelled from the spec: [numbautil.dihedralAngleFull].  "Compute bond
    vectors r12 = p1 - p0, r23 = p2 - p1, r34 = p3 - p2 (bonded
    minimum-image), cross products c1 = r12 x r23, c2 = r23 x r34, and the
    dihedral angle phi with sign taken from the triple product
    (c1 x c2) . r23."  The size of the angle is the angle between [c1] and
    [c2]. *)
Definition spec_dihedralAngleFull (pos : vec3 * vec3 * vec3 * vec3)
    (box : vec3) : res (R * vec3 * vec3 * vec3) :=
  let '(p0, p1, p2, p3) := pos in
  let r12 := wrap3 spec_wrapDistance p1 p0 box in
  let r23 := wrap3 spec_wrapDistance p2 p1 box in
  let r34 := wrap3 spec_wrapDistance p3 p2 box in
  let c1 := cross r12 r23 in
  let c2 := cross r23 r34 in
  cosphi <- fdiv (dot c1 c2) (sqrt (dot c1 c1) * sqrt (dot c2 c2)) ;;
  let cosphi := if Rlt_dec cosphi (-1) then -1 else cosphi in
  let cosphi := if Rgt_dec cosphi 1 then 1 else cosphi in
  let phi := acos cosphi in
  let phi := if Rlt_dec (dot (cross c1 c2) r23) 0 then - phi else phi in
  Ok (phi, r12, r23, r34).

(** Modelled from the spec: the module [numbautil]; the bonded wrap "may
    be implemented identically" to the pair wrap. *)
Definition spec_numbautil : numbautil :=
  mk_numbautil spec_wrapDistance spec_wrapDistance spec_dihedralAngleFull.

(** ** A small system: a chain of four atoms *)

Definition ex_mol : Molecule :=
  mk_Molecule ["C"; "C"; "C"; "C"]%string [1; 1; 1; 1]
    [(0, 1); (1, 2); (2, 3)]%nat
    [(0, 1, 2); (1, 2, 3)]%nat
    [(0, 1, 2, 3)]%nat
    [].

Definition ex_prm : ParameterSet :=
  mk_ParameterSet
    [("C"%string, mk_AtomType 1 1 1 1 [])]
    [(["C"; "C"]%string, mk_BondType 1 1)]
    [(["C"; "C"; "C"]%string, mk_AngleType 1 90)]
    [(["C"; "C"; "C"; "C"]%string, [mk_DihedralType 1 0 1 2 2])]
    []
    []
    [].

(** One frame: atoms at (1,0,0), (0,0,0), (0,1,0), (0,1,1). *)
Definition ex_coords : ndarray3 :=
  mk_ndarray3 4 3 1
    (fun i k _ =>
       match i, k with
       | 0%nat, 0%nat => 1
       | 2%nat, 1%nat => 1
       | 3%nat, 1%nat => 1
       | 3%nat, 2%nat => 1
       | _, _ => 0
       end).

(** No periodic box. *)
Definition ex_box : ndarray2 := mk_ndarray2 3 1 (fun _ _ => 0).

(** The arrays [init] builds for the chain, and the arguments of an
    evaluation with no between-sets, no cutoff and no reaction field. *)
Definition ex_topo : topo :=
  mk_topo
    [0; 0; 0; 0]%nat
    [[1; 2]; [2; 3]; [3; -1]; [-1; -1]]%Z
    []
    [1] [1] [1] [1]
    [[3]; [-1]; [-1]; [-1]]%Z
    [[3]; [-1]; [-1]; [-1]]%Z
    [[Some 2]; [None]; [None]; [None]]
    [[Some 2]; [None]; [None]; [None]]
    [[1]; [2]; [3]; [-1]]%Z
    [[Some 1; Some 1]; [Some 1; Some 1]; [Some 1; Some 1]; [None; None]]
    ELEC_FACTOR_value
    [1; 1; 1; 1]
    [(0, 1, 2); (1, 2, 3)]%nat
    [(1, radians 90); (1, radians 90)]
    [(0, 1, 2, 3)]%nat
    [[Some 1; Some (radians 0); Some 1]]
    []
    [].

Definition ex_args : ffargs := mk_ffargs ex_topo [] [] 0 false 78.5.

(** A computation that returns. *)
Definition defined {A : Type} (m : res A) : Prop := exists x, m = Ok x.

(** A selection component for the chain: four named selections. *)
Definition ex_atomselect (mol : Molecule) (sel : string) : res (list Z) :=
  if String.eqb sel "first" then Ok [0; 1]%Z
  else if String.eqb sel "last" then Ok [2; 3]%Z
  else if String.eqb sel "all" then Ok [0; 1; 2; 3]%Z
  else if String.eqb sel "none" then Ok []
  else Raise ValueError.

(** ** Improper resolution, in the words of the specification *)

(** The first success of a list of attempts, in order. *)
Fixpoint first_some {A : Type} (l : list (option A)) : option A :=
  match l with
  | [] => None
  | Some x :: _ => Some x
  | None :: r => first_some r
  end.

(** The type tuple read in the order of the positions [p]. *)
Definition perm_apply (p : list nat) (type : key) : key :=
  map (fun i => nth i type EmptyString) p.

(** "A position equal to the query's type or equal to X." *)
Fixpoint matches_positionwise (wild type : key) : bool :=
  match wild, type with
  | [], [] => true
  | t :: r, x :: xs =>
      (String.eqb t "X" || String.eqb t x) && matches_positionwise r xs
  | _, _ => false
  end.

(** Wildcard lookup: "scan all parameter keys containing the wildcard
    symbol X and accept the first key that matches position-wise". *)
Definition spec_wildcard {V : Type} (type : key) (table : list (key * V))
  : option V :=
  option_map snd
    (find (fun kv => has_X (fst kv) && matches_positionwise (fst kv) type)
          table).

(** The four attempts for one permuted key, in the order of the claim:
    exact harmonic, exact periodic, wildcard harmonic, wildcard periodic. *)
Definition spec_attempts (prm : ParameterSet) (k : key)
  : list (option improper_param) :=
  [ option_map From_improper_types (lookup k (improper_types prm));
    option_map From_improper_periodic_types
      (lookup k (improper_periodic_types prm));
    option_map From_improper_types (spec_wildcard k (improper_types prm));
    option_map From_improper_periodic_types
      (spec_wildcard k (improper_periodic_types prm)) ].

(** The permutation scan: the first success over the permutations. *)
Definition spec_scan (prm : ParameterSet) (type : key)
  : option improper_param :=
  first_some
    (flat_map (fun p => spec_attempts prm (perm_apply p type)) perms).

(** Two atoms are bonded. *)
Definition bonded (bonds : list (nat * nat)) (i v : nat) : bool :=
  existsb (fun '(x, y) => ((x =? i) && (y =? v) || (x =? v) && (y =? i))%nat)
          bonds.

(** The center: the first atom of the quadruple "whose neighborhood within
    the quadruple has cardinality 3" in the bond graph. *)
Definition spec_center (bonds : list (nat * nat)) (impr : list nat)
  : option nat :=
  find (fun i =>
          (List.length (nodup Nat.eq_dec (filter (bonded bonds i) impr))
           =? 3)%nat)
       impr.

(** Every key of the two improper tables is a 4-tuple. *)
Definition improper_keys_wf (prm : ParameterSet) : bool :=
  forallb (fun kv => (List.length (fst kv) =? 4)%nat) (improper_types prm)
  && forallb (fun kv => (List.length (fst kv) =? 4)%nat)
             (improper_periodic_types prm).

(** The resolution of one improper, in the words of the claim. *)
Definition spec_resolve_improper (mol : Molecule) (prm : ParameterSet)
    (impr : quad) : res improper_param :=
  ty <- types_of mol (quad_list impr) ;;
  match spec_scan prm ty with
  | Some r => Ok r
  | None =>
      match spec_center (mol_bonds mol) (quad_list impr) with
      | None => Raise RuntimeError
      | Some _ =>
          match relocated_type mol (quad_list impr) with
          | Raise _ => Raise RuntimeError
          | Ok ty' =>
              match spec_scan prm ty' with
              | Some r => Ok r
              | None => Raise RuntimeError
              end
          end
      end
  end.

(** The tuple is in ascending alphabetical order. *)
Fixpoint ascending (l : list string) : bool :=
  match l with
  | x :: ((y :: _) as r) => String.leb x y && ascending r
  | _ => true
  end.

(** ** A planar center: one atom bonded to the three others

    The center C is stored first in the improper (as AMBER may do), the
    table holds the key with the center in third place. *)
Definition ex2_mol : Molecule :=
  mk_Molecule ["C"; "H"; "N"; "O"]%string [0; 0; 0; 0]
    [(0, 1); (0, 2); (0, 3)]%nat [] [] [(0, 1, 2, 3)]%nat.

Definition ex2_prm : ParameterSet :=
  mk_ParameterSet
    [("C"%string, mk_AtomType 1 1 1 1 []); ("H"%string, mk_AtomType 1 1 1 1 []);
     ("N"%string, mk_AtomType 1 1 1 1 []); ("O"%string, mk_AtomType 1 1 1 1 [])]
    [(["C"; "H"]%string, mk_BondType 1 1); (["C"; "N"]%string, mk_BondType 1 1);
     (["C"; "O"]%string, mk_BondType 1 1)]
    []
    []
    [(["X"; "X"; "C"; "O"]%string, mk_ImproperType 10 180)]
    [(["H"; "N"; "C"; "O"]%string, mk_DihedralType 1 180 2 1 1)]
    [].

(** ** Repeated dihedrals *)

(** The molecule with another dihedral list. *)
Definition with_dihedrals (mol : Molecule) (ds : list quad) : Molecule :=
  mk_Molecule (atomtype mol) (mol_charge mol) (mol_bonds mol)
    (mol_angles mol) ds (mol_impropers mol).

(** The arrays of [init] with other dihedral arrays. *)
Definition set_dihedrals (tp : topo) (ds : list quad)
    (ps : list (list (option R))) : topo :=
  mk_topo (typeint tp) (excl tp) (nbfix tp) (sigma tp) (sigma14 tp)
    (epsilon tp) (epsilon14 tp) (s14a tp) (e14a tp) (s14v tp) (e14v tp)
    (bonda tp) (bondv tp) (ELEC_FACTOR tp) (charge tp) (angles tp)
    (angle_params tp) ds ps (impropers tp) (improper_params tp).

(** The arguments of an evaluation with other arrays of [init]. *)
Definition with_topo (a : ffargs) (tp : topo) : ffargs :=
  mk_ffargs tp (set1 a) (set2 a) (cutoff a) (rfa a) (solventDielectric a).

(** The quadruples paired with their rows, as the loop reads them. *)
Definition rows_of (qs : list quad) (ps : list (list (option R)))
  : list (quad * list (option R)) :=
  map (fun i => (nth i qs (0, 0, 0, 0)%nat, nth i ps [])) (seq 0 (List.length qs)).

(** ** Four atoms with one dihedral and no bonds

    Atoms at (1,0,0), (0,0,0), (0,1,0) and (-1,0,0): the atoms 0, 1 and 3
    are on a line. *)
Definition ex3_mol : Molecule :=
  mk_Molecule ["C"; "C"; "C"; "C"]%string [1; 1; 1; 1] [] []
    [(0, 1, 2, 3)]%nat [].

Definition ex3_coords : ndarray3 :=
  mk_ndarray3 4 3 1
    (fun i k _ =>
       match i, k with
       | 0%nat, 0%nat => 1
       | 2%nat, 1%nat => 1
       | 3%nat, 0%nat => -1
       | _, _ => 0
       end).

(** The arrays [init] builds for these four atoms, and for the same
    atoms with the repeated dihedral (0, 1, 3, 2) added. *)
Definition ex3_topo : topo :=
  mk_topo
    [0; 0; 0; 0]%nat
    [[-1]; [-1]; [-1]; [-1]]%Z
    []
    [1] [1] [1] [1]
    [[3]; [-1]; [-1]; [-1]]%Z
    [[3]; [-1]; [-1]; [-1]]%Z
    [[Some 2]; [None]; [None]; [None]]
    [[Some 2]; [None]; [None]; [None]]
    [[-1]; [-1]; [-1]; [-1]]%Z
    [[None]; [None]; [None]; [None]]
    ELEC_FACTOR_value
    [1; 1; 1; 1]
    [] []
    [(0, 1, 2, 3)]%nat
    [[Some 1; Some (radians 0); Some 1]]
    []
    [].

Definition ex3_topo_dup : topo :=
  set_dihedrals ex3_topo [(0, 1, 2, 3); (0, 1, 3, 2)]%nat
    [[Some 1; Some (radians 0); Some 1]; [None; None; None]].

(** [coords[q, :, f]]: the positions of the four atoms of a quadruple. *)
Definition quad_pos (coords : ndarray3) (q : quad) (f : nat)
  : vec3 * vec3 * vec3 * vec3 :=
  let '(i0, i1, i2, i3) := q in
  (atom_pos coords i0 f, atom_pos coords i1 f,
   atom_pos coords i2 f, atom_pos coords i3 f).

(** The coordinates of the chain as the caller's array of shape (4, 3),
    alone in the heap. *)
Definition ex_heap : heap := [[1; 0; 0; 0; 0; 0; 0; 1; 0; 0; 1; 1]].
Definition ex_coords2d : ndarray := mk_ndarray 0 [4; 3]%nat.

(** ** Reading [_insets] by first hits *)

(** The first entry of [s] that is one of the two atoms [i], [j]: where
    each of the two loops of [_insets] breaks. *)
Definition first_hit (s : list Z) (i j : Z) : option Z :=
  find (fun x => (x =? i)%Z || (x =? j)%Z) s.

(** ** Atom indexes of a molecule *)

(** Every atom index of the bonds is below [n]. *)
Definition bonds_in_range (n : nat) (bonds : list (nat * nat)) : bool :=
  forallb (fun '(b0, b1) => (b0 <? n) && (b1 <? n))%nat bonds.

(** Every atom index of a quadruple is below [n]. *)
Definition quad_lt (n : nat) (q : quad) : bool :=
  let '(i0, i1, i2, i3) := q in
  ((i0 <? n) && (i1 <? n) && (i2 <? n) && (i3 <? n))%nat.

(** ** The bond rows built by [init] *)

(** The lists [bond_pairs] and [bond_params] go together: row [k] of
    [bond_params] holds two values for every entry of row [k] of
    [bond_pairs], the force constant and the length of the bond type of a
    bond of [bonds] between [k] and that entry. *)
Definition bond_rows_ok (ats : list string) (prm : ParameterSet)
    (bonds : list (nat * nat)) (pairs : list (list nat))
    (params : list (list R)) : Prop :=
  forall k,
    List.length (nth k params []) = (2 * List.length (nth k pairs []))%nat
    /\ forall e v, nth_error (nth k pairs []) e = Some v ->
         exists b0 b1 ts bt,
           In (b0, b1) bonds /\ Nat.min b0 b1 = k /\ Nat.max b0 b1 = v
           /\ types_at ats [b0; b1] = Ok ts
           /\ lookup ts (bond_types prm) = Some bt
           /\ nth_error (nth k params []) (2 * e) = Some (bt_k bt)
           /\ nth_error (nth k params []) (2 * e + 1) = Some (bt_req bt).

(** ** Moving the coordinates *)

(** The coordinates with every atom moved by the vector [t], in every
    frame. *)
Definition translate (t : vec3) (coords : ndarray3) : ndarray3 :=
  let '(t0, t1, t2) := t in
  mk_ndarray3 (shape0 coords) (shape1 coords) (shape2 coords)
    (fun i k f =>
       at3 coords i k f
       + match k with 0%nat => t0 | 1%nat => t1 | _ => t2 end).

(** The four positions of a torsion moved by [t]. *)
Definition shift4 (t : vec3) (pos : vec3 * vec3 * vec3 * vec3)
  : vec3 * vec3 * vec3 * vec3 :=
  let '(p0, p1, p2, p3) := pos in (vadd p0 t, vadd p1 t, vadd p2 t, vadd p3 t).

(** ** [formatEnergies] and [calculateEnergies] *)

(** A value of the dictionary of [formatEnergies]: [energies.squeeze()]
    drops the frame axis of an array of one frame, so that a row of it is
    a number; for any other number of frames a row is an array with one
    number per frame. *)
Inductive energy_value : Type :=
| Number (x : R)
| PerFrame (xs : list R).

(** [energies.squeeze()[k]] for the row [k] of the energy term [t], and
    [energies.squeeze().sum(axis=0)]; the array [energies] of shape
    (6, nframes) is given by its columns. *)
Definition squeezed_row (t : term) (energies : list nrg) : energy_value :=
  match energies with
  | [e] => Number (nrg_get t e)
  | _ => PerFrame (map (nrg_get t) energies)
  end.
Definition squeezed_sum (energies : list nrg) : energy_value :=
  match energies with
  | [e] => Number (nrg_sum e)
  | _ => PerFrame (map nrg_sum energies)
  end.

(** [FFEvaluate.formatEnergies]: the dictionary, in the order of its
    keys. *)
Definition formatEnergies (energies : list nrg)
  : list (string * energy_value) :=
  [ ("angle"%string, squeezed_row Angle energies);
    ("bond"%string, squeezed_row Bond energies);
    ("dihedral"%string, squeezed_row Dihedral energies);
    ("elec"%string, squeezed_row Elec energies);
    ("improper"%string, squeezed_row Improper energies);
    ("vdw"%string, squeezed_row LJ energies);
    ("total"%string, squeezed_sum energies) ].

(** What [calculateEnergies] returns: the dictionary, or the array. *)
Inductive energies_result : Type :=
| Formatted (d : list (string * energy_value))
| Unformatted (energies : list nrg).

(** [FFEvaluate.calculateEnergies] *)
Definition calculateEnergies (nu : numbautil) (self : ffargs)
    (coords : ndarray) (box : option ndarray) (formatted : bool) (h : heap)
  : heap * res energies_result :=
  let '(h, r) := calculate nu self coords box h in
  (h, res <- r ;;
      let energies := map energies res in
      if formatted then Ok (Formatted (formatEnergies energies))
      else Ok (Unformatted energies)).

(** The entry of the key [k] of the dictionary [d] for the frame [f]. *)
Definition entry_at (d : list (string * energy_value)) (k : string) (f : nat)
  : option R :=
  match lookup_str k d with
  | Some (Number x) => if (f =? 0)%nat then Some x else None
  | Some (PerFrame xs) => nth_error xs f
  | None => None
  end.

(** The key of the dictionary for an energy term. *)
Definition term_key (t : term) : string :=
  match t with
  | Bond => "bond" | LJ => "vdw" | Elec => "elec"
  | Angle => "angle" | Dihedral => "dihedral" | Improper => "improper"
  end.

(** ** [loadParameters] *)

Fixpoint prefixb (p l : list ascii) : bool :=
  match p, l with
  | [], _ => true
  | a :: p', b :: l' => Ascii.eqb a b && prefixb p' l'
  | _ :: _, [] => false
  end.

(** [s.endswith(suffix)] *)
Definition endswith (s suffix : string) : bool :=
  prefixb (rev (list_ascii_of_string suffix)) (rev (list_ascii_of_string s)).

Section LoadParameters.

(** The readers of parmed, the upstream parameter library: parameters of
    the model.  A reader returns an object or raises. *)
Variable AmberStructure : Type.
Variable CharmmParameterSet : string -> res ParameterSet.
Variable AmberParm : string -> res AmberStructure.
Variable AmberParameterSet_from_structure : AmberStructure -> res ParameterSet.
Variable AmberParameterSet : string -> res ParameterSet.

(** [struct.cmaps = TrackedList(); struct.cmap_types = TrackedList()] *)
Variable clear_cmaps : AmberStructure -> AmberStructure.

(** [loadParameters]; the two messages printed when a reader of the
    [.prm] branch fails are not part of the result and are left out. *)
Definition loadParameters (fname : string) : res ParameterSet :=
  prm <-
    (if endswith fname ".prm" then
       match CharmmParameterSet fname with
       | Ok prm => Ok (Some prm)
       | Raise _ =>
           match (struct <- AmberParm fname ;;
                  AmberParameterSet_from_structure struct) with
           | Ok prm => Ok (Some prm)
           | Raise _ => Ok None
           end
       end
     else if endswith fname ".prmtop" then
       struct <- AmberParm fname ;;
       prm <- AmberParameterSet_from_structure (clear_cmaps struct) ;;
       Ok (Some prm)
     else if endswith fname ".frcmod" then
       prm <- AmberParameterSet fname ;; Ok (Some prm)
     else Ok None) ;;
  match prm with
  | None => Raise RuntimeError
  | Some prm => Ok prm
  end.

End LoadParameters.

(** ** The parameter rows read by [_evaluate_torsion] *)

(** The three entries [init] appends to a row for one parameter of a
    dihedral type: [phi_k, radians(phase), per]. *)
Definition dihedral_triple (dip : DihedralType) : list R :=
  [phi_k dip; radians (phase dip); per dip].

(** The energy of one parameter at the angle [phi], and its derivative:
    periodic for a positive periodicity, harmonic on the wrapped difference
    otherwise. *)
Definition dihedral_term (phi : R) (dip : DihedralType) : R * R :=
  let phi0 := radians (phase dip) in
  if Rgt_dec (per dip) 0 then
    (phi_k dip * (1 + cos (per dip * phi - phi0)),
     - per dip * phi_k dip * sin (per dip * phi - phi0))
  else
    let diff := wrap_diff (phi - phi0) in
    (phi_k dip * diff ^ 2, 2 * phi_k dip * diff).

(** The energies and the derivatives of the parameters, added up in the
    order of the row. *)
Definition dihedral_terms (phi : R) (dps : list DihedralType) (pc : R * R)
  : R * R :=
  fold_left (fun pc dip =>
               (fst pc + fst (dihedral_term phi dip),
                snd pc + snd (dihedral_term phi dip)))
            dps pc.

(** ** The 1-4 rows built by [init] *)

(** [sorted([dihed[0], dihed[3]])] *)
Definition quad_ends (d : quad) : nat * nat :=
  let '(d0, _, _, d3) := d in (Nat.min d0 d3, Nat.max d0 d3).

(** A list of 1-4 atoms and its list of values go together: row [k] of
    the values holds, for every entry of row [k] of the atoms, the value
    [f] of the first parameter of the dihedral type found for a dihedral
    of [diheds] whose ends are [k] and that entry. *)
Definition rows14_ok (ats : list string) (prm : ParameterSet)
    (diheds : list quad) (f : DihedralType -> R)
    (atoms : list (list nat)) (values : list (list R)) : Prop :=
  forall k,
    List.length (nth k values []) = List.length (nth k atoms [])
    /\ forall e v, nth_error (nth k atoms []) e = Some v ->
         exists d ty dip rest,
           In d diheds /\ quad_ends d = (k, v)
           /\ types_at ats (quad_list d) = Ok ty
           /\ dihedral_lookup prm ty = Ok (dip :: rest)
           /\ nth_error (nth k values []) e = Some (f dip).

(** * Properties *)

(** ** The result monad and the loops *)

Lemma bind_Ok {A B : Type} (m : res A) (k : A -> res B) (b : B) :
  bind m k = Ok b -> exists x, m = Ok x /\ k x = Ok b.
Proof.
  destruct m as [x|e]; simpl; intros H; [eauto | discriminate].
Qed.

Lemma forM_invariant {A S : Type} (P : S -> Prop) (Q : A -> Prop)
    (body : A -> S -> res S) (xs : list A) :
  (forall x st st', Q x -> P st -> body x st = Ok st' -> P st') ->
  Forall Q xs ->
  forall st st', P st -> forM xs body st = Ok st' -> P st'.
Proof.
  intros Hbody HQ. induction HQ as [|x r Hx Hr IH]; simpl; intros st st' HP H.
  - injection H as <-. exact HP.
  - apply bind_Ok in H as (st1 & H1 & H2). eauto.
Qed.

Lemma forM_app {A S : Type} (body : A -> S -> res S) (xs ys : list A) (st : S) :
  forM (xs ++ ys) body st = (st' <- forM xs body st ;; forM ys body st').
Proof.
  revert st. induction xs as [|x r IH]; simpl; intros st; [reflexivity|].
  destruct (body x st); simpl; auto.
Qed.

Lemma mapM_length {A B : Type} (g : A -> res B) (xs : list A) (ys : list B) :
  mapM g xs = Ok ys -> List.length ys = List.length xs.
Proof.
  revert ys. induction xs as [|x r IH]; simpl; intros ys H.
  - injection H as <-. reflexivity.
  - apply bind_Ok in H as (y & _ & H). apply bind_Ok in H as (zs & Hz & H).
    injection H as <-. simpl. f_equal. auto.
Qed.

Lemma mapM_nth_error {A B : Type} (g : A -> res B) (xs : list A) (ys : list B) :
  mapM g xs = Ok ys ->
  forall n y, nth_error ys n = Some y ->
  exists x, nth_error xs n = Some x /\ g x = Ok y.
Proof.
  revert ys. induction xs as [|x r IH]; simpl; intros ys H n y Hn.
  - injection H as <-. destruct n; discriminate.
  - apply bind_Ok in H as (y0 & Hy0 & H). apply bind_Ok in H as (zs & Hz & H).
    injection H as <-. destruct n as [|n]; simpl in *.
    + injection Hn as <-. eauto.
    + eauto.
Qed.

Lemma fdiv_Ok (x y q : R) : fdiv x y = Ok q -> y <> 0 /\ q = x / y.
Proof.
  unfold fdiv. destruct (Req_EM_T y 0); [discriminate|].
  intros H. injection H as <-. auto.
Qed.

Lemma fdiv_nonzero (x y : R) : y <> 0 -> fdiv x y = Ok (x / y).
Proof.
  intros H. unfold fdiv. destruct (Req_EM_T y 0); [contradiction|reflexivity].
Qed.

Lemma fdiv_zero (x : R) : fdiv x 0 = Raise ZeroDivisionError.
Proof.
  unfold fdiv. destruct (Req_EM_T 0 0); [reflexivity|contradiction].
Qed.

(** ** Vectors and accumulators *)

Lemma vec3_eq (a0 a1 a2 b0 b1 b2 : R) :
  a0 = b0 -> a1 = b1 -> a2 = b2 -> (a0, a1, a2) = (b0, b1, b2).
Proof. intros -> -> ->. reflexivity. Qed.

Ltac vec_crush :=
  repeat match goal with
         | v : vec3 |- _ => destruct v as [[? ?] ?]
         end;
  unfold vadd, vsub, vscale, vopp, vzero in *; simpl in *;
  try (apply vec3_eq; lra).

Lemma vadd_zero_r (v : vec3) : vadd v vzero = v.
Proof. vec_crush. Qed.

Lemma vadd_assoc_swap (u v w : vec3) : vadd (vadd u v) w = vadd (vadd u w) v.
Proof. vec_crush. Qed.

Lemma list_upd_length {A : Type} (i : nat) (g : A -> A) (l : list A) :
  List.length (list_upd i g l) = List.length l.
Proof.
  revert i. induction l as [|x r IH]; intros [|i]; simpl; auto.
Qed.

Lemma list_upd_id {A : Type} (i : nat) (g : A -> A) (l : list A) :
  (forall x, g x = x) -> list_upd i g l = l.
Proof.
  intros Hg. revert i. induction l as [|x r IH]; intros [|i]; simpl;
    rewrite ?Hg, ?IH; auto.
Qed.

Lemma vsum_upd_add (i : nat) (v : vec3) (l : list vec3) :
  (i < List.length l)%nat ->
  vsum (list_upd i (fun w => vadd w v) l) = vadd (vsum l) v.
Proof.
  revert i. induction l as [|x r IH]; intros [|i] Hi; simpl in *; try lia.
  - generalize (vsum r). intros s. vec_crush.
  - rewrite IH by lia. generalize (vsum r). intros s. vec_crush.
Qed.

Lemma vsum_upd_sub (i : nat) (v : vec3) (l : list vec3) :
  (i < List.length l)%nat ->
  vsum (list_upd i (fun w => vsub w v) l) = vsub (vsum l) v.
Proof.
  revert i. induction l as [|x r IH]; intros [|i] Hi; simpl in *; try lia.
  - generalize (vsum r). intros s. vec_crush.
  - rewrite IH by lia. generalize (vsum r). intros s. vec_crush.
Qed.

Lemma nrg_sum_add (t : term) (v : R) (e : nrg) :
  nrg_sum (nrg_add t v e) = nrg_sum e + v.
Proof. destruct t; unfold nrg_sum; simpl; lra. Qed.

Lemma atmnrg_sum_upd (i : nat) (t : term) (v : R) (l : list nrg) :
  (i < List.length l)%nat ->
  atmnrg_sum (list_upd i (nrg_add t v) l) = atmnrg_sum l + v.
Proof.
  unfold atmnrg_sum.
  revert i. induction l as [|x r IH]; intros [|i] Hi; simpl in *; try lia.
  - rewrite nrg_sum_add. lra.
  - rewrite IH by lia. lra.
Qed.

Lemma vsum_repeat_zero (n : nat) : vsum (repeat vzero n) = vzero.
Proof.
  induction n as [|n IH]; simpl; [reflexivity|]. rewrite IH. vec_crush.
Qed.

Lemma atmnrg_sum_repeat_zero (n : nat) : atmnrg_sum (repeat nrg_zero n) = 0.
Proof.
  unfold atmnrg_sum. induction n as [|n IH]; simpl; [reflexivity|].
  rewrite IH. unfold nrg_sum. simpl. lra.
Qed.

Lemma shaped_add_energy n t v st : shaped n st -> shaped n (add_energy t v st).
Proof. unfold shaped; simpl; auto. Qed.
Lemma shaped_add_force n i v st : shaped n st -> shaped n (add_force i v st).
Proof. unfold shaped; simpl; rewrite list_upd_length; auto. Qed.
Lemma shaped_sub_force n i v st : shaped n st -> shaped n (sub_force i v st).
Proof. unfold shaped; simpl; rewrite list_upd_length; auto. Qed.
Lemma shaped_add_atmnrg n i t v st :
  shaped n st -> shaped n (add_atmnrg i t v st).
Proof. unfold shaped; simpl; rewrite list_upd_length; auto. Qed.

Create HintDb shaped.
#[local] Hint Resolve shaped_add_energy shaped_add_force shaped_sub_force
  shaped_add_atmnrg : shaped.

Lemma gap_add_energy t v st : gap (add_energy t v st) = gap st + v.
Proof. unfold gap; simpl. rewrite nrg_sum_add. lra. Qed.
Lemma gap_add_force i v st : gap (add_force i v st) = gap st.
Proof. reflexivity. Qed.
Lemma gap_sub_force i v st : gap (sub_force i v st) = gap st.
Proof. reflexivity. Qed.
Lemma gap_add_atmnrg n i t v st :
  shaped n st -> (i < n)%nat -> gap (add_atmnrg i t v st) = gap st - v.
Proof.
  intros [_ Hl] Hi. unfold gap; simpl. rewrite atmnrg_sum_upd by lia. lra.
Qed.

Lemma ftot_add_energy t v st : ftot (add_energy t v st) = ftot st.
Proof. reflexivity. Qed.
Lemma ftot_add_atmnrg i t v st : ftot (add_atmnrg i t v st) = ftot st.
Proof. reflexivity. Qed.
Lemma ftot_add_force n i v st :
  shaped n st -> (i < n)%nat -> ftot (add_force i v st) = vadd (ftot st) v.
Proof. intros [Hl _] Hi. unfold ftot; simpl. apply vsum_upd_add. lia. Qed.
Lemma ftot_sub_force n i v st :
  shaped n st -> (i < n)%nat -> ftot (sub_force i v st) = vsub (ftot st) v.
Proof. intros [Hl _] Hi. unfold ftot; simpl. apply vsum_upd_sub. lia. Qed.

(** ** Energy decomposition and total force: the frame invariant *)

Ltac bind_inv H :=
  let x := fresh "x" in
  let Hx := fresh "Hx" in
  apply bind_Ok in H as (x & Hx & H).

Ltac acc_rewrite n :=
  repeat first
    [ rewrite gap_add_energy
    | rewrite gap_add_force
    | rewrite gap_sub_force
    | rewrite (gap_add_atmnrg n) by (auto 20 with shaped)
    | rewrite ftot_add_energy
    | rewrite ftot_add_atmnrg
    | rewrite (ftot_add_force n) by (auto 20 with shaped)
    | rewrite (ftot_sub_force n) by (auto 20 with shaped) ].

Lemma acc_zero_balanced (n : nat) : balanced n (acc_zero n).
Proof.
  unfold balanced, shaped, gap, ftot, acc_zero; simpl.
  rewrite !repeat_length, vsum_repeat_zero, atmnrg_sum_repeat_zero.
  unfold nrg_sum; simpl. repeat split; auto. lra.
Qed.

Lemma pair_body_balanced nu coords box a n f i j st st' :
  (i < n)%nat -> (j < n)%nat -> balanced n st ->
  pair_body nu coords box a f i j st = Ok st' -> balanced n st'.
Proof.
  intros Hi Hj (Hs & Hg & Hf) H. unfold pair_body in H.
  assert (Hst : balanced n st) by (repeat split; auto; apply Hs).
  destruct (usersets a && negb _); [injection H as <-; exact Hst|].
  destruct (_ispaired (excl a) i j) eqn:Hex;
  destruct (_ispaired (bonda a) i j) eqn:Hbo; cbn [andb negb] in H;
    try (injection H as <-; exact Hst).
  all: destruct (beyond_cutoff _ _); [injection H as <-; exact Hst|].
  all: repeat (bind_inv H;
               match goal with
               | x : (R * R)%type |- _ => destruct x as [? ?]
               end).
  all: repeat match goal with
              | E : Ok _ = Ok _ |- _ => injection E as <- <-
              end.
  all: destruct (unitvec _ _) as [u|]; [|discriminate].
  all: injection H as <-.
  all: split; [auto 20 with shaped | split].
  all: acc_rewrite n; try (rewrite Hg; lra).
  all: rewrite Hf; vec_crush.
Qed.

Lemma seq_Forall_lt (s n : nat) :
  Forall (fun i => (s <= i < s + n)%nat) (seq s n).
Proof. apply Forall_forall. intros i Hi. apply in_seq in Hi. lia. Qed.

Lemma forM_seq_invariant {S : Type} (P : S -> Prop) (body : nat -> S -> res S)
    (s n : nat) :
  (forall i st st', (s <= i < s + n)%nat -> P st -> body i st = Ok st' -> P st') ->
  forall st st', P st -> forM (seq s n) body st = Ok st' -> P st'.
Proof.
  intros Hbody.
  exact (forM_invariant P _ body (seq s n) Hbody (seq_Forall_lt s n)).
Qed.

Lemma pair_loop_balanced nu coords box a f st st' :
  balanced (natoms coords) st ->
  pair_loop nu coords box a f st = Ok st' -> balanced (natoms coords) st'.
Proof.
  unfold pair_loop. apply forM_seq_invariant.
  intros i s1 s2 Hi. apply forM_seq_invariant.
  intros j s3 s4 Hj. apply pair_body_balanced; lia.
Qed.

Lemma _evaluate_angles_cancel nu pos prm bx pot f0 f1 f2 :
  _evaluate_angles nu pos prm bx = Ok (pot, (f0, f1, f2)) ->
  vadd (vadd f0 f1) f2 = vzero.
Proof.
  unfold _evaluate_angles. destruct prm as [k0 theta0].
  destruct pos as [[p0 p1] p2].
  destruct (wrap3 _ p2 p1 bx) as [[a0 a1] a2].
  destruct (wrap3 _ p0 p1 bx) as [[b0 b1] b2].
  intros H. bind_inv H. bind_inv H. injection H as _ <- <- <-.
  unfold vadd, vzero. apply vec3_eq; lra.
Qed.

Lemma _evaluate_torsion_cancel nu pos tp bx pot f0 f1 f2 f3 :
  _evaluate_torsion nu pos tp bx = Ok (pot, (f0, f1, f2, f3)) ->
  vadd (vadd (vadd f0 f1) f2) f3 = vzero.
Proof.
  unfold _evaluate_torsion. intros H.
  bind_inv H. destruct x as [[[phi r12] r23] r34].
  bind_inv H. destruct x as [p c].
  do 4 bind_inv H. injection H as _ <- <- <- <-.
  generalize (vscale x (cross r12 r23)) (vscale x0 (cross r23 r34)).
  intros u v. destruct u as [[u0 u1] u2], v as [[v0 v1] v2].
  unfold vadd, vsub, vscale, vzero. apply vec3_eq; lra.
Qed.

Lemma angle_body_balanced nu coords box a n f i st st' :
  topology_in_range n a = true -> (i < List.length (angles a))%nat ->
  balanced n st ->
  angle_body nu coords box a f i st = Ok st' -> balanced n st'.
Proof.
  intros Hwf Hi (Hs & Hg & Hf) H. unfold angle_body in H.
  unfold topology_in_range in Hwf.
  apply andb_prop in Hwf as [Hwf _]. apply andb_prop in Hwf as [Hwf _].
  rewrite forallb_forall in Hwf.
  specialize (Hwf _ (nth_In (angles a) (0, 0, 0)%nat Hi)).
  destruct (nth i (angles a) _) as [[i0 i1] i2].
  apply andb_prop in Hwf as [Hwf H2]. apply andb_prop in Hwf as [H0 H1].
  apply Nat.ltb_lt in H0, H1, H2.
  bind_inv H. destruct x as [pot [[f0 f1] f2]].
  apply _evaluate_angles_cancel in Hx.
  injection H as <-.
  split; [auto 20 with shaped | split].
  - acc_rewrite n. lra.
  - acc_rewrite n. rewrite Hf. vec_crush.
    injection Hx as E0 E1 E2. apply vec3_eq; lra.
Qed.

Lemma torsion_body_balanced nu coords box n t quads params f i st st' :
  forallb (fun '(i0, i1, i2, i3) =>
             (i0 <? n) && (i1 <? n) && (i2 <? n) && (i3 <? n))%nat quads = true ->
  (i < List.length quads)%nat ->
  balanced n st ->
  torsion_body nu coords box t quads params f i st = Ok st' -> balanced n st'.
Proof.
  intros Hwf Hi (Hs & Hg & Hf) H. unfold torsion_body, torsion_step in H.
  rewrite forallb_forall in Hwf.
  specialize (Hwf _ (nth_In quads (0, 0, 0, 0)%nat Hi)).
  destruct (nth i quads _) as [[[i0 i1] i2] i3].
  apply andb_prop in Hwf as [Hwf H3]. apply andb_prop in Hwf as [Hwf H2].
  apply andb_prop in Hwf as [H0 H1].
  apply Nat.ltb_lt in H0, H1, H2, H3.
  bind_inv H. destruct x as [pot [[[f0 f1] f2] f3]].
  apply _evaluate_torsion_cancel in Hx.
  injection H as <-.
  split; [auto 20 with shaped | split].
  - acc_rewrite n. lra.
  - acc_rewrite n. rewrite Hf. vec_crush.
    injection Hx as E0 E1 E2. apply vec3_eq; lra.
Qed.

Lemma frame_eval_balanced nu coords box a f st :
  topology_in_range (natoms coords) a = true ->
  frame_eval nu coords box a f = Ok st -> balanced (natoms coords) st.
Proof.
  intros Hwf H. unfold frame_eval in H.
  bind_inv H. apply pair_loop_balanced in Hx; [|apply acc_zero_balanced].
  destruct (usersets a); [injection H as <-; exact Hx|].
  pose proof Hwf as Hwf'. unfold topology_in_range in Hwf'.
  apply andb_prop in Hwf' as [Hwf' Him]. apply andb_prop in Hwf' as [_ Hdi].
  bind_inv H.
  apply (forM_seq_invariant (balanced (natoms coords))) in Hx0; [ | | exact Hx].
  2: { intros i s1 s2 Hi. apply angle_body_balanced; [exact Hwf | lia]. }
  bind_inv H.
  apply (forM_seq_invariant (balanced (natoms coords))) in Hx1; [ | | exact Hx0].
  2: { intros i s1 s2 Hi. apply torsion_body_balanced; [exact Hdi | lia]. }
  apply (forM_seq_invariant (balanced (natoms coords))) in H; [exact H | | exact Hx1].
  intros i s1 s2 Hi. apply torsion_body_balanced; [exact Him | lia].
Qed.

Lemma _ffevaluate_balanced nu coords box a r :
  topology_in_range (natoms coords) a = true ->
  _ffevaluate nu coords box a = Ok r ->
  List.length r = nframes coords /\
  forall f st, nth_error r f = Some st -> balanced (natoms coords) st.
Proof.
  intros Hwf H. unfold _ffevaluate in H. split.
  - apply mapM_length in H. rewrite H. apply length_seq.
  - intros f st Hf.
    destruct (mapM_nth_error _ _ _ H f st Hf) as (f' & _ & Hev).
    eapply frame_eval_balanced; eauto.
Qed.

(** C1.  Energy decomposition consistency: whenever [_ffevaluate] returns,
    it returns one accumulator per frame, and in every frame [f] the sum of
    the six components [energies[:, f]] equals the sum over all atoms and
    all six components of [atmnrg[:, :, f]].  The topology indexes are
    atom indexes (below [natoms]). *)
Theorem energy_decomposition_consistency nu coords box a r :
  topology_in_range (natoms coords) a = true ->
  _ffevaluate nu coords box a = Ok r ->
  List.length r = nframes coords /\
  forall f st, nth_error r f = Some st ->
    nrg_sum (energies st) = atmnrg_sum (atmnrg st).
Proof.
  intros Hwf H. destruct (_ffevaluate_balanced _ _ _ _ _ Hwf H) as [Hlen Hb].
  split; [exact Hlen|]. intros f st Hf.
  destruct (Hb f st Hf) as (_ & Hg & _). unfold gap in Hg. lra.
Qed.

(** C2.  Newton's third law: whenever [_ffevaluate] returns, in every frame
    [f] the sum of [forces[:, :, f]] over all atoms is the zero vector. *)
Theorem total_force_vanishes nu coords box a r :
  topology_in_range (natoms coords) a = true ->
  _ffevaluate nu coords box a = Ok r ->
  forall f st, nth_error r f = Some st ->
    List.length (forces st) = natoms coords /\ vsum (forces st) = vzero.
Proof.
  intros Hwf H f st Hf.
  destruct (_ffevaluate_balanced _ _ _ _ _ Hwf H) as [_ Hb].
  destruct (Hb f st Hf) as ((Hl & _) & _ & Hz). split; assumption.
Qed.

(** ** Excluded pairs *)

Lemma nrg_add_zero (t : term) (v : R) (e : nrg) : v = 0 -> nrg_add t v e = e.
Proof.
  intros ->. destruct e, t; unfold nrg_add; simpl; f_equal; lra.
Qed.

Lemma add_atmnrg_zero (i : nat) (t : term) (v : R) (st : acc) :
  v = 0 -> add_atmnrg i t v st = st.
Proof.
  intros Hv. destruct st as [e fo at']. unfold add_atmnrg; simpl. f_equal.
  apply list_upd_id. intros x. apply nrg_add_zero, Hv.
Qed.

Lemma add_energy_zero (t : term) (v : R) (st : acc) :
  v = 0 -> add_energy t v st = st.
Proof.
  intros Hv. destruct st as [e fo at']. unfold add_energy; simpl. f_equal.
  apply nrg_add_zero, Hv.
Qed.

Lemma add_force_zero (i : nat) (v : vec3) (st : acc) :
  v = vzero -> add_force i v st = st.
Proof.
  intros ->. destruct st as [e fo at']. unfold add_force; simpl. f_equal.
  apply list_upd_id. intros x. apply vadd_zero_r.
Qed.

(** C3.  A pair [i], [j] of the exclusion table: when it is not bonded the
    pair body leaves the accumulators as they are; when it is bonded, and
    neither the between-sets gate nor the cutoff skips it, the accumulators
    receive the harmonic bond term alone ([bond_only_update]): no LJ and no
    electrostatic term is evaluated. *)
Theorem excluded_pair_contribution nu coords box (a : ffargs) f i j st :
  _ispaired (excl a) i j = true ->
  pair_body nu coords box a f i j st =
    if _ispaired (bonda a) i j then
      if usersets a
         && negb (_insets (Z.of_nat i) (Z.of_nat j) (set1 a) (set2 a))
      then Ok st
      else if beyond_cutoff a (pair_dist nu coords box f i j) then Ok st
      else
        '(pot_bo, force_bo) <-
           _evaluate_harmonic_bonds i j (bonda a) (bondv a)
             (pair_dist nu coords box f i j) ;;
        match unitvec (pair_direction nu coords box f i j)
                      (pair_dist nu coords box f i j) with
        | None => Raise NotANumber
        | Some u => Ok (bond_only_update i j pot_bo force_bo u st)
        end
    else Ok st.
Proof.
  intros Hex. unfold pair_body. rewrite Hex.
  destruct (_ispaired (bonda a) i j); cbn [andb negb].
  - destruct (usersets a && negb _); [reflexivity|].
    destruct (beyond_cutoff a _); [reflexivity|].
    destruct (_evaluate_harmonic_bonds _ _ _ _ _) as [[pot_bo force_bo]|e];
      cbn [bind]; [|reflexivity].
    destruct (unitvec _ _) as [u|]; [|reflexivity].
    rewrite !(add_atmnrg_zero _ LJ), !(add_atmnrg_zero _ Elec) by lra.
    unfold bond_only_update. rewrite Rplus_0_l. reflexivity.
  - destruct (usersets a && negb _); reflexivity.
Qed.

(** ** Between-sets *)

Lemma insets_scan1_cases s i j :
  let r := insets_scan1 s i j 0 0 in
  r = (0, 0)%nat \/ (r = (1, 0)%nat /\ In i s) \/ (r = (0, 1)%nat /\ In j s).
Proof.
  induction s as [|x s IH]; simpl; [auto|].
  destruct (Z.eqb_spec x i) as [->|Hxi]; simpl; [auto|].
  destruct (Z.eqb_spec x j) as [->|Hxj]; [auto|].
  destruct IH as [IH|[[IH ?]|[IH ?]]]; rewrite IH; auto.
Qed.

Lemma insets_scan2_cases s i j a b :
  let r := insets_scan2 s i j a b in
  r = (a, b) \/ (r = (2%nat, b) /\ In i s) \/ (r = (a, 2%nat) /\ In j s).
Proof.
  induction s as [|x s IH]; simpl; [auto|].
  destruct (Z.eqb_spec x i) as [->|Hxi]; [auto|].
  destruct (Z.eqb_spec x j) as [->|Hxj]; [auto|].
  destruct IH as [IH|[[IH ?]|[IH ?]]]; rewrite IH; auto.
Qed.

Lemma insets_scan1_i s i j :
  In i s -> ~ In j s -> insets_scan1 s i j 0 0 = (1, 0)%nat.
Proof.
  induction s as [|x s IH]; simpl; [tauto|]. intros Hi Hj.
  destruct (Z.eqb_spec x i) as [->|Hxi]; simpl; [reflexivity|].
  destruct (Z.eqb_spec x j) as [->|Hxj]; [tauto|]. apply IH; tauto.
Qed.

Lemma insets_scan1_j s i j :
  In j s -> ~ In i s -> insets_scan1 s i j 0 0 = (0, 1)%nat.
Proof.
  induction s as [|x s IH]; simpl; [tauto|]. intros Hj Hi.
  destruct (Z.eqb_spec x i) as [->|Hxi]; simpl; [tauto|].
  destruct (Z.eqb_spec x j) as [->|Hxj]; [reflexivity|]. apply IH; tauto.
Qed.

Lemma insets_scan2_i s i j a b :
  In i s -> ~ In j s -> insets_scan2 s i j a b = (2%nat, b).
Proof.
  induction s as [|x s IH]; simpl; [tauto|]. intros Hi Hj.
  destruct (Z.eqb_spec x i) as [->|Hxi]; [reflexivity|].
  destruct (Z.eqb_spec x j) as [->|Hxj]; [tauto|]. apply IH; tauto.
Qed.

Lemma insets_scan2_j s i j a b :
  In j s -> ~ In i s -> insets_scan2 s i j a b = (a, 2%nat).
Proof.
  induction s as [|x s IH]; simpl; [tauto|]. intros Hj Hi.
  destruct (Z.eqb_spec x i) as [->|Hxi]; [tauto|].
  destruct (Z.eqb_spec x j) as [->|Hxj]; [reflexivity|]. apply IH; tauto.
Qed.

(** The scans after the swap that puts the shorter set first. *)
Lemma insets_ordered_sound s1 s2 i j :
  (let '(ifound, jfound) := insets_scan1 s1 i j 0 0 in
   if (ifound =? 0)%nat && (jfound =? 0)%nat then false
   else
     let '(ifound, jfound) := insets_scan2 s2 i j ifound jfound in
     if negb (ifound =? 0)%nat && negb (jfound =? 0)%nat
     then negb (ifound =? jfound)%nat
     else false) = true ->
  straddles i j s1 s2.
Proof.
  unfold straddles.
  destruct (insets_scan1_cases s1 i j) as [E|[[E H1]|[E H1]]];
    cbv zeta in E; rewrite E; simpl; try discriminate.
  - destruct (insets_scan2_cases s2 i j 1 0) as [E2|[[E2 H2]|[E2 H2]]];
      cbv zeta in E2; rewrite E2; simpl; try discriminate. auto.
  - destruct (insets_scan2_cases s2 i j 0 1) as [E2|[[E2 H2]|[E2 H2]]];
      cbv zeta in E2; rewrite E2; simpl; try discriminate. auto.
Qed.

Lemma straddles_sym i j A B : straddles i j A B <-> straddles i j B A.
Proof. unfold straddles. tauto. Qed.

Lemma _insets_sound i j A B : _insets i j A B = true -> straddles i j A B.
Proof.
  unfold _insets. destruct (List.length B <? List.length A)%nat; intros H.
  - apply straddles_sym. apply insets_ordered_sound. exact H.
  - apply insets_ordered_sound. exact H.
Qed.

Lemma insets_ordered_complete s1 s2 i j :
  (forall x, In x s1 -> In x s2 -> False) ->
  straddles i j s1 s2 ->
  (let '(ifound, jfound) := insets_scan1 s1 i j 0 0 in
   if (ifound =? 0)%nat && (jfound =? 0)%nat then false
   else
     let '(ifound, jfound) := insets_scan2 s2 i j ifound jfound in
     if negb (ifound =? 0)%nat && negb (jfound =? 0)%nat
     then negb (ifound =? jfound)%nat
     else false) = true.
Proof.
  intros Hd [[Hi Hj]|[Hi Hj]].
  - rewrite insets_scan1_i; eauto. simpl. rewrite insets_scan2_j; eauto.
  - rewrite insets_scan1_j; eauto. simpl. rewrite insets_scan2_i; eauto.
Qed.

Lemma _insets_complete i j A B :
  (forall x, In x A -> In x B -> False) ->
  straddles i j A B -> _insets i j A B = true.
Proof.
  intros Hd Hs. unfold _insets.
  destruct (List.length B <? List.length A)%nat.
  - apply insets_ordered_complete; [firstorder | apply straddles_sym, Hs].
  - apply insets_ordered_complete; assumption.
Qed.

Lemma usersets_true_iff (a : ffargs) :
  usersets a = true <-> set1 a <> [] \/ set2 a <> [].
Proof.
  unfold usersets. rewrite orb_true_iff, !Nat.ltb_lt.
  destruct (set1 a), (set2 a); simpl; split; intros [H|H];
    try lia; try congruence; auto; try (left; lia); try (right; lia);
    try (left; congruence); try (right; congruence).
Qed.

Lemma list_max_repeat_zero (n : nat) : list_max (repeat 0%nat n) = 0%nat.
Proof. induction n; simpl; auto. Qed.

Lemma int_array_empty_rows (n : nat) :
  Forall (eq [(-1)%Z]) (int_array (repeat [] n)).
Proof.
  unfold int_array, nestedListToArray. destruct n as [|n].
  - constructor; [reflexivity | constructor].
  - rewrite !map_repeat. cbn [map List.length].
    change (repeat [] (S n)) with (@nil Z :: repeat [] n).
    replace (list_max (repeat 0%nat (S n))) with 0%nat
      by (symmetry; apply list_max_repeat_zero).
    cbn [Nat.eqb]. apply Forall_forall. intros x Hx.
    apply repeat_spec in Hx. congruence.
Qed.

Lemma _ispaired_empty_rows (arr : list (list Z)) (i j : nat) :
  Forall (eq [(-1)%Z]) arr -> _ispaired arr i j = false.
Proof.
  intros H. unfold _ispaired.
  destruct (nth_in_or_default i arr []) as [Hin | E]; [|rewrite E; reflexivity].
  rewrite Forall_forall in H. rewrite <- (H _ Hin). reflexivity.
Qed.

Lemma init_no_topology types charges prm tp :
  init (mk_Molecule types charges [] [] [] []) prm = Ok tp ->
  bonda tp = int_array (repeat [] (List.length types))
  /\ angles tp = [] /\ dihedrals tp = [] /\ impropers tp = [].
Proof.
  unfold init, numAtoms. cbn [atomtype mol_charge mol_bonds mol_angles
    mol_dihedrals mol_impropers forM angle_loop dihedral_loop mapM bind].
  intros H. bind_inv H. bind_inv H. injection H as <-. simpl. auto.
Qed.

Lemma pair_body_bonded_zero nu coords box (a : ffargs) f i j st st' :
  _ispaired (bonda a) i j = false ->
  bonded_terms_zero (energies st) ->
  pair_body nu coords box a f i j st = Ok st' ->
  bonded_terms_zero (energies st').
Proof.
  intros Hbo Hz H. unfold pair_body in H. rewrite Hbo in H.
  destruct (usersets a && negb _); [injection H as <-; exact Hz|].
  destruct (_ispaired (excl a) i j); cbn [andb negb] in H;
    [injection H as <-; exact Hz|].
  destruct (beyond_cutoff _ _); [injection H as <-; exact Hz|].
  cbn [bind] in H.
  bind_inv H. destruct x as [pot_lj force_lj].
  bind_inv H. destruct x as [pot_el force_el].
  destruct (unitvec _ _); [|discriminate]. injection H as <-.
  exact Hz.
Qed.

Lemma frame_eval_bonded_zero nu coords box (a : ffargs) f st :
  (forall i j, _ispaired (bonda a) i j = false) ->
  angles a = [] -> dihedrals a = [] -> impropers a = [] ->
  frame_eval nu coords box a f = Ok st ->
  bonded_terms_zero (energies st).
Proof.
  intros Hbo Han Hdi Him H. unfold frame_eval in H.
  rewrite Han, Hdi, Him in H. cbn [List.length seq forM bind] in H.
  bind_inv H.
  assert (Hz : bonded_terms_zero (energies x)).
  { unfold pair_loop in Hx.
    revert Hx. apply (forM_seq_invariant (fun s => bonded_terms_zero (energies s))).
    - intros i s1 s2 _.
      apply (forM_seq_invariant (fun s => bonded_terms_zero (energies s))).
      intros j s3 s4 _. apply pair_body_bonded_zero, Hbo.
    - unfold bonded_terms_zero; simpl; auto. }
  destruct (usersets a); injection H as <-; exact Hz.
Qed.

(** ** Evaluating the kernels on the example chain *)

Lemma defined_Ok {A : Type} (x : A) : defined (Ok x).
Proof. exists x. reflexivity. Qed.

Lemma defined_bind {A B : Type} (m : res A) (k : A -> res B) :
  defined m -> (forall x, m = Ok x -> defined (k x)) -> defined (bind m k).
Proof. intros [x ->] Hk. simpl. apply Hk. reflexivity. Qed.

Lemma forM_defined {A S : Type} (body : A -> S -> res S) (xs : list A) :
  Forall (fun x => forall st, defined (body x st)) xs ->
  forall st, defined (forM xs body st).
Proof.
  induction 1 as [|x r Hx Hr IH]; simpl; intros st.
  - apply defined_Ok.
  - apply defined_bind; [apply Hx | intros; apply IH].
Qed.

Lemma mapM_defined {A B : Type} (g : A -> res B) (xs : list A) :
  Forall (fun x => defined (g x)) xs -> defined (mapM g xs).
Proof.
  induction 1 as [|x r Hx Hr IH]; simpl.
  - apply defined_Ok.
  - apply defined_bind; [exact Hx | intros y _].
    apply defined_bind; [exact IH | intros ys _]. apply defined_Ok.
Qed.

Lemma angle_body_defined nu coords box (a : ffargs) f i st :
  (let '(i0, i1, i2) := nth i (angles a) (0, 0, 0)%nat in
   defined (_evaluate_angles nu
              (atom_pos coords i0 f, atom_pos coords i1 f, atom_pos coords i2 f)
              (nth i (angle_params a) (0, 0)) (frame_box box f))) ->
  defined (angle_body nu coords box a f i st).
Proof.
  unfold angle_body. destruct (nth i (angles a) _) as [[i0 i1] i2].
  intros [[pot [[f0 f1] f2]] ->]. simpl. apply defined_Ok.
Qed.

Lemma torsion_body_defined nu coords box t quads params f i st :
  (let '(i0, i1, i2, i3) := nth i quads (0, 0, 0, 0)%nat in
   defined (_evaluate_torsion nu
              (atom_pos coords i0 f, atom_pos coords i1 f,
               atom_pos coords i2 f, atom_pos coords i3 f)
              (nth i params []) (frame_box box f))) ->
  defined (torsion_body nu coords box t quads params f i st).
Proof.
  unfold torsion_body, torsion_step.
  destruct (nth i quads _) as [[[i0 i1] i2] i3].
  intros [[pot [[[f0 f1] f2] f3]] ->]. simpl. apply defined_Ok.
Qed.

Lemma spec_wrap_zero (d : R) : spec_wrapDistance d 0 = d.
Proof.
  unfold spec_wrapDistance. destruct (Rgt_dec 0 0); [lra | reflexivity].
Qed.

(** Unfold the program, leaving the real numbers alone. *)
Ltac kcbv :=
  cbv -[Rplus Rmult Rdiv Rminus Ropp Rinv IZR INR PI Rpower sqrt acos cos sin
        Req_EM_T Rlt_dec Rgt_dec ELEC_FACTOR_value radians spec_wrapDistance
        pow].

(** Square roots of 1 and 0 are computed, the others are known positive. *)
Ltac sqrt_norm :=
  repeat match goal with
  | |- context [sqrt ?x] =>
      first [ progress (replace x with 1 by lra); rewrite sqrt_1
            | progress (replace x with 0 by lra); rewrite sqrt_0 ]
  end;
  repeat match goal with
  | |- context [sqrt ?x] =>
      lazymatch goal with
      | H : 0 < sqrt x |- _ => fail
      | _ => assert (0 < sqrt x) by (apply sqrt_lt_R0; lra)
      end
  end.

(** Settle one comparison of the program by linear arithmetic. *)
Ltac decide1 :=
  match goal with
  | |- context [Req_EM_T ?x ?y] =>
      destruct (Req_EM_T x y) as [?E|?E]; [exfalso; lra | ]
  | |- context [Req_EM_T ?x ?y] =>
      destruct (Req_EM_T x y) as [?E|?E]; [ | exfalso; apply E; lra ]
  | |- context [Rlt_dec ?x ?y] =>
      destruct (Rlt_dec x y) as [?E|?E]; [exfalso; lra | ]
  | |- context [Rlt_dec ?x ?y] =>
      destruct (Rlt_dec x y) as [?E|?E]; [ | exfalso; lra ]
  | |- context [Rgt_dec ?x ?y] =>
      destruct (Rgt_dec x y) as [?E|?E]; [exfalso; lra | ]
  | |- context [Rgt_dec ?x ?y] =>
      destruct (Rgt_dec x y) as [?E|?E]; [ | exfalso; lra ]
  end.

Ltac ev := kcbv; rewrite ?spec_wrap_zero; sqrt_norm; repeat decide1.

Ltac ev_defined := unfold defined; ev; eexists; reflexivity.

Lemma ex_init : init ex_mol ex_prm = Ok ex_topo.
Proof. kcbv. reflexivity. Qed.

Lemma ex_pair_body_defined (i j : nat) (st : acc) :
  (i < j < 4)%nat ->
  defined (pair_body spec_numbautil ex_coords ex_box ex_args 0 i j st).
Proof.
  intros Hij.
  assert (H : In (i, j) [(0, 1); (0, 2); (0, 3); (1, 2); (1, 3); (2, 3)]%nat)
    by (simpl; destruct i as [|[|[|i]]]; destruct j as [|[|[|[|j]]]];
        try lia; auto 10).
  simpl in H. repeat destruct H as [H|H]; try contradiction;
    injection H as <- <-; ev_defined.
Qed.

Lemma ex_pair_loop_defined (st : acc) :
  defined (pair_loop spec_numbautil ex_coords ex_box ex_args 0 st).
Proof.
  unfold pair_loop. apply forM_defined.
  apply Forall_forall. intros i Hi st1. apply in_seq in Hi.
  apply forM_defined. apply Forall_forall. intros j Hj st2. apply in_seq in Hj.
  apply ex_pair_body_defined.
  change (natoms ex_coords) with 4%nat in *. lia.
Qed.

Lemma ex_angles_defined (i : nat) (st : acc) :
  (i < 2)%nat ->
  defined (angle_body spec_numbautil ex_coords ex_box ex_args 0 i st).
Proof.
  intros Hi. apply angle_body_defined.
  destruct i as [|[|i]]; [| |lia]; ev_defined.
Qed.

Lemma ex_dihedral_defined (st : acc) :
  defined (torsion_body spec_numbautil ex_coords ex_box Dihedral
             (dihedrals ex_args) (dihedral_params ex_args) 0 0 st).
Proof. apply torsion_body_defined. ev_defined. Qed.

Lemma ex_ffevaluate_defined :
  defined (_ffevaluate spec_numbautil ex_coords ex_box ex_args).
Proof.
  unfold _ffevaluate. apply mapM_defined.
  change (nframes ex_coords) with 1%nat. repeat constructor.
  unfold frame_eval.
  apply defined_bind; [apply ex_pair_loop_defined | intros st1 _].
  change (usersets ex_args) with false. cbv iota.
  apply defined_bind; [|intros st2 _].
  { apply forM_defined. apply Forall_forall. intros i Hi st.
    apply in_seq in Hi. apply ex_angles_defined.
    change (List.length (angles ex_args)) with 2%nat in Hi. lia. }
  apply defined_bind; [|intros st3 _].
  { apply forM_defined. repeat constructor. apply ex_dihedral_defined. }
  apply defined_Ok.
Qed.

(** Witness of C1 on the chain of four atoms. *)
Lemma energy_decomposition_consistency_witness :
  exists r,
    _ffevaluate spec_numbautil ex_coords ex_box ex_args = Ok r
    /\ List.length r = 1%nat
    /\ forall f st, nth_error r f = Some st ->
         nrg_sum (energies st) = atmnrg_sum (atmnrg st).
Proof.
  destruct ex_ffevaluate_defined as [r Hr]. exists r. split; [exact Hr|].
  exact (energy_decomposition_consistency spec_numbautil ex_coords ex_box
           ex_args r eq_refl Hr).
Defined.

(** Witness of C2 on the chain of four atoms. *)
Lemma total_force_vanishes_witness :
  exists r,
    _ffevaluate spec_numbautil ex_coords ex_box ex_args = Ok r
    /\ forall f st, nth_error r f = Some st ->
         List.length (forces st) = 4%nat /\ vsum (forces st) = vzero.
Proof.
  destruct ex_ffevaluate_defined as [r Hr]. exists r. split; [exact Hr|].
  exact (total_force_vanishes spec_numbautil ex_coords ex_box ex_args r
           eq_refl Hr).
Defined.

(** ** Between-sets in the evaluator *)

Lemma FFEvaluate_init_between atomselect mol prm selA selB c r sd self :
  FFEvaluate_init atomselect mol prm (Some (selA, selB)) c r sd = Ok self ->
  atomselect mol selA = Ok (set1 self)
  /\ atomselect mol selB = Ok (set2 self)
  /\ init (mk_Molecule (atomtype mol) (mol_charge mol) [] [] [] []) prm
     = Ok (ff_topo self).
Proof.
  unfold FFEvaluate_init, calculateSets. intros H.
  destruct (atomselect mol selA) as [sa|]; [|discriminate].
  destruct (atomselect mol selB) as [sb|]; [|discriminate].
  cbn [bind] in H. bind_inv H. injection H as <-. simpl. auto.
Qed.

Lemma pair_body_in_sets nu coords box (a : ffargs) f i j st :
  _insets (Z.of_nat i) (Z.of_nat j) (set1 a) (set2 a) = true ->
  pair_body nu coords box a f i j st
  = pair_body nu coords box (without_sets a) f i j st.
Proof.
  intros H. unfold pair_body. rewrite H.
  rewrite andb_false_r. reflexivity.
Qed.

Lemma pair_body_not_in_sets nu coords box (a : ffargs) f i j st :
  usersets a = true ->
  _insets (Z.of_nat i) (Z.of_nat j) (set1 a) (set2 a) = false ->
  pair_body nu coords box a f i j st = Ok st.
Proof.
  intros Hu H. unfold pair_body. rewrite Hu, H. reflexivity.
Qed.

(** X30.  Two between-sets that are disjoint and not both empty.  The
    evaluator holds the two selections; a pair is evaluated, exactly as
    without sets, if it satisfies the symmetric predicate
    [(i in A and j in B) or (i in B and j in A)], and contributes nothing
    otherwise; and, for any two sets, the four bonded energy rows (bond,
    angle, dihedral, improper) are zero in every frame.  Sets that overlap
    or are both empty are outside this statement (C5). *)
Theorem between_sets_restriction atomselect nu mol prm selA selB c r sd self :
  FFEvaluate_init atomselect mol prm (Some (selA, selB)) c r sd = Ok self ->
  (atomselect mol selA = Ok (set1 self) /\ atomselect mol selB = Ok (set2 self))
  /\ ((set1 self <> [] \/ set2 self <> []) ->
      (forall x, In x (set1 self) -> In x (set2 self) -> False) ->
      forall coords box f i j st,
        (straddles (Z.of_nat i) (Z.of_nat j) (set1 self) (set2 self) ->
         pair_body nu coords box self f i j st
         = pair_body nu coords box (without_sets self) f i j st)
        /\ (~ straddles (Z.of_nat i) (Z.of_nat j) (set1 self) (set2 self) ->
            pair_body nu coords box self f i j st = Ok st))
  /\ (forall coords box res, _ffevaluate nu coords box self = Ok res ->
      forall f st, nth_error res f = Some st ->
        bonded_terms_zero (energies st)).
Proof.
  intros H. apply FFEvaluate_init_between in H as (HA & HB & Hinit).
  split; [auto|]. split.
  - intros Hne Hdisj coords box f i j st. split.
    + intros Hs. apply pair_body_in_sets. apply _insets_complete; assumption.
    + intros Hs. apply pair_body_not_in_sets.
      * apply usersets_true_iff, Hne.
      * destruct (_insets _ _ _ _) eqn:E; [|reflexivity].
        apply _insets_sound in E. contradiction.
  - intros coords box res Hev f st Hf.
    apply init_no_topology in Hinit as (Hbo & Han & Hdi & Him).
    destruct (mapM_nth_error _ _ _ Hev f st Hf) as (f' & _ & Hfr).
    eapply frame_eval_bonded_zero; eauto.
    intros i j. rewrite Hbo. apply _ispaired_empty_rows, int_array_empty_rows.
Qed.

Lemma ELEC_FACTOR_value_pos : 0 < ELEC_FACTOR_value.
Proof.
  unfold ELEC_FACTOR_value, const_epsilon_0, const_elementary_charge,
    const_angstrom, const_Avogadro, const_kilo, const_calorie.
  pose proof PI_RGT_0 as Hpi.
  assert (H12 : 0 < 10 ^ 12) by (apply pow_lt; lra).
  assert (H19 : 0 < 10 ^ 19) by (apply pow_lt; lra).
  assert (H10 : 0 < 10 ^ 10) by (apply pow_lt; lra).
  assert (H23 : 0 < 10 ^ 23) by (apply pow_lt; lra).
  repeat first [ lra | apply Rmult_lt_0_compat | apply Rdiv_lt_0_compat
               | apply Rinv_0_lt_compat | apply pow_lt
               | apply IZR_lt; reflexivity ].
Qed.

(** C5.  The between-sets restriction as the code has it, at the inputs
    where it leaves the symmetric predicate
    [(i in A and j in B) or (i in B and j in A)].  With the selections
    [A = [0; 1]] and [B = [0; 1; 2; 3]], [_insets] answers [False] for the
    pair (0, 2), atom 0 of [A] and atom 2 of [B], and [True] for the same
    sets with [B] listed as [[2; 3; 0; 1]]: its second scan stops at the
    first element that is [i] or [j].  In the evaluator built with these
    selections the pairs (0, 1) and (0, 2) satisfy the predicate and are
    skipped, although each has an energy of its own.  With two empty
    selections the restriction is off: the pair (0, 1) is in neither set
    and is evaluated all the same. *)
Theorem between_sets_defect :
  (_insets 0 2 [0; 1]%Z [0; 1; 2; 3]%Z = false
   /\ _insets 0 2 [0; 1]%Z [2; 3; 0; 1]%Z = true
   /\ straddles 0 2 [0; 1]%Z [0; 1; 2; 3]%Z)
  /\ (exists self,
      FFEvaluate_init ex_atomselect ex_mol ex_prm (Some ("first", "all")%string)
        0 false 78.5 = Ok self
      /\ set1 self = [0; 1]%Z /\ set2 self = [0; 1; 2; 3]%Z
      /\ straddles 0 1 (set1 self) (set2 self)
      /\ straddles 0 2 (set1 self) (set2 self)
      /\ pair_body spec_numbautil ex_coords ex_box self 0 0 1 (acc_zero 4)
         = Ok (acc_zero 4)
      /\ pair_body spec_numbautil ex_coords ex_box self 0 0 2 (acc_zero 4)
         = Ok (acc_zero 4)
      /\ pair_body spec_numbautil ex_coords ex_box (without_sets self) 0 0 1
           (acc_zero 4) <> Ok (acc_zero 4)
      /\ pair_body spec_numbautil ex_coords ex_box (without_sets self) 0 0 2
           (acc_zero 4) <> Ok (acc_zero 4))
  /\ (exists self,
      FFEvaluate_init ex_atomselect ex_mol ex_prm (Some ("none", "none")%string)
        0 false 78.5 = Ok self
      /\ set1 self = [] /\ set2 self = []
      /\ ~ straddles 0 1 (set1 self) (set2 self)
      /\ pair_body spec_numbautil ex_coords ex_box self 0 0 1 (acc_zero 4)
         <> Ok (acc_zero 4)).
Proof.
  pose proof ELEC_FACTOR_value_pos as HEF.
  split; [|split].
  - split; [reflexivity|]. split; [reflexivity|].
    unfold straddles. simpl. auto 10.
  - eexists. split; [kcbv; reflexivity|].
    split; [reflexivity|]. split; [reflexivity|].
    split; [unfold straddles; simpl; auto 10|].
    split; [unfold straddles; simpl; auto 10|].
    split; [reflexivity|]. split; [reflexivity|]. split.
    + ev. intros Heq. injection Heq as _ _ Hel. lra.
    + ev. intros Heq.
      apply (f_equal (fun r => match r with
                               | Ok a => e_elec (energies a)
                               | Raise _ => 0
                               end)) in Heq.
      cbn [energies e_elec] in Heq.
      set (s := sqrt _) in *.
      assert (Hs : 0 < ELEC_FACTOR_value * 1 * 1 / s)
        by (apply Rdiv_lt_0_compat; lra).
      lra.
  - eexists. split; [kcbv; reflexivity|].
    split; [reflexivity|]. split; [reflexivity|]. split.
    + unfold straddles. simpl. tauto.
    + ev. intros Heq. injection Heq as _ _ Hel. lra.
Qed.

(** Witness of X30: the sets [0; 1] and [2; 3] on the chain. *)
Lemma between_sets_restriction_witness :
  exists self,
    FFEvaluate_init ex_atomselect ex_mol ex_prm (Some ("first", "last")%string)
      0 false 78.5 = Ok self
    /\ pair_body spec_numbautil ex_coords ex_box self 0 0 2 (acc_zero 4)
       = pair_body spec_numbautil ex_coords ex_box (without_sets self) 0 0 2
           (acc_zero 4)
    /\ pair_body spec_numbautil ex_coords ex_box self 0 0 1 (acc_zero 4)
       = Ok (acc_zero 4).
Proof.
  eexists. split; [kcbv; reflexivity|].
  destruct (between_sets_restriction ex_atomselect spec_numbautil ex_mol ex_prm
              "first" "last" 0 false 78.5 _ eq_refl) as (_ & Hgate & _).
  assert (Hne : [0; 1]%Z <> [] \/ [2; 3]%Z <> []) by (left; discriminate).
  assert (Hdisj : forall x, In x [0; 1]%Z -> In x [2; 3]%Z -> False)
    by (simpl; lia).
  destruct (Hgate Hne Hdisj ex_coords ex_box 0%nat 0%nat 2%nat (acc_zero 4))
    as [Hin _].
  destruct (Hgate Hne Hdisj ex_coords ex_box 0%nat 0%nat 1%nat (acc_zero 4))
    as [_ Hout].
  split.
  - apply Hin. unfold straddles. simpl. auto.
  - apply Hout. unfold straddles. simpl. lia.
Defined.

(** ** The harmonic branch of the torsion kernel *)

Lemma wrap_diff_cases (d : R) :
  (d < - PI /\ wrap_diff d = d + 2 * PI)
  \/ (- PI <= d <= PI /\ wrap_diff d = d)
  \/ (PI < d /\ wrap_diff d = d - 2 * PI).
Proof.
  pose proof PI_RGT_0 as Hpi. unfold wrap_diff.
  destruct (Rlt_dec d (- PI)); [left; split; [lra | reflexivity]|].
  destruct (Rgt_dec d PI); [right; right; split; [lra | reflexivity]|].
  right; left. split; [lra | reflexivity].
Qed.

(** C9, as the claim states it, fails: with the phase [4 * PI] (720
    degrees) and the angle [0], the harmonic branch accumulates the
    derivative of the deviation [-2 * PI], and no deviation of the
    interval (-PI, PI] gives that result. *)
Lemma harmonic_wrap_counterexample :
  ~ exists delta,
      - PI < delta <= PI
      /\ torsion_term [Some 1; Some (4 * PI); Some 0] 0 0 (0, 0)
         = Ok (0 + 1 * delta ^ 2, 0 + 2 * 1 * delta).
Proof.
  pose proof PI_RGT_0 as Hpi. intros (delta & Hd & H).
  unfold torsion_term in H. cbn [readf nth Nat.mul Nat.add bind] in H.
  destruct (Rgt_dec 0 0) as [Hgt|_]; [lra|].
  unfold wrap_diff in H.
  destruct (Rlt_dec (0 - 4 * PI) (- PI)) as [_|Hn]; [|lra].
  injection H as _ H2. lra.
Qed.

(** C9, amended.  In a torsion component with periodicity [n <= 0] the
    deviation [phi - phi_0] is shifted once, by [2 * PI] when it is below
    [- PI] and by [- 2 * PI] when it is above [PI], and the component adds
    [k * delta ^ 2] to the potential and [2 * k * delta] to the derivative
    for the shifted [delta]; [delta] lies in the closed interval
    [[- PI, PI]] whenever [- 3 * PI <= phi - phi_0 <= 3 * PI]. *)
Theorem harmonic_improper_wrap (tp : list (option R)) (phi : R) (i : nat)
    (pot coef k0 phi0 per : R) :
  readf tp (i * 3 + 0) = Ok k0 ->
  readf tp (i * 3 + 1) = Ok phi0 ->
  readf tp (i * 3 + 2) = Ok per ->
  per <= 0 ->
  let delta := wrap_diff (phi - phi0) in
  torsion_term tp phi i (pot, coef)
    = Ok (pot + k0 * delta ^ 2, coef + 2 * k0 * delta)
  /\ (delta = phi - phi0 + 2 * PI \/ delta = phi - phi0
      \/ delta = phi - phi0 - 2 * PI)
  /\ (- 3 * PI <= phi - phi0 <= 3 * PI -> - PI <= delta <= PI).
Proof.
  intros Hk Hp Hn Hper delta. unfold torsion_term.
  rewrite Hk, Hp, Hn. cbn [bind].
  destruct (Rgt_dec per 0) as [Hgt|_]; [lra|].
  split; [reflexivity|].
  subst delta.
  destruct (wrap_diff_cases (phi - phi0)) as [[H ->]|[[H ->]|[H ->]]];
    split; auto; intros; lra.
Qed.

(** Witness of C9 (amended): the angle 4 against the phase 0. *)
Lemma harmonic_improper_wrap_witness :
  torsion_term [Some 1; Some 0; Some 0] 4 0 (0, 0)
    = Ok (0 + 1 * wrap_diff (4 - 0) ^ 2, 0 + 2 * 1 * wrap_diff (4 - 0))
  /\ (wrap_diff (4 - 0) = 4 - 0 + 2 * PI \/ wrap_diff (4 - 0) = 4 - 0
      \/ wrap_diff (4 - 0) = 4 - 0 - 2 * PI)
  /\ (- 3 * PI <= 4 - 0 <= 3 * PI -> - PI <= wrap_diff (4 - 0) <= PI).
Proof.
  apply (harmonic_improper_wrap [Some 1; Some 0; Some 0] 4 0 0 0 1 0 0).
  - reflexivity.
  - reflexivity.
  - reflexivity.
  - lra.
Defined.

(** ** Construction with [rfa] and no cutoff *)

(** C8, as the claim states it, fails: the chain is constructed with
    [rfa=True] and [cutoff=0] and no error is raised. *)
Lemma rfa_without_cutoff_counterexample :
  FFEvaluate_init ex_atomselect ex_mol ex_prm None 0 true 78.5
  = Ok (mk_ffargs ex_topo [] [] 0 true 78.5).
Proof. kcbv. reflexivity. Qed.

(** C8, amended.  The constructor validates no option: with [rfa=True] and
    [cutoff=0] it fails exactly when the same construction with any other
    cutoff and [rfa] fails, with the same exception, and otherwise stores
    the two options as they are.  The zero cutoff raises
    [ZeroDivisionError] later, in [_evaluate_elec], whenever an evaluation
    reaches a pair that is not excluded. *)
Theorem rfa_without_cutoff :
  (forall atomselect mol prm betweensets sd c r,
     FFEvaluate_init atomselect mol prm betweensets 0 true sd
     = (self <- FFEvaluate_init atomselect mol prm betweensets c r sd ;;
        Ok (mk_ffargs self (set1 self) (set2 self) 0 true sd)))
  /\ (forall i j charge e14a e14v EF dist sd,
       _evaluate_elec i j charge e14a e14v EF dist true sd 0
       = (scale <- elec_scale i j e14a e14v ;; Raise ZeroDivisionError)).
Proof.
  split.
  - intros atomselect mol prm betweensets sd c r. unfold FFEvaluate_init.
    destruct (calculateSets atomselect mol betweensets) as [[[m sa] sb]|e];
      cbn [bind]; [|reflexivity].
    destruct (init m prm); reflexivity.
  - intros i j q ea ev EF dist sd. unfold _evaluate_elec.
    destruct (elec_scale i j ea ev); cbn [bind]; [|reflexivity].
    replace (0 ^ 3) with 0 by (simpl; lra). rewrite fdiv_zero. reflexivity.
Qed.

(** Witness of C3 on the chain: the pair (0, 2) is excluded and not
    bonded, the pair (0, 1) is excluded and bonded. *)
Lemma excluded_pair_contribution_witness :
  pair_body spec_numbautil ex_coords ex_box ex_args 0 0 2 (acc_zero 4)
    = Ok (acc_zero 4)
  /\ pair_body spec_numbautil ex_coords ex_box ex_args 0 0 1 (acc_zero 4)
    = Ok (bond_only_update 0 1 (1 * (1 - 1) ^ 2) (2 * 1 * (1 - 1))
            ((1 - 0) / 1, (0 - 0) / 1, (0 - 0) / 1) (acc_zero 4)).
Proof.
  split.
  - exact (excluded_pair_contribution spec_numbautil ex_coords ex_box ex_args
             0 0 2 (acc_zero 4) eq_refl).
  - rewrite (excluded_pair_contribution spec_numbautil ex_coords ex_box ex_args
             0 0 1 (acc_zero 4) eq_refl).
    ev. reflexivity.
Defined.

(** ** Improper parameter resolution *)

Lemma key_eqb_eq (k1 k2 : key) : key_eqb k1 k2 = true <-> k1 = k2.
Proof.
  revert k2. induction k1 as [|x r IH]; intros [|y r2]; simpl;
    try (split; [discriminate | congruence]); [tauto|].
  rewrite andb_true_iff, String.eqb_eq, IH. split.
  - intros [-> ->]. reflexivity.
  - intros H. injection H as -> ->. auto.
Qed.

Lemma wildcard_match_spec (k type : key) :
  List.length k = List.length type ->
  wildcard_match k type = Ok (matches_positionwise k type).
Proof.
  revert type. induction k as [|t r IH]; intros [|x xs] Hlen; simpl in *;
    try discriminate; [reflexivity|].
  destruct (String.eqb t "X"); simpl.
  - apply IH. lia.
  - destruct (String.eqb t x); simpl; [apply IH; lia | reflexivity].
Qed.

Lemma wildcard_substituted_spec {V : Type} (type : key)
    (table : list (key * V)) :
  forallb (fun kv => (List.length (fst kv) =? List.length type)%nat) table
    = true ->
  wildcard_substituted type table
  = Ok match find (fun kv => has_X (fst kv)
                             && matches_positionwise (fst kv) type) table with
       | Some kv => fst kv
       | None => []
       end.
Proof.
  unfold wildcard_substituted.
  induction table as [|[k v] r IH]; simpl; intros Hwf; [reflexivity|].
  apply andb_prop in Hwf as [Hk Hr]. apply Nat.eqb_eq in Hk.
  destruct (has_X k) eqn:HX; simpl.
  - rewrite wildcard_match_spec by exact Hk. simpl.
    destruct (matches_positionwise k type); [reflexivity | apply IH, Hr].
  - apply IH, Hr.
Qed.

Lemma find_key_lookup {V : Type} (P : key -> bool) (table : list (key * V))
    (k : key) (v : V) :
  find (fun kv => P (fst kv)) table = Some (k, v) -> lookup k table = Some v.
Proof.
  induction table as [|[k' v'] r IH]; simpl; [discriminate|].
  destruct (P k') eqn:HP.
  - intros H. injection H as -> ->.
    rewrite (proj2 (key_eqb_eq k k) eq_refl). reflexivity.
  - intros H. destruct (key_eqb k k') eqn:E.
    + apply key_eqb_eq in E. subst k'.
      apply find_some in H as [_ H]. simpl in H. congruence.
    + apply IH, H.
Qed.

Lemma has_X_nonempty (k : key) : has_X k = true -> k <> [].
Proof. destruct k; [discriminate | discriminate]. Qed.

(** One pass of the loop of [getImproperParameter]: the four attempts. *)
Lemma improper_attempts_spec (prm : ParameterSet) (k : key)
    (rest : res improper_param) :
  improper_keys_wf prm = true ->
  List.length k = 4%nat ->
  match lookup k (improper_types prm) with
  | Some v => Ok (From_improper_types v)
  | None =>
      match lookup k (improper_periodic_types prm) with
      | Some v => Ok (From_improper_periodic_types v)
      | None =>
          improper_params <-
            wildcard_substituted k (improper_types prm) ;;
          match improper_params with
          | _ :: _ =>
              v <- getitem improper_params (improper_types prm) ;;
              Ok (From_improper_types v)
          | [] =>
              improper_periodic_params <-
                wildcard_substituted k (improper_periodic_types prm) ;;
              match improper_periodic_params with
              | _ :: _ =>
                  v <- getitem improper_periodic_params
                         (improper_periodic_types prm) ;;
                  Ok (From_improper_periodic_types v)
              | [] => rest
              end
          end
      end
  end
  = match first_some (spec_attempts prm k) with
    | Some r => Ok r
    | None => rest
    end.
Proof.
  intros Hwf Hk. unfold improper_keys_wf in Hwf.
  apply andb_prop in Hwf as [Hh Hp]. rewrite <- Hk in Hh, Hp.
  unfold spec_attempts. cbn [first_some].
  destruct (lookup k (improper_types prm)) as [v|]; [reflexivity|].
  destruct (lookup k (improper_periodic_types prm)) as [v|]; [reflexivity|].
  cbn [option_map first_some].
  rewrite (wildcard_substituted_spec k _ Hh). cbn [bind].
  unfold spec_wildcard.
  destruct (find _ (improper_types prm)) as [[k1 v1]|] eqn:E1.
  - pose proof (find_some _ _ E1) as [_ HP]. cbn [fst] in HP.
    apply andb_prop in HP as [HX _]. cbn [fst option_map snd first_some].
    destruct k1 as [|t r]; [discriminate|].
    unfold getitem.
    rewrite (find_key_lookup
               (fun k' => has_X k' && matches_positionwise k' k) _ _ _ E1).
    reflexivity.
  - cbn [option_map first_some].
    rewrite (wildcard_substituted_spec k _ Hp). cbn [bind].
    destruct (find _ (improper_periodic_types prm)) as [[k1 v1]|] eqn:E2.
    + pose proof (find_some _ _ E2) as [_ HP]. cbn [fst] in HP.
      apply andb_prop in HP as [HX _]. cbn [fst option_map snd first_some].
      destruct k1 as [|t r]; [discriminate|].
      unfold getitem.
      rewrite (find_key_lookup
                 (fun k' => has_X k' && matches_positionwise k' k) _ _ _ E2).
      reflexivity.
    + reflexivity.
Qed.

Lemma take_perm_spec (type : key) (p : list nat) :
  Forall (fun i => (i < List.length type)%nat) p ->
  take_perm type p = Ok (perm_apply p type).
Proof.
  induction 1 as [|i r Hi Hr IH]; simpl; [reflexivity|].
  destruct (nth_error type i) as [t|] eqn:E.
  - rewrite IH. simpl. rewrite (nth_error_nth _ _ EmptyString E). reflexivity.
  - apply nth_error_None in E. lia.
Qed.

Lemma first_some_app {A : Type} (l1 l2 : list (option A)) :
  first_some (l1 ++ l2)
  = match first_some l1 with Some x => Some x | None => first_some l2 end.
Proof.
  induction l1 as [|[x|] r IH]; simpl; auto.
Qed.

Lemma getImproperParameter_loop_spec (prm : ParameterSet) (type : key)
    (ps : list (list nat)) :
  improper_keys_wf prm = true ->
  Forall (fun p => List.length p = 4%nat
                   /\ Forall (fun i => (i < List.length type)%nat) p) ps ->
  getImproperParameter_loop ps type prm
  = match first_some
            (flat_map (fun p => spec_attempts prm (perm_apply p type)) ps) with
    | Some r => Ok r
    | None => Raise RuntimeError
    end.
Proof.
  intros Hwf. induction 1 as [|p rest [Hlen Hp] Hrest IH]; [reflexivity|].
  cbn [getImproperParameter_loop flat_map].
  rewrite (take_perm_spec _ _ Hp). cbn [bind].
  rewrite IH. rewrite first_some_app.
  rewrite improper_attempts_spec;
    [| exact Hwf | unfold perm_apply; rewrite length_map; exact Hlen].
  destruct (first_some (spec_attempts prm (perm_apply p type))); reflexivity.
Qed.

Lemma perms_wf :
  Forall (fun p => List.length p = 4%nat /\ Forall (fun i => (i < 4)%nat) p)
         perms.
Proof. repeat constructor. Qed.

Lemma getImproperParameter_spec (prm : ParameterSet) (type : key) :
  improper_keys_wf prm = true ->
  List.length type = 4%nat ->
  getImproperParameter type prm
  = match spec_scan prm type with
    | Some r => Ok r
    | None => Raise RuntimeError
    end.
Proof.
  intros Hwf Hlen. unfold getImproperParameter, spec_scan.
  apply getImproperParameter_loop_spec; [exact Hwf|].
  rewrite Hlen. exact perms_wf.
Qed.

(** *** The permutations that keep position 2 *)

Lemma perms_spec (p : list nat) :
  In p perms <-> Permutation p [0; 1; 2; 3]%nat /\ nth_error p 2 = Some 2%nat.
Proof.
  split.
  - intros H. change perms with
      [[0; 1; 2; 3]; [0; 3; 2; 1]; [1; 0; 2; 3]; [1; 3; 2; 0];
       [3; 0; 2; 1]; [3; 1; 2; 0]]%nat in H.
    simpl in H.
    repeat (destruct H as [H|H]; [subst p|]); try contradiction;
      (split; [|reflexivity]);
      (apply NoDup_Permutation;
       [ repeat constructor; simpl; lia
       | repeat constructor; simpl; lia
       | intros x; simpl; lia ]).
  - intros [Hp H2].
    pose proof (Permutation_length Hp) as Hlen.
    pose proof (Permutation_NoDup (Permutation_sym Hp)) as Hnd.
    assert (Hnd0 : NoDup [0; 1; 2; 3]%nat) by (repeat constructor; simpl; lia).
    specialize (Hnd Hnd0).
    assert (Hin : forall x, In x p -> (x < 4)%nat).
    { intros x Hx. apply (Permutation_in _ Hp) in Hx. simpl in Hx. lia. }
    destruct p as [|a [|b [|c [|d [|e r]]]]]; try discriminate.
    simpl in H2. injection H2 as ->.
    assert (Ha : (a < 4)%nat) by (apply Hin; simpl; auto).
    assert (Hb : (b < 4)%nat) by (apply Hin; simpl; auto).
    assert (Hd : (d < 4)%nat) by (apply Hin; simpl; auto).
    inversion Hnd as [|? ? Ha' Hnd1]; subst.
    inversion Hnd1 as [|? ? Hb' Hnd2]; subst.
    inversion Hnd2 as [|? ? Hc' Hnd3]; subst.
    simpl in Ha', Hb', Hc'.
    change perms with
      [[0; 1; 2; 3]; [0; 3; 2; 1]; [1; 0; 2; 3]; [1; 3; 2; 0];
       [3; 0; 2; 1]; [3; 1; 2; 0]]%nat.
    destruct a as [|[|[|[|a]]]]; try lia;
    destruct b as [|[|[|[|b]]]]; try lia;
    destruct d as [|[|[|[|d]]]]; try lia;
    simpl; auto 10; exfalso; tauto.
Qed.

(** *** [np.unique] *)

Lemma insert_uniq_In (x y : nat) (l : list nat) :
  In x (insert_uniq Nat.compare y l) <-> x = y \/ In x l.
Proof.
  induction l as [|z r IH]; simpl; [intuition congruence|].
  destruct (Nat.compare_spec y z) as [->|Hlt|Hgt]; simpl.
  - intuition congruence.
  - intuition congruence.
  - rewrite IH. intuition congruence.
Qed.

Lemma insert_uniq_Sorted (y : nat) (l : list nat) :
  Sorted lt l -> Sorted lt (insert_uniq Nat.compare y l).
Proof.
  induction 1 as [|z r Hr IH Hhd]; simpl; [repeat constructor|].
  destruct (Nat.compare_spec y z) as [->|Hlt|Hgt].
  - constructor; assumption.
  - constructor; [constructor; assumption | constructor; exact Hlt].
  - constructor; [exact IH|].
    destruct r as [|w r']; simpl.
    + constructor. exact Hgt.
    + inversion Hhd; subst.
      destruct (Nat.compare_spec y w); constructor; lia.
Qed.

Lemma np_unique_In (x : nat) (l : list nat) :
  In x (np_unique Nat.compare l) <-> In x l.
Proof.
  induction l as [|y r IH]; simpl; [tauto|].
  rewrite insert_uniq_In, IH. intuition.
Qed.

Lemma np_unique_Sorted (l : list nat) : Sorted lt (np_unique Nat.compare l).
Proof.
  induction l as [|y r IH]; simpl;
    [constructor | apply insert_uniq_Sorted, IH].
Qed.

Lemma Sorted_lt_NoDup (l : list nat) : Sorted lt l -> NoDup l.
Proof.
  intros H. apply Sorted_StronglySorted in H; [|intros x y z; lia].
  induction H as [|x r Hr IH Hall]; constructor; [|exact IH].
  intros Hin. rewrite Forall_forall in Hall. specialize (Hall _ Hin). lia.
Qed.

Lemma np_unique_NoDup (l : list nat) : NoDup (np_unique Nat.compare l).
Proof. apply Sorted_lt_NoDup, np_unique_Sorted. Qed.

Lemma np_unique_Permutation (l : list nat) :
  NoDup l -> Permutation (np_unique Nat.compare l) l.
Proof.
  intros H. apply NoDup_Permutation; [apply np_unique_NoDup | exact H|].
  intros x. apply np_unique_In.
Qed.

(** *** The center *)

Lemma mem_nat_In (n : nat) (l : list nat) : mem_nat n l = true <-> In n l.
Proof.
  unfold mem_nat. rewrite existsb_exists. split.
  - intros (x & Hx & E). apply Nat.eqb_eq in E. subst. exact Hx.
  - intros H. exists n. split; [exact H | apply Nat.eqb_refl].
Qed.

Lemma neighbors_In (bonds : list (nat * nat)) (i v : nat) :
  In v (neighbors bonds i) <-> bonded bonds i v = true.
Proof.
  unfold neighbors, bonded. rewrite in_flat_map, existsb_exists.
  split; intros ([x y] & Hin & H); exists (x, y); (split; [exact Hin|]).
  - apply in_app_or in H.
    destruct (Nat.eqb_spec x i), (Nat.eqb_spec y i), (Nat.eqb_spec x v),
      (Nat.eqb_spec y v); simpl in *; subst; auto; destruct H as [H|H];
      simpl in H; try tauto; try lia; destruct H; try tauto; try lia.
  - apply in_or_app.
    destruct (Nat.eqb_spec x i), (Nat.eqb_spec y i), (Nat.eqb_spec x v),
      (Nat.eqb_spec y v); simpl in *; subst; auto; try discriminate.
Qed.

Lemma center_count (bonds : list (nat * nat)) (i : nat) (idx : list nat) :
  List.length (intersect1d (neighbors bonds i) idx)
  = List.length (nodup Nat.eq_dec (filter (bonded bonds i) idx)).
Proof.
  apply Permutation_length. unfold intersect1d.
  apply NoDup_Permutation; [apply np_unique_NoDup | apply NoDup_nodup|].
  intros x. rewrite np_unique_In, nodup_In, !filter_In, mem_nat_In,
    neighbors_In. tauto.
Qed.

Lemma detectImproperCenter_loop_spec (bonds : list (nat * nat))
    (todo idx : list nat) :
  detectImproperCenter_loop todo idx bonds
  = find (fun i =>
            (List.length (nodup Nat.eq_dec (filter (bonded bonds i) idx))
             =? 3)%nat)
         todo.
Proof.
  induction todo as [|i r IH]; simpl; [reflexivity|].
  rewrite center_count, IH. reflexivity.
Qed.

Lemma detectImproperCenter_spec (bonds : list (nat * nat)) (idx : list nat) :
  detectImproperCenter idx bonds = spec_center bonds idx.
Proof. apply detectImproperCenter_loop_spec. Qed.

(** *** Sorting the other three types *)

Lemma insert_sorted_Permutation {A : Type} (cmp : A -> A -> comparison)
    (x : A) (l : list A) :
  Permutation (insert_sorted cmp x l) (x :: l).
Proof.
  induction l as [|y r IH]; simpl; [reflexivity|].
  destruct (cmp x y); try reflexivity.
  rewrite IH. apply perm_swap.
Qed.

Lemma sorted_Permutation {A : Type} (cmp : A -> A -> comparison)
    (l : list A) :
  Permutation (sorted cmp l) l.
Proof.
  induction l as [|x r IH]; simpl; [reflexivity|].
  rewrite insert_sorted_Permutation. constructor. exact IH.
Qed.

Lemma leb_of_Gt (x y : string) :
  String.compare x y = Gt -> String.leb y x = true.
Proof.
  intros H. unfold String.leb. rewrite String.compare_antisym, H. reflexivity.
Qed.

Lemma leb_of_not_Gt (x y : string) :
  String.compare x y <> Gt -> String.leb x y = true.
Proof. unfold String.leb. destruct (String.compare x y); congruence. Qed.

Lemma insert_sorted_ascending (x : string) (l : list string) :
  ascending l = true -> ascending (insert_sorted String.compare x l) = true.
Proof.
  induction l as [|y r IH]; [reflexivity|]. intros Hl.
  cbn [insert_sorted].
  destruct (String.compare x y) eqn:E.
  - cbn [ascending]. rewrite leb_of_not_Gt by congruence. exact Hl.
  - cbn [ascending]. rewrite leb_of_not_Gt by congruence. exact Hl.
  - assert (Hr : ascending r = true).
    { destruct r; [reflexivity|]. cbn [ascending] in Hl.
      apply andb_prop in Hl. tauto. }
    specialize (IH Hr).
    destruct r as [|z r']; cbn [insert_sorted] in *.
    + cbn [ascending]. rewrite (leb_of_Gt _ _ E). reflexivity.
    + cbn [ascending] in Hl. apply andb_prop in Hl as [Hyz _].
      destruct (String.compare x z); cbn [ascending] in *;
        rewrite ?(leb_of_Gt _ _ E), ?Hyz; simpl; exact IH.
Qed.

Lemma sorted_ascending (l : list string) :
  ascending (sorted String.compare l) = true.
Proof.
  induction l as [|x r IH]; [reflexivity|].
  apply insert_sorted_ascending, IH.
Qed.

Lemma types_of_Ok (mol : Molecule) (idx : list nat) (ts : key) :
  types_of mol idx = Ok ts ->
  ts = map (fun i => nth i (atomtype mol) EmptyString) idx
  /\ Forall (fun i => (i < List.length (atomtype mol))%nat) idx.
Proof.
  unfold types_of.
  revert ts. induction idx as [|i r IH]; simpl; intros ts H.
  - injection H as <-. auto.
  - destruct (nth_error (atomtype mol) i) as [t|] eqn:E; [|discriminate].
    bind_inv H. injection H as <-. destruct (IH _ Hx) as [-> Hr].
    split.
    + rewrite (nth_error_nth _ _ EmptyString E). reflexivity.
    + constructor; [|exact Hr]. apply nth_error_Some. congruence.
Qed.

Lemma types_of_in_range (mol : Molecule) (idx : list nat) :
  Forall (fun i => (i < List.length (atomtype mol))%nat) idx ->
  types_of mol idx = Ok (map (fun i => nth i (atomtype mol) EmptyString) idx).
Proof.
  unfold types_of.
  induction 1 as [|i r Hi Hr IH]; simpl; [reflexivity|].
  destruct (nth_error (atomtype mol) i) as [t|] eqn:E.
  - rewrite IH. simpl. rewrite (nth_error_nth _ _ EmptyString E). reflexivity.
  - apply nth_error_None in E. lia.
Qed.

Lemma filter_remove_length (c : nat) (l : list nat) :
  NoDup l -> In c l ->
  S (List.length (filter (fun v => negb (v =? c)%nat) l)) = List.length l.
Proof.
  induction 1 as [|x r Hx Hr IH]; simpl; [tauto|].
  intros [->|Hin].
  - rewrite Nat.eqb_refl. simpl. f_equal.
    clear IH Hr. induction r as [|y r IH]; simpl; [reflexivity|].
    destruct (Nat.eqb_spec y c) as [->|Hne]; simpl.
    + exfalso. apply Hx. simpl. auto.
    + f_equal. apply IH. intros H. apply Hx. simpl. auto.
  - destruct (Nat.eqb_spec x c) as [->|Hne]; [contradiction|].
    simpl. f_equal. apply IH, Hin.
Qed.

(** The type tuple of the retry: the three other types in ascending
    order, with the type of the center spliced into position 2. *)
Lemma relocated_type_spec (mol : Molecule) (impr : list nat) (ty' : key) :
  NoDup impr -> List.length impr = 4%nat ->
  relocated_type mol impr = Ok ty' ->
  exists c ct o0 o1 o2 others,
    spec_center (mol_bonds mol) impr = Some c
    /\ In c impr
    /\ types_of mol [c] = Ok [ct]
    /\ types_of mol (filter (fun v => negb (v =? c)%nat) impr) = Ok others
    /\ Permutation [o0; o1; o2] others
    /\ ascending [o0; o1; o2] = true
    /\ ty' = [o0; o1; ct; o2].
Proof.
  intros Hnd Hlen H. unfold relocated_type in H.
  rewrite detectImproperCenter_spec in H.
  destruct (spec_center (mol_bonds mol) impr) as [c|] eqn:Ec; [|discriminate].
  assert (Hc : In c impr) by (apply find_some in Ec; tauto).
  bind_inv H. bind_inv H. injection H as <-.
  rename x into nts. rename x0 into cts.
  set (others := filter (fun v => negb (v =? c)%nat) impr) in *.
  assert (Hnd' : NoDup others) by (apply NoDup_filter, Hnd).
  assert (Hperm : Permutation (setdiff1d impr c) others)
    by (apply np_unique_Permutation, Hnd').
  assert (Hlen' : List.length others = 3%nat).
  { pose proof (filter_remove_length c impr Hnd Hc). fold others in H. lia. }
  destruct (types_of_Ok _ _ _ Hx) as [-> Hrange].
  destruct (types_of_Ok _ _ _ Hx0) as [-> _].
  assert (Hrange' : Forall (fun i => (i < List.length (atomtype mol))%nat)
                      others).
  { apply Forall_forall. intros v Hv. rewrite Forall_forall in Hrange.
    apply Hrange. apply (Permutation_in _ (Permutation_sym Hperm)), Hv. }
  set (f := fun i => nth i (atomtype mol) EmptyString) in *.
  pose proof (sorted_Permutation String.compare (map f (setdiff1d impr c)))
    as Hs.
  pose proof (sorted_ascending (map f (setdiff1d impr c))) as Ha.
  assert (Hl3 : List.length (sorted String.compare (map f (setdiff1d impr c)))
                = 3%nat).
  { rewrite (Permutation_length Hs), length_map, (Permutation_length Hperm).
    exact Hlen'. }
  destruct (sorted String.compare (map f (setdiff1d impr c)))
    as [|o0 [|o1 [|o2 [|o3 r]]]]; try discriminate.
  exists c, (f c), o0, o1, o2, (map f others).
  repeat split; auto.
  - apply types_of_in_range, Hrange'.
  - rewrite Hs. apply Permutation_map, Hperm.
Qed.

Lemma types_of_length (mol : Molecule) (idx : list nat) (ts : key) :
  types_of mol idx = Ok ts -> List.length ts = List.length idx.
Proof.
  intros H. apply types_of_Ok in H as [-> _]. apply length_map.
Qed.

Lemma quad_list_length (q : quad) : List.length (quad_list q) = 4%nat.
Proof. destruct q as [[[? ?] ?] ?]. reflexivity. Qed.

(** C6.  Resolution of the parameters of an improper of four distinct
    atoms, against tables of 4-tuples.  The code ([resolve_improper])
    equals the resolution in the words of the claim
    ([spec_resolve_improper]): the scan over the permutations, for each the
    exact harmonic, exact periodic, wildcard harmonic and wildcard periodic
    attempts in that order, then the detection of the center, the retry of
    the scan on the relocated tuple, and an error if that fails too.  The
    permutations scanned are all those of (0, 1, 2, 3) that keep position
    2; the relocated tuple holds the three other types in ascending order
    with the type of the center at position 2. *)
Theorem improper_resolution (mol : Molecule) (prm : ParameterSet)
    (impr : quad) :
  improper_keys_wf prm = true ->
  NoDup (quad_list impr) ->
  resolve_improper mol prm impr = spec_resolve_improper mol prm impr
  /\ (forall p,
        In p perms
        <-> Permutation p [0; 1; 2; 3]%nat /\ nth_error p 2 = Some 2%nat)
  /\ (forall ty',
        relocated_type mol (quad_list impr) = Ok ty' ->
        exists c ct o0 o1 o2 others,
          spec_center (mol_bonds mol) (quad_list impr) = Some c
          /\ In c (quad_list impr)
          /\ types_of mol [c] = Ok [ct]
          /\ types_of mol
               (filter (fun v => negb (v =? c)%nat) (quad_list impr))
             = Ok others
          /\ Permutation [o0; o1; o2] others
          /\ ascending [o0; o1; o2] = true
          /\ ty' = [o0; o1; ct; o2]).
Proof.
  intros Hwf Hnd.
  assert (Hreloc := fun ty' =>
            relocated_type_spec mol (quad_list impr) ty' Hnd
              (quad_list_length impr)).
  split; [|split; [exact perms_spec | exact Hreloc]].
  unfold resolve_improper, spec_resolve_improper.
  destruct (types_of mol (quad_list impr)) as [ty|e] eqn:Ety; [|reflexivity].
  cbn [bind].
  rewrite (getImproperParameter_spec prm ty Hwf)
    by (rewrite (types_of_length _ _ _ Ety); apply quad_list_length).
  destruct (spec_scan prm ty) as [r|]; [reflexivity|].
  destruct (relocated_type mol (quad_list impr)) as [ty'|e] eqn:Er.
  - destruct (Hreloc ty' eq_refl)
      as (c & ct & o0 & o1 & o2 & others & Hc & _ & _ & _ & _ & _ & ->).
    rewrite Hc. cbn [bind].
    rewrite (getImproperParameter_spec prm _ Hwf) by reflexivity.
    destruct (spec_scan prm _); reflexivity.
  - cbn [bind]. destruct (spec_center _ _); reflexivity.
Qed.

(** Witness of C6: the planar center stored first; the first scan fails,
    the center is relocated and the exact periodic entry is found before
    the wildcard harmonic one. *)
Lemma improper_resolution_witness :
  resolve_improper ex2_mol ex2_prm (0, 1, 2, 3)%nat
  = Ok (From_improper_periodic_types (mk_DihedralType 1 180 2 1 1))
  /\ spec_scan ex2_prm ["C"; "H"; "N"; "O"]%string = None
  /\ relocated_type ex2_mol [0; 1; 2; 3]%nat
     = Ok ["H"; "N"; "C"; "O"]%string.
Proof.
  destruct (improper_resolution ex2_mol ex2_prm (0, 1, 2, 3)%nat) as (H & _ & _).
  - reflexivity.
  - repeat constructor; simpl; lia.
  - split; [rewrite H; reflexivity|]. split; reflexivity.
Defined.

(** ** The exclusion and bond tables built by [init] *)

Lemma nth_list_upd {A : Type} (i k : nat) (g : A -> A) (l : list A) (d : A) :
  nth k (list_upd i g l) d
  = if (k =? i)%nat && (i <? List.length l)%nat then g (nth k l d)
    else nth k l d.
Proof.
  revert i k. induction l as [|x r IH]; intros i k.
  - destruct i; simpl; rewrite andb_false_r; reflexivity.
  - destruct i as [|i], k as [|k]; simpl; auto.
Qed.

Lemma append_at_In {A : Type} (i : nat) (v : A) (tbl tbl' : list (list A)) :
  append_at i v tbl = Ok tbl' ->
  List.length tbl' = List.length tbl
  /\ forall k x, In x (nth k tbl' []) <-> In x (nth k tbl []) \/ (k = i /\ x = v).
Proof.
  unfold append_at. destruct (Nat.ltb_spec i (List.length tbl)) as [Hi|Hi];
    [|discriminate].
  intros H. injection H as <-. split; [apply list_upd_length|].
  intros k x. rewrite nth_list_upd.
  destruct (Nat.eqb_spec k i) as [->|Hne]; simpl.
  - destruct (Nat.ltb_spec i (List.length tbl)); [|lia].
    rewrite in_app_iff. simpl. intuition congruence.
  - intuition congruence.
Qed.

Lemma bond_loop_In ts prm bonds e p bv e' p' bv' :
  forM bonds (bond_step ts prm) (e, p, bv) = Ok (e', p', bv') ->
  (forall k x, In x (nth k e' []) <-> In x (nth k e []) \/ bond_entry bonds k x)
  /\ (forall k x,
        In x (nth k p' []) <-> In x (nth k p []) \/ bond_entry bonds k x).
Proof.
  revert e p bv. induction bonds as [|[b0 b1] r IH]; intros e p bv H.
  - simpl in H. injection H as <- <- <-.
    split; intros k x; split; auto; intros [H|(? & ? & [] & _)]; exact H.
  - cbn [forM] in H. bind_inv H. destruct x as [[e1 p1] bv1].
    unfold bond_step in Hx. bind_inv Hx. bind_inv Hx. bind_inv Hx.
    bind_inv Hx. bind_inv Hx. bind_inv Hx. injection Hx as <- <- <-.
    apply append_at_In in Hx1 as [_ He], Hx2 as [_ Hp].
    apply IH in H as [IHe IHp].
    split; intros k y; [rewrite IHe, He | rewrite IHp, Hp];
      unfold bond_entry; split.
    + intros [[H|[-> ->]]|(c0 & c1 & Hin & Hm)]; auto.
      * right. exists b0, b1. simpl. auto.
      * right. exists c0, c1. simpl. auto.
    + intros [H|(c0 & c1 & [Hin|Hin] & Hm1 & Hm2)]; auto.
      * injection Hin as <- <-. auto.
      * right. exists c0, c1. auto.
    + intros [[H|[-> ->]]|(c0 & c1 & Hin & Hm)]; auto.
      * right. exists b0, b1. simpl. auto.
      * right. exists c0, c1. simpl. auto.
    + intros [H|(c0 & c1 & [Hin|Hin] & Hm1 & Hm2)]; auto.
      * injection Hin as <- <-. auto.
      * right. exists c0, c1. auto.
Qed.

Lemma angle_loop_In ts prm angs e e' rows :
  angle_loop ts prm angs e = Ok (e', rows) ->
  forall k x, In x (nth k e' []) <-> In x (nth k e []) \/ angle_entry angs k x.
Proof.
  revert e e' rows. induction angs as [|[[a0 a1] a2] r IH]; intros e e' rows H.
  - simpl in H. injection H as <- <-.
    intros k x; split; auto. intros [H|(? & ? & ? & [] & _)]; exact H.
  - cbn [angle_loop] in H. bind_inv H. bind_inv H. bind_inv H. bind_inv H.
    destruct x2 as [e2 rows2]. injection H as <- <-.
    apply append_at_In in Hx as [_ He]. specialize (IH _ _ _ Hx2).
    intros k y. rewrite IH, He. unfold angle_entry. split.
    + intros [[H|[-> ->]]|(c0 & c1 & c2 & Hin & Hm)]; auto.
      * right. exists a0, a1, a2. simpl. auto.
      * right. exists c0, c1, c2. simpl. auto.
    + intros [H|(c0 & c1 & c2 & [Hin|Hin] & Hm1 & Hm2)]; auto.
      * injection Hin as <- <- <-. auto.
      * right. exists c0, c1, c2. auto.
Qed.

Lemma _ispaired_row_padded (row : list nat) (k : nat) (j : nat) :
  _ispaired_row (map Z.of_nat row ++ repeat (-1)%Z k) (Z.of_nat j) = true
  <-> In j row.
Proof.
  induction row as [|x r IH]; simpl.
  - destruct k; simpl; split; (discriminate || tauto).
  - destruct (Z.eqb_spec (Z.of_nat x) (-1)); [lia|].
    destruct (Z.eqb_spec (Z.of_nat x) (Z.of_nat j)) as [E|E].
    + apply Nat2Z.inj in E. tauto.
    + rewrite IH. split; [tauto|]. intros [->|H]; [congruence | exact H].
Qed.

Lemma _ispaired_int_array (nl : list (list nat)) (i j : nat) :
  _ispaired (int_array nl) i j = true <-> In j (nth i nl []).
Proof.
  unfold _ispaired, int_array, nestedListToArray.
  destruct (map (map Z.of_nat) nl) as [|r0 rs] eqn:E.
  - destruct nl; [|discriminate].
    destruct i as [|[|i]]; simpl; split; (discriminate || tauto).
  - rewrite <- E. clear E r0 rs.
    assert (Hw : forall row, In row nl ->
              (List.length row
               <= list_max (map (@List.length Z) (map (map Z.of_nat) nl)))%nat).
    { intros row Hrow.
      pose proof (proj1 (list_max_le _ _) (Nat.le_refl
        (list_max (map (@List.length Z) (map (map Z.of_nat) nl))))) as Hle.
      rewrite Forall_forall in Hle.
      rewrite <- (length_map Z.of_nat). apply Hle.
      apply in_map, in_map, Hrow. }
    set (w := list_max (map (@List.length Z) (map (map Z.of_nat) nl))) in *.
    destruct (Nat.ltb_spec i (List.length nl)) as [Hi|Hi].
    + destruct (Nat.eqb_spec w 0) as [E0|E0].
      * assert (Hnil : nth i nl [] = []).
        { pose proof (Hw _ (nth_In nl [] Hi)) as Hl.
          destruct (nth i nl []); [reflexivity | simpl in Hl; lia]. }
        rewrite Hnil.
        rewrite (nth_indep _ [] [(-1)%Z]) by (rewrite !length_map; exact Hi).
        rewrite (map_nth (fun _ => [(-1)%Z]) (map (map Z.of_nat) nl) []).
        simpl. split; (discriminate || tauto).
      * rewrite (nth_indep _ [] (pad_row w (-1)%Z (map Z.of_nat [])))
          by (rewrite !length_map; exact Hi).
        rewrite (map_nth (pad_row w (-1)%Z)), (map_nth (map Z.of_nat)).
        unfold pad_row. apply _ispaired_row_padded.
    + rewrite (nth_overflow nl) by exact Hi.
      rewrite nth_overflow.
      * simpl. split; (discriminate || tauto).
      * destruct (w =? 0)%nat; rewrite !length_map; exact Hi.
Qed.

Lemma nth_repeat_nil {A : Type} (k n : nat) : nth k (repeat (@nil A) n) [] = [].
Proof.
  revert k. induction n as [|n IH]; intros [|k]; simpl; auto.
Qed.

(** X29.  The tables [init] hands to the pair loop: row [i] of the
    exclusion table holds [j] exactly for the sorted pairs of the bonds
    (1-2) and of the angle ends (1-3) of the molecule, row [i] of the bond
    table exactly for the sorted pairs of the bonds. *)
Lemma init_exclusions mol prm tp i j :
  init mol prm = Ok tp ->
  (_ispaired (excl tp) i j = true
   <-> bond_entry (mol_bonds mol) i j \/ angle_entry (mol_angles mol) i j)
  /\ (_ispaired (bonda tp) i j = true <-> bond_entry (mol_bonds mol) i j).
Proof.
  unfold init. intros H.
  apply bind_Ok in H as (atys & _ & H).
  apply bind_Ok in H as (nbf & _ & H).
  apply bind_Ok in H as ([[e1 p1] bv1] & Hb & H).
  apply bind_Ok in H as ([e2 rows] & Ha & H).
  apply bind_Ok in H as ([dst dprm] & _ & H).
  apply bind_Ok in H as (iprm & _ & H).
  injection H as <-.
  cbn [excl bonda]. rewrite !_ispaired_int_array.
  apply bond_loop_In in Hb as [He Hp].
  pose proof (angle_loop_In _ _ _ _ _ _ Ha) as Ha'.
  split.
  - change (@nil nat) with (np_unique Nat.compare []) at 1.
    rewrite (map_nth (np_unique Nat.compare)), np_unique_In, Ha', He.
    rewrite nth_repeat_nil. simpl. tauto.
  - rewrite Hp, nth_repeat_nil. simpl. tauto.
Qed.

(** ** Repeated dihedrals *)

(** *** The kernel on a row of NaN *)

Lemma ntorsions_of_nan (w : nat) :
  (0 < w)%nat -> ntorsions_of (repeat None w) = 0%nat.
Proof. destruct w; [lia|]. reflexivity. Qed.

Lemma _evaluate_torsion_nan nu pos (w : nat) bx pot force :
  (0 < w)%nat ->
  _evaluate_torsion nu pos (repeat None w) bx = Ok (pot, force) ->
  pot = 0 /\ force = (vzero, vzero, vzero, vzero).
Proof.
  intros Hw H. unfold _evaluate_torsion in H.
  rewrite (ntorsions_of_nan w Hw) in H. cbn [seq forM] in H.
  bind_inv H. destruct x as [[[phi r12] r23] r34]. cbn [bind] in H.
  do 4 bind_inv H.
  apply fdiv_Ok in Hx0 as [_ ->], Hx1 as [_ ->].
  injection H as <- <-. split; [reflexivity|].
  destruct (cross r12 r23) as [[a0 a1] a2], (cross r23 r34) as [[b0 b1] b2].
  unfold vsub, vadd, vscale, vzero.
  repeat f_equal; unfold Rdiv; ring.
Qed.

(** The kernel returns only where its three divisors are not zero. *)
Lemma _evaluate_torsion_Ok nu pos tp bx pot force :
  _evaluate_torsion nu pos tp bx = Ok (pot, force) ->
  exists phi r12 r23 r34,
    dihedralAngleFull nu pos bx = Ok (phi, r12, r23, r34)
    /\ dot (cross r12 r23) (cross r12 r23) <> 0
    /\ dot (cross r23 r34) (cross r23 r34) <> 0
    /\ dot r23 r23 <> 0.
Proof.
  intros H. unfold _evaluate_torsion in H.
  bind_inv H. destruct x as [[[phi r12] r23] r34]. cbn [bind] in H.
  bind_inv H. destruct x as [p c]. do 4 bind_inv H.
  apply fdiv_Ok in Hx1 as [H1 _], Hx2 as [H2 _], Hx3 as [H3 _].
  exists phi, r12, r23, r34. auto.
Qed.

Lemma torsion_step_nan nu coords box t f q (w : nat) st st' :
  (0 < w)%nat ->
  torsion_step nu coords box t f q (repeat None w) st = Ok st' -> st' = st.
Proof.
  intros Hw H. unfold torsion_step in H. destruct q as [[[i0 i1] i2] i3].
  bind_inv H. destruct x as [pot [[[f0 f1] f2] f3]].
  apply _evaluate_torsion_nan in Hx as [-> Hf]; [|exact Hw].
  injection Hf as -> -> -> ->. injection H as <-.
  repeat first [ rewrite add_atmnrg_zero by lra
               | rewrite add_force_zero by reflexivity ].
  apply add_energy_zero. reflexivity.
Qed.

(** *** The loop over the rows *)

Lemma forM_map {A B S : Type} (g : A -> B) (body : B -> S -> res S)
    (xs : list A) (st : S) :
  forM (map g xs) body st = forM xs (fun x => body (g x)) st.
Proof.
  revert st. induction xs as [|x r IH]; simpl; intros st; [reflexivity|].
  destruct (body (g x) st); simpl; auto.
Qed.

Lemma torsion_loop_rows nu coords box t qs ps f st :
  forM (seq 0 (List.length qs)) (torsion_body nu coords box t qs ps f) st
  = forM (rows_of qs ps)
         (fun qr => torsion_step nu coords box t f (fst qr) (snd qr)) st.
Proof. unfold rows_of. rewrite forM_map. reflexivity. Qed.

Lemma seq_from (n m : nat) : seq n m = map (fun i => (n + i)%nat) (seq 0 m).
Proof.
  induction n as [|n IH]; simpl.
  - symmetry. apply map_id.
  - rewrite <- seq_shift, IH, map_map. reflexivity.
Qed.

Lemma rows_of_app (q1 q2 : list quad) (p1 p2 : list (list (option R))) :
  List.length p1 = List.length q1 ->
  rows_of (q1 ++ q2) (p1 ++ p2) = rows_of q1 p1 ++ rows_of q2 p2.
Proof.
  intros Hlen. unfold rows_of.
  rewrite length_app, seq_app, map_app. f_equal.
  - apply map_ext_in. intros i Hi. apply in_seq in Hi.
    rewrite !app_nth1 by lia. reflexivity.
  - simpl. rewrite seq_from, map_map.
    apply map_ext. intros i.
    rewrite app_nth2_plus. rewrite <- Hlen. rewrite app_nth2_plus. reflexivity.
Qed.

Lemma rows_of_cons (q : quad) (qs : list quad) (p : list (option R))
    (ps : list (list (option R))) :
  rows_of (q :: qs) (p :: ps) = (q, p) :: rows_of qs ps.
Proof.
  unfold rows_of. cbn [List.length seq map nth]. f_equal.
  rewrite <- seq_shift, map_map. reflexivity.
Qed.

(** The dihedral loop with a row of NaN inserted: when it returns, the
    loop without the row returns the same accumulators. *)
Lemma torsion_loop_insert_nan nu coords box t f q1 q2 p1 p2 d (w : nat)
    st st' :
  List.length p1 = List.length q1 ->
  (0 < w)%nat ->
  forM (seq 0 (List.length (q1 ++ d :: q2)))
       (torsion_body nu coords box t (q1 ++ d :: q2)
          (p1 ++ repeat None w :: p2) f) st = Ok st' ->
  forM (seq 0 (List.length (q1 ++ q2)))
       (torsion_body nu coords box t (q1 ++ q2) (p1 ++ p2) f) st = Ok st'.
Proof.
  intros Hlen Hw. rewrite !torsion_loop_rows.
  rewrite !rows_of_app by exact Hlen. rewrite rows_of_cons.
  rewrite !forM_app. intros H. bind_inv H. rewrite Hx. cbn [bind].
  cbn [forM fst snd] in H. bind_inv H.
  apply torsion_step_nan in Hx0; [|exact Hw]. subst. exact H.
Qed.

Lemma frame_eval_insert_nan nu coords box (a : ffargs) f q1 q2 p1 p2 d
    (w : nat) st :
  dihedrals a = q1 ++ q2 ->
  dihedral_params a = p1 ++ p2 ->
  List.length p1 = List.length q1 ->
  (0 < w)%nat ->
  frame_eval nu coords box
    (with_topo a (set_dihedrals a (q1 ++ d :: q2)
                    (p1 ++ repeat None w :: p2))) f = Ok st ->
  frame_eval nu coords box a f = Ok st.
Proof.
  intros Hq Hp Hlen Hw H. unfold frame_eval in *.
  set (a' := with_topo a _) in H.
  change (natoms coords) with (natoms coords) in H.
  change (pair_loop nu coords box a' f) with (pair_loop nu coords box a f) in H.
  bind_inv H. rewrite Hx. cbn [bind].
  change (usersets a') with (usersets a) in H.
  destruct (usersets a); [exact H|].
  change (angles a') with (angles a) in H.
  change (angle_body nu coords box a' f) with (angle_body nu coords box a f) in H.
  bind_inv H. rewrite Hx0. cbn [bind].
  change (dihedrals a') with (q1 ++ d :: q2) in H.
  change (dihedral_params a') with (p1 ++ repeat None w :: p2) in H.
  change (impropers a') with (impropers a) in H.
  change (improper_params a') with (improper_params a) in H.
  bind_inv H.
  apply torsion_loop_insert_nan in Hx1; [|exact Hlen|exact Hw].
  rewrite Hq, Hp, Hx1. cbn [bind]. exact H.
Qed.

Lemma mapM_weaken {A B : Type} (g g' : A -> res B) (xs : list A)
    (ys : list B) :
  (forall x y, g' x = Ok y -> g x = Ok y) ->
  mapM g' xs = Ok ys -> mapM g xs = Ok ys.
Proof.
  intros Hg. revert ys. induction xs as [|x r IH]; simpl; intros ys H;
    [exact H|].
  bind_inv H. bind_inv H. injection H as <-.
  rewrite (Hg _ _ Hx), (IH _ Hx0). reflexivity.
Qed.

Lemma _ffevaluate_insert_nan nu coords box (a : ffargs) q1 q2 p1 p2 d
    (w : nat) res :
  dihedrals a = q1 ++ q2 ->
  dihedral_params a = p1 ++ p2 ->
  List.length p1 = List.length q1 ->
  (0 < w)%nat ->
  _ffevaluate nu coords box
    (with_topo a (set_dihedrals a (q1 ++ d :: q2)
                    (p1 ++ repeat None w :: p2))) = Ok res ->
  _ffevaluate nu coords box a = Ok res.
Proof.
  intros Hq Hp Hlen Hw. unfold _ffevaluate. apply mapM_weaken.
  intros f st. apply frame_eval_insert_nan; assumption.
Qed.

(** *** The dihedral loop of [init] *)

Lemma list_nat_eqb_eq (l1 l2 : list nat) :
  list_nat_eqb l1 l2 = true <-> l1 = l2.
Proof.
  revert l2. induction l1 as [|x r IH]; intros [|y r2]; simpl;
    try (split; [discriminate | congruence]); [tauto|].
  rewrite andb_true_iff, Nat.eqb_eq, IH. split.
  - intros [-> ->]. reflexivity.
  - intros H. injection H as -> ->. auto.
Qed.

Lemma already_In (k : list nat) (l : list (list nat)) :
  existsb (list_nat_eqb k) l = true <-> In k l.
Proof.
  rewrite existsb_exists. split.
  - intros (x & Hx & E). apply list_nat_eqb_eq in E. subst. exact Hx.
  - intros H. exists k. split; [exact H | apply list_nat_eqb_eq; reflexivity].
Qed.

Lemma dihedral_step_added ts prm d st st' row :
  dihedral_step ts prm d st = Ok (st', row) ->
  (forall x, In x (alreadyadded st) -> In x (alreadyadded st'))
  /\ In (stringrep d) (alreadyadded st')
  /\ (~ In (stringrep d) (alreadyadded st) -> (0 < List.length row)%nat).
Proof.
  unfold dihedral_step. intros H.
  destruct (existsb _ _) eqn:E.
  - injection H as <- <-. apply already_In in E. tauto.
  - bind_inv H. bind_inv H. destruct d as [[[d0 d1] d2] d3].
    bind_inv H. bind_inv H. bind_inv H. bind_inv H. bind_inv H.
    injection H as <- <-. cbn [alreadyadded].
    split; [intros y Hy; right; exact Hy|]. split; [left; reflexivity|].
    intros _. destruct x0 as [|dip r]; [discriminate|]. simpl. lia.
Qed.

Lemma dihedral_loop_added ts prm l st st' rows :
  dihedral_loop ts prm l st = Ok (st', rows) ->
  (forall x, In x (alreadyadded st) -> In x (alreadyadded st'))
  /\ (forall d, In d l -> In (stringrep d) (alreadyadded st'))
  /\ List.length rows = List.length l
  /\ (alreadyadded st = [] -> l <> [] ->
      (0 < list_max (map (@List.length R) rows))%nat).
Proof.
  revert st st' rows. induction l as [|d r IH]; simpl; intros st st' rows H.
  - injection H as <- <-. repeat split; auto; try tauto; congruence.
  - bind_inv H. destruct x as [st1 row]. bind_inv H. destruct x as [st2 rows2].
    injection H as <- <-.
    apply dihedral_step_added in Hx as (Hmono1 & Hin1 & Hrow).
    apply IH in Hx0 as (Hmono2 & Hin2 & Hlen & _).
    repeat split.
    + auto.
    + intros d' [<-|Hd]; auto.
    + simpl. f_equal. exact Hlen.
    + intros Hst _. simpl. rewrite Hst in Hrow. specialize (Hrow (fun F => F)).
      lia.
Qed.

Lemma dihedral_loop_app ts prm l1 l2 st :
  dihedral_loop ts prm (l1 ++ l2) st
  = ('(st1, rows1) <- dihedral_loop ts prm l1 st ;;
     '(st2, rows2) <- dihedral_loop ts prm l2 st1 ;;
     Ok (st2, rows1 ++ rows2)).
Proof.
  revert st. induction l1 as [|d r IH]; simpl; intros st.
  - destruct (dihedral_loop ts prm l2 st) as [[st2 rows2]|]; reflexivity.
  - destruct (dihedral_step ts prm d st) as [[st1 row]|]; [|reflexivity].
    cbn [bind]. rewrite IH.
    destruct (dihedral_loop ts prm r st1) as [[st2 rows1]|]; [|reflexivity].
    cbn [bind].
    destruct (dihedral_loop ts prm l2 st2) as [[st3 rows2]|]; reflexivity.
Qed.

(** The loop over a list with a repeated dihedral inserted: the same
    state, and an empty row at the place of the repeated entry. *)
Lemma dihedral_loop_insert ts prm l1 l2 d d0 st st' rows :
  In d0 l1 -> stringrep d0 = stringrep d ->
  dihedral_loop ts prm (l1 ++ l2) st = Ok (st', rows) ->
  exists rows1 rows2,
    rows = rows1 ++ rows2
    /\ List.length rows1 = List.length l1
    /\ dihedral_loop ts prm (l1 ++ d :: l2) st
       = Ok (st', rows1 ++ [] :: rows2)
    /\ (alreadyadded st = [] ->
        (0 < list_max (map (@List.length R) rows1))%nat).
Proof.
  intros Hd0 Hrep H. rewrite dihedral_loop_app in H.
  bind_inv H. destruct x as [st1 rows1]. bind_inv H. destruct x as [st2 rows2].
  injection H as <- <-.
  pose proof (dihedral_loop_added _ _ _ _ _ _ Hx) as (_ & Hin & Hlen & Hmax).
  exists rows1, rows2. repeat split; auto.
  - rewrite dihedral_loop_app, Hx. cbn [bind dihedral_loop].
    unfold dihedral_step at 1.
    rewrite (proj2 (already_In _ _)) by (rewrite <- Hrep; apply Hin, Hd0).
    cbn [bind]. rewrite Hx0. reflexivity.
  - intros Hst. apply Hmax; [exact Hst|]. destruct l1; [contradiction|discriminate].
Qed.

Lemma list_max_app_zero (l1 l2 : list nat) :
  list_max (l1 ++ 0%nat :: l2) = list_max (l1 ++ l2).
Proof. rewrite !list_max_app. simpl. reflexivity. Qed.

Lemma float_array_insert (rows1 rows2 : list (list R)) :
  (0 < list_max (map (@List.length R) rows1))%nat ->
  exists w,
    (0 < w)%nat
    /\ float_array (rows1 ++ rows2)
       = map (pad_row w None) (map (map (@Some R)) rows1)
         ++ map (pad_row w None) (map (map (@Some R)) rows2)
    /\ float_array (rows1 ++ [] :: rows2)
       = map (pad_row w None) (map (map (@Some R)) rows1)
         ++ repeat None w :: map (pad_row w None) (map (map (@Some R)) rows2).
Proof.
  intros Hpos.
  set (w := list_max (map (@List.length (option R))
                          (map (map (@Some R)) (rows1 ++ rows2)))).
  assert (Hw : w = list_max (map (@List.length R) (rows1 ++ rows2))).
  { unfold w. rewrite map_map. f_equal. apply map_ext. intros l.
    apply length_map. }
  assert (Hwpos : (0 < w)%nat).
  { rewrite Hw, map_app, list_max_app. lia. }
  assert (Hw' : list_max (map (@List.length (option R))
                  (map (map (@Some R)) (rows1 ++ [] :: rows2))) = w).
  { unfold w. rewrite !map_app. cbn [map List.length].
    apply list_max_app_zero. }
  exists w. split; [exact Hwpos|]. unfold float_array, nestedListToArray.
  split.
  - fold w. destruct (map (map (@Some R)) (rows1 ++ rows2)) eqn:E.
    + destruct rows1; [simpl in Hpos; lia | discriminate].
    + rewrite <- E. destruct (Nat.eqb_spec w 0); [lia|].
      rewrite !map_app. reflexivity.
  - rewrite Hw'. destruct (map (map (@Some R)) (rows1 ++ [] :: rows2)) eqn:E.
    + destruct rows1; discriminate.
    + rewrite <- E. destruct (Nat.eqb_spec w 0); [lia|].
      rewrite !map_app. cbn [map]. unfold pad_row at 2.
      cbn [List.length app]. rewrite Nat.sub_0_r. reflexivity.
Qed.

(** [init] on the molecule with a repeated dihedral inserted: the same
    arrays, but for the inserted quadruple and its row of NaN. *)
Lemma init_insert_duplicate mol prm l1 l2 d d0 tp :
  mol_dihedrals mol = l1 ++ l2 ->
  In d0 l1 -> stringrep d0 = stringrep d ->
  init mol prm = Ok tp ->
  exists p1 p2 w,
    dihedrals tp = l1 ++ l2
    /\ dihedral_params tp = p1 ++ p2
    /\ List.length p1 = List.length l1
    /\ (0 < w)%nat
    /\ init (with_dihedrals mol (l1 ++ d :: l2)) prm
       = Ok (set_dihedrals tp (l1 ++ d :: l2) (p1 ++ repeat None w :: p2)).
Proof.
  intros Hmol Hd0 Hrep H. unfold init in *.
  unfold numAtoms in *.
  cbn [with_dihedrals atomtype mol_charge mol_bonds mol_angles mol_dihedrals
       mol_impropers].
  bind_inv H. rename x into atys. rewrite Hx. cbn [bind].
  bind_inv H. rename x into nb. rewrite Hx0. cbn [bind].
  bind_inv H. destruct x as [[excl_list bond_pairs] bond_params].
  rewrite Hx1. cbn [bind].
  bind_inv H. destruct x as [excl_list' aprm]. rewrite Hx2. cbn [bind].
  bind_inv H. destruct x as [dst rows].
  bind_inv H. rename x into imps. injection H as <-.
  rewrite Hmol in Hx3.
  destruct (dihedral_loop_insert _ _ _ _ d d0 _ _ _ Hd0 Hrep Hx3)
    as (rows1 & rows2 & -> & Hlen & Hloop & Hmax).
  specialize (Hmax eq_refl).
  destruct (float_array_insert rows1 rows2 Hmax) as (w & Hw & E1 & E2).
  rewrite Hloop. cbn [bind].
  change (resolve_improper (with_dihedrals mol (l1 ++ d :: l2)) prm)
    with (resolve_improper mol prm).
  rewrite Hx4. cbn [bind].
  exists (map (pad_row w None) (map (map (@Some R)) rows1)),
         (map (pad_row w None) (map (map (@Some R)) rows2)), w.
  cbn [dihedrals dihedral_params set_dihedrals typeint excl nbfix sigma
       sigma14 epsilon epsilon14 s14a e14a s14v e14v bonda bondv ELEC_FACTOR
       charge angles angle_params impropers improper_params].
  repeat split.
  - exact Hmol.
  - exact E1.
  - rewrite !length_map. exact Hlen.
  - exact Hw.
  - rewrite E2. reflexivity.
Qed.

Lemma _evaluate_torsion_nan_any nu pos (w : nat) bx :
  (0 < w)%nat ->
  _evaluate_torsion nu pos (repeat None w) bx
  = _evaluate_torsion nu pos [None] bx.
Proof.
  intros Hw. unfold _evaluate_torsion.
  rewrite (ntorsions_of_nan w Hw). reflexivity.
Qed.

Lemma torsion_step_nan_defined nu coords box t f q (w : nat) st :
  (0 < w)%nat ->
  defined (_evaluate_torsion nu (quad_pos coords q f) [None]
             (frame_box box f)) ->
  torsion_step nu coords box t f q (repeat None w) st = Ok st.
Proof.
  intros Hw [[pot force] Hd].
  rewrite <- (_evaluate_torsion_nan_any nu _ w _ Hw) in Hd.
  assert (Hs : defined (torsion_step nu coords box t f q (repeat None w) st)).
  { unfold torsion_step, quad_pos in *. destruct q as [[[i0 i1] i2] i3].
    rewrite Hd. destruct force as [[[f0 f1] f2] f3]. cbn [bind].
    apply defined_Ok. }
  destruct Hs as [st' Hs]. rewrite Hs. f_equal.
  eapply torsion_step_nan; eauto.
Qed.

Lemma torsion_loop_insert_nan_back nu coords box t f q1 q2 p1 p2 d (w : nat)
    st st' :
  List.length p1 = List.length q1 ->
  (0 < w)%nat ->
  defined (_evaluate_torsion nu (quad_pos coords d f) [None]
             (frame_box box f)) ->
  forM (seq 0 (List.length (q1 ++ q2)))
       (torsion_body nu coords box t (q1 ++ q2) (p1 ++ p2) f) st = Ok st' ->
  forM (seq 0 (List.length (q1 ++ d :: q2)))
       (torsion_body nu coords box t (q1 ++ d :: q2)
          (p1 ++ repeat None w :: p2) f) st = Ok st'.
Proof.
  intros Hlen Hw Hd. rewrite !torsion_loop_rows.
  rewrite !rows_of_app by exact Hlen. rewrite rows_of_cons.
  rewrite !forM_app. intros H. bind_inv H. rewrite Hx. cbn [bind].
  cbn [forM fst snd].
  rewrite (torsion_step_nan_defined nu coords box t f d w x Hw Hd).
  cbn [bind]. exact H.
Qed.

Lemma frame_eval_insert_nan_back nu coords box (a : ffargs) f q1 q2 p1 p2 d
    (w : nat) st :
  dihedrals a = q1 ++ q2 ->
  dihedral_params a = p1 ++ p2 ->
  List.length p1 = List.length q1 ->
  (0 < w)%nat ->
  defined (_evaluate_torsion nu (quad_pos coords d f) [None]
             (frame_box box f)) ->
  frame_eval nu coords box a f = Ok st ->
  frame_eval nu coords box
    (with_topo a (set_dihedrals a (q1 ++ d :: q2)
                    (p1 ++ repeat None w :: p2))) f = Ok st.
Proof.
  intros Hq Hp Hlen Hw Hd H. unfold frame_eval in *.
  set (a' := with_topo a _).
  change (pair_loop nu coords box a' f) with (pair_loop nu coords box a f).
  bind_inv H. rewrite Hx. cbn [bind].
  change (usersets a') with (usersets a).
  destruct (usersets a); [exact H|].
  change (angles a') with (angles a).
  change (angle_body nu coords box a' f) with (angle_body nu coords box a f).
  bind_inv H. rewrite Hx0. cbn [bind].
  change (dihedrals a') with (q1 ++ d :: q2).
  change (dihedral_params a') with (p1 ++ repeat None w :: p2).
  change (impropers a') with (impropers a).
  change (improper_params a') with (improper_params a).
  bind_inv H. rewrite Hq, Hp in Hx1.
  apply (torsion_loop_insert_nan_back nu coords box Dihedral f q1 q2 p1 p2 d w)
    in Hx1; [|exact Hlen|exact Hw|exact Hd].
  rewrite Hx1. cbn [bind]. exact H.
Qed.

Lemma mapM_weaken_In {A B : Type} (g g' : A -> res B) (xs : list A)
    (ys : list B) :
  (forall x y, In x xs -> g' x = Ok y -> g x = Ok y) ->
  mapM g' xs = Ok ys -> mapM g xs = Ok ys.
Proof.
  revert ys. induction xs as [|x r IH]; simpl; intros ys Hg H; [exact H|].
  bind_inv H. bind_inv H. injection H as <-.
  rewrite (Hg x x0 (or_introl eq_refl) Hx), (IH _ (fun z y Hz => Hg z y (or_intror Hz)) Hx0).
  reflexivity.
Qed.

(** C7, amended.  A dihedral entry [d] inserted after an entry [d0] with
    the same sorted atom indexes: [init] succeeds as before, the duplicate
    is skipped by the indexer and its parameter row is all NaN.  On every
    coordinate array (and box, sets, cutoff, reaction field) on which the
    evaluation with the added entry returns, the evaluation without it
    returns the same energies, forces and per-atom attributions; and the
    evaluation with the added entry returns what the evaluation without it
    returns whenever the torsion kernel is defined on the four atoms of
    [d] in every frame (it still runs on them, and divides by the squared
    norms of their two cross products and of their middle vector). *)
Theorem duplicate_dihedral_unchanged nu mol prm l1 l2 d d0 tp :
  mol_dihedrals mol = l1 ++ l2 ->
  In d0 l1 -> stringrep d0 = stringrep d ->
  init mol prm = Ok tp ->
  exists tp',
    init (with_dihedrals mol (l1 ++ d :: l2)) prm = Ok tp'
    /\ forall coords box s1 s2 c r sd res,
         (_ffevaluate nu coords box (mk_ffargs tp' s1 s2 c r sd) = Ok res ->
          _ffevaluate nu coords box (mk_ffargs tp s1 s2 c r sd) = Ok res)
         /\ ((forall f, (f < nframes coords)%nat ->
                defined (_evaluate_torsion nu (quad_pos coords d f) [None]
                           (frame_box box f))) ->
             _ffevaluate nu coords box (mk_ffargs tp s1 s2 c r sd) = Ok res ->
             _ffevaluate nu coords box (mk_ffargs tp' s1 s2 c r sd) = Ok res).
Proof.
  intros Hmol Hd0 Hrep Hinit.
  destruct (init_insert_duplicate mol prm l1 l2 d d0 tp Hmol Hd0 Hrep Hinit)
    as (p1 & p2 & w & Hq & Hp & Hlen & Hw & Hinit').
  eexists. split; [exact Hinit'|].
  intros coords box s1 s2 c r sd res. split.
  - intros H.
    exact (_ffevaluate_insert_nan nu coords box (mk_ffargs tp s1 s2 c r sd)
             l1 l2 p1 p2 d w res Hq Hp Hlen Hw H).
  - intros Hdef. unfold _ffevaluate. apply mapM_weaken_In.
    intros f st Hf. apply in_seq in Hf.
    apply (frame_eval_insert_nan_back nu coords box
             (mk_ffargs tp s1 s2 c r sd) f l1 l2 p1 p2 d w st Hq Hp Hlen Hw).
    apply Hdef. change (nframes coords) with (shape2 coords) in *. lia.
Qed.

(** *** On the four atoms with one dihedral *)

Lemma ex3_init : init ex3_mol ex_prm = Ok ex3_topo.
Proof. kcbv. reflexivity. Qed.

Lemma ex3_init_dup :
  init (with_dihedrals ex3_mol [(0, 1, 2, 3); (0, 1, 3, 2)]%nat) ex_prm
  = Ok ex3_topo_dup.
Proof. kcbv. reflexivity. Qed.

Lemma ex3_pair_loop_defined (tp : topo) (st : acc) :
  tp = ex3_topo \/ tp = ex3_topo_dup ->
  defined (pair_loop spec_numbautil ex3_coords ex_box
             (mk_ffargs tp [] [] 0 false 78.5) 0 st).
Proof.
  intros Htp.
  assert (E : pair_loop spec_numbautil ex3_coords ex_box
                (mk_ffargs tp [] [] 0 false 78.5) 0 st
              = pair_loop spec_numbautil ex3_coords ex_box
                  (mk_ffargs ex3_topo [] [] 0 false 78.5) 0 st)
    by (destruct Htp as [->| ->]; reflexivity).
  rewrite E. clear E Htp tp. revert st.
  unfold pair_loop. apply forM_defined.
  apply Forall_forall. intros i Hi st1. apply in_seq in Hi.
  apply forM_defined. apply Forall_forall. intros j Hj st2. apply in_seq in Hj.
  change (natoms ex3_coords) with 4%nat in *.
  assert (H : In (i, j) [(0, 1); (0, 2); (0, 3); (1, 2); (1, 3); (2, 3)]%nat)
    by (simpl; destruct i as [|[|[|i]]]; destruct j as [|[|[|[|j]]]];
        try lia; auto 10).
  simpl in H. repeat destruct H as [H|H]; try contradiction;
    injection H as <- <-; ev_defined.
Qed.

Lemma ex3_dihedral_defined (st : acc) :
  defined (torsion_step spec_numbautil ex3_coords ex_box Dihedral 0
             (0, 1, 2, 3)%nat [Some 1; Some (radians 0); Some 1] st).
Proof.
  apply (torsion_body_defined spec_numbautil ex3_coords ex_box Dihedral
           [(0, 1, 2, 3)%nat] [[Some 1; Some (radians 0); Some 1]] 0 0 st).
  ev_defined.
Qed.

Lemma ex3_duplicate_raises (st : acc) :
  torsion_step spec_numbautil ex3_coords ex_box Dihedral 0
    (0, 1, 3, 2)%nat [None; None; None] st
  = Raise ZeroDivisionError.
Proof. ev. reflexivity. Qed.

Lemma ex3_ffevaluate_defined :
  defined (_ffevaluate spec_numbautil ex3_coords ex_box
             (mk_ffargs ex3_topo [] [] 0 false 78.5)).
Proof.
  unfold _ffevaluate. apply mapM_defined.
  change (nframes ex3_coords) with 1%nat. repeat constructor.
  unfold frame_eval.
  apply defined_bind; [apply ex3_pair_loop_defined; auto | intros st1 _].
  cbn [usersets set1 set2 List.length Nat.ltb Nat.leb orb angles ff_topo
       ex3_topo seq forM bind dihedrals impropers].
  apply defined_bind; [|intros st2 _; apply defined_Ok].
  apply defined_bind; [apply ex3_dihedral_defined | intros st3 _].
  apply defined_Ok.
Qed.

(** C7, as the claim states it, fails.  The four atoms have the dihedral
    (0, 1, 2, 3); the entry (0, 1, 3, 2) repeats it (same sorted indexes).
    The atoms 0, 1 and 3 are on a line: without the repeated entry the
    evaluation returns, with it the torsion kernel runs on the repeated
    entry, meets the zero cross product and raises [ZeroDivisionError]. *)
Lemma duplicate_dihedral_counterexample :
  init ex3_mol ex_prm = Ok ex3_topo
  /\ init (with_dihedrals ex3_mol [(0, 1, 2, 3); (0, 1, 3, 2)]%nat) ex_prm
     = Ok ex3_topo_dup
  /\ stringrep (0, 1, 3, 2)%nat = stringrep (0, 1, 2, 3)%nat
  /\ defined (_ffevaluate spec_numbautil ex3_coords ex_box
                (mk_ffargs ex3_topo [] [] 0 false 78.5))
  /\ _ffevaluate spec_numbautil ex3_coords ex_box
       (mk_ffargs ex3_topo_dup [] [] 0 false 78.5)
     = Raise ZeroDivisionError.
Proof.
  split; [exact ex3_init|]. split; [exact ex3_init_dup|].
  split; [reflexivity|]. split; [exact ex3_ffevaluate_defined|].
  unfold _ffevaluate. change (nframes ex3_coords) with 1%nat.
  cbn [seq mapM]. unfold frame_eval.
  destruct (ex3_pair_loop_defined ex3_topo_dup (acc_zero (natoms ex3_coords))
              (or_intror eq_refl)) as [st1 ->].
  cbn [bind usersets set1 set2 List.length Nat.ltb Nat.leb orb angles ff_topo
       ex3_topo_dup ex3_topo set_dihedrals seq forM dihedrals].
  change (dihedral_params ex3_topo_dup)
    with [[Some 1; Some (radians 0); Some 1]; [@None R; None; None]].
  unfold torsion_body at 1. cbn [nth].
  destruct (ex3_dihedral_defined st1) as [st2 ->]. cbn [bind].
  unfold torsion_body at 1. cbn [nth].
  rewrite ex3_duplicate_raises. reflexivity.
Qed.

(** Witness of C7 (amended): the chain with the dihedral (0, 1, 2, 3)
    repeated in reverse order, (3, 2, 1, 0). *)
Lemma duplicate_dihedral_unchanged_witness :
  exists tp',
    init (with_dihedrals ex_mol ([(0, 1, 2, 3)] ++ (3, 2, 1, 0) :: [])%nat)
      ex_prm = Ok tp'
    /\ forall coords box s1 s2 c r sd res,
         (_ffevaluate spec_numbautil coords box (mk_ffargs tp' s1 s2 c r sd)
          = Ok res ->
          _ffevaluate spec_numbautil coords box
            (mk_ffargs ex_topo s1 s2 c r sd) = Ok res)
         /\ ((forall f, (f < nframes coords)%nat ->
                defined (_evaluate_torsion spec_numbautil
                           (quad_pos coords (3, 2, 1, 0)%nat f) [None]
                           (frame_box box f))) ->
             _ffevaluate spec_numbautil coords box
               (mk_ffargs ex_topo s1 s2 c r sd) = Ok res ->
             _ffevaluate spec_numbautil coords box
               (mk_ffargs tp' s1 s2 c r sd) = Ok res).
Proof.
  apply (duplicate_dihedral_unchanged spec_numbautil ex_mol ex_prm
           [(0, 1, 2, 3)%nat] [] (3, 2, 1, 0)%nat (0, 1, 2, 3)%nat ex_topo).
  - reflexivity.
  - left. reflexivity.
  - reflexivity.
  - exact ex_init.
Defined.

(** ** [calculate] on a two-dimensional coordinates array *)

Lemma buffer_of_old (h h' : heap) (x : ndarray) :
  (base x < List.length h)%nat -> buffer_of (h ++ h') x = buffer_of h x.
Proof. intros H. unfold buffer_of. apply app_nth1. exact H. Qed.

Lemma buffer_of_new (h : heap) (b : list R) (h' : heap) (sh : list nat) :
  buffer_of (h ++ b :: h') (mk_ndarray (List.length h) sh) = b.
Proof.
  unfold buffer_of. cbn [base]. rewrite app_nth2 by lia.
  rewrite Nat.sub_diag. reflexivity.
Qed.

(** What [calculate] does once the coordinates have three dimensions:
    the heap grows, and the result depends on the entries only. *)
Lemma calculate_3d nu self (c : ndarray) box (h : heap) (n s1 nfr : nat) :
  shape c = [n; s1; nfr] ->
  (base c < List.length h)%nat ->
  (forall b, box = Some b -> (base b < List.length h)%nat) ->
  exists h' boxdata,
    fst (calculate nu self c box h) = h ++ h'
    /\ boxdata = match box with
                 | Some b => buffer_of h b
                 | None => repeat 0 (3 * (nfr * 1))
                 end
    /\ snd (calculate nu self c box h)
       = match (match box with Some b => shape b | None => [3; nfr]%nat end)
         with
         | [] => Raise IndexError
         | b0 :: rest =>
             if negb (b0 =? 3)%nat then Raise ValueError
             else
               match rest with
               | [] => Raise IndexError
               | [b1] =>
                   if negb (b1 =? nfr)%nat then Raise ValueError
                   else
                     _ffevaluate nu
                       (mk_ndarray3 n s1 nfr
                          (fun i k f =>
                             nth ((i * s1 + k) * nfr + f) (buffer_of h c) 0))
                       (mk_ndarray2 b0 b1
                          (fun k f => nth (k * b1 + f) boxdata 0))
                       self
               | b1 :: _ =>
                   if negb (b1 =? nfr)%nat then Raise ValueError
                   else Raise TypeError
               end
         end.
Proof.
  intros Hshape Hc Hbox. unfold calculate. rewrite Hshape.
  cbn [List.length Nat.eqb]. rewrite Hshape. cbn [nth_error].
  destruct box as [b|]; cbn iota beta.
  - specialize (Hbox b eq_refl).
    destruct (shape b) as [|b0 [|b1 rest]] eqn:Eb.
    + exists [], (buffer_of h b). rewrite app_nil_r. auto.
    + exists [], (buffer_of h b). rewrite app_nil_r.
      destruct (negb (b0 =? 3)%nat); auto.
    + destruct (negb (b0 =? 3)%nat);
        [exists [], (buffer_of h b); rewrite app_nil_r;
         destruct rest; auto|].
      destruct (negb (b1 =? nfr)%nat);
        [exists [], (buffer_of h b); rewrite app_nil_r;
         destruct rest; auto|].
      unfold astype, copy. cbn [shape]. rewrite Hshape, Eb.
      exists [buffer_of h c; buffer_of (h ++ [buffer_of h c]) b],
             (buffer_of h b).
      assert (E1 : buffer_of ((h ++ [buffer_of h c])
                              ++ [buffer_of (h ++ [buffer_of h c]) b])
                     {| base := List.length h; shape := [n; s1; nfr] |}
                   = buffer_of h c)
        by (rewrite <- app_assoc; apply buffer_of_new).
      assert (E2 : buffer_of ((h ++ [buffer_of h c])
                              ++ [buffer_of (h ++ [buffer_of h c]) b])
                     {| base := List.length (h ++ [buffer_of h c]);
                        shape := b0 :: b1 :: rest |}
                   = buffer_of h b)
        by (rewrite buffer_of_new; apply buffer_of_old, Hbox).
      destruct rest as [|b2 rest]; cbn [fst snd].
      * split; [rewrite <- app_assoc; reflexivity|].
        split; [reflexivity|].
        unfold view3, view2. rewrite E1, E2. reflexivity.
      * split; [rewrite <- app_assoc; reflexivity|]. auto.
  - unfold zeros, astype, copy. cbn [shape fold_right].
    rewrite Hshape. rewrite !Nat.eqb_refl. cbn [negb].
    set (z := repeat 0 (3 * (nfr * 1))).
    exists [z; buffer_of (h ++ [z]) c;
            buffer_of ((h ++ [z]) ++ [buffer_of (h ++ [z]) c])
              {| base := List.length h; shape := [3%nat; nfr] |}], z.
    cbn [fst snd]. split; [rewrite <- !app_assoc; reflexivity|].
    split; [reflexivity|].
    unfold view3, view2.
    assert (E0 : buffer_of (h ++ [z]) c = buffer_of h c)
      by (apply buffer_of_old, Hc).
    assert (E1 : buffer_of ((h ++ [z]) ++ [buffer_of (h ++ [z]) c])
                   {| base := List.length h; shape := [3%nat; nfr] |} = z)
      by (rewrite <- app_assoc; apply buffer_of_new).
    rewrite E1.
    assert (E2 : buffer_of (((h ++ [z]) ++ [buffer_of (h ++ [z]) c]) ++ [z])
                   {| base := List.length (h ++ [z]); shape := [n; s1; nfr] |}
                 = buffer_of h c)
      by (rewrite <- (app_assoc (h ++ [z])); cbn [app];
          rewrite buffer_of_new; exact E0).
    assert (E3 : buffer_of (((h ++ [z]) ++ [buffer_of (h ++ [z]) c]) ++ [z])
                   {| base := List.length ((h ++ [z]) ++ [buffer_of (h ++ [z]) c]);
                      shape := [3%nat; nfr] |} = z)
      by apply buffer_of_new.
    rewrite E2, E3. reflexivity.
Qed.

(** A two-dimensional array is copied with a trailing axis of length 1,
    and [calculate] goes on with the copy. *)
Lemma calculate_2d nu self (c : ndarray) box (h : heap) (n s1 : nat) :
  shape c = [n; s1] ->
  calculate nu self c box h
  = calculate nu self (mk_ndarray (List.length h) [n; s1; 1%nat]) box
      (h ++ [buffer_of h c]).
Proof.
  intros Hshape. unfold calculate at 1. rewrite Hshape.
  cbn [List.length Nat.eqb]. unfold copy, newaxis. cbn [shape base].
  rewrite Hshape. cbn [app].
  unfold calculate. cbn [shape List.length Nat.eqb].
  unfold buffer_of at 1. cbn [base]. reflexivity.
Qed.

(** C10.  A coordinates array of shape (natoms, 3) in the caller's heap:
    [calculate] returns what it returns for an array of shape
    (natoms, 3, 1) with the same entries, every result it returns has one
    frame, and the heap it leaves is the caller's heap followed by new
    buffers: no buffer of the caller is written. *)
Theorem calculate_2d_single_frame nu self (c c3 : ndarray) box (h : heap)
    (n : nat) :
  shape c = [n; 3%nat] ->
  (base c < List.length h)%nat ->
  shape c3 = [n; 3%nat; 1%nat] ->
  (base c3 < List.length h)%nat ->
  buffer_of h c3 = buffer_of h c ->
  (forall b, box = Some b -> (base b < List.length h)%nat) ->
  snd (calculate nu self c box h) = snd (calculate nu self c3 box h)
  /\ (forall res, snd (calculate nu self c box h) = Ok res ->
                  List.length res = 1%nat)
  /\ (exists h', fst (calculate nu self c box h) = h ++ h').
Proof.
  intros Hshape Hc Hshape3 Hc3 Hbuf Hbox.
  rewrite (calculate_2d nu self c box h n 3 Hshape).
  set (h1 := h ++ [buffer_of h c]).
  set (c1 := mk_ndarray (List.length h) [n; 3%nat; 1%nat]).
  assert (Hc1 : (base c1 < List.length h1)%nat)
    by (unfold h1, c1; rewrite length_app; simpl; lia).
  assert (Hbox1 : forall b, box = Some b -> (base b < List.length h1)%nat)
    by (intros b Hb; unfold h1; rewrite length_app; specialize (Hbox b Hb); lia).
  destruct (calculate_3d nu self c1 box h1 n 3 1 eq_refl Hc1 Hbox1)
    as (h' & bd & Hfst & Hbd & Hsnd).
  destruct (calculate_3d nu self c3 box h n 3 1 Hshape3 Hc3 Hbox)
    as (h3 & bd3 & _ & Hbd3 & Hsnd3).
  assert (Ebuf : buffer_of h1 c1 = buffer_of h c)
    by (unfold h1, c1; apply buffer_of_new).
  assert (Ebd : bd = bd3).
  { subst bd bd3. destruct box as [b|]; [|reflexivity].
    unfold h1. apply buffer_of_old, Hbox. reflexivity. }
  split; [|split].
  - rewrite Hsnd, Hsnd3, Ebuf, Hbuf, Ebd. reflexivity.
  - intros res Hres. rewrite Hsnd in Hres.
    destruct (match box with Some b => shape b | None => [3%nat; 1%nat] end)
      as [|b0 [|b1 rest]]; try discriminate;
      destruct (negb (b0 =? 3)%nat); try discriminate.
    destruct (negb (b1 =? 1)%nat); destruct rest; try discriminate.
    unfold _ffevaluate in Hres. apply mapM_length in Hres.
    rewrite Hres. reflexivity.
  - exists ([buffer_of h c] ++ h'). rewrite Hfst. unfold h1.
    rewrite app_assoc. reflexivity.
Qed.

(** Witness of C10: the coordinates of the chain as an array of shape
    (4, 3), no box. *)
Lemma calculate_2d_single_frame_witness :
  snd (calculate spec_numbautil ex_args ex_coords2d None ex_heap)
  = snd (calculate spec_numbautil ex_args (mk_ndarray 0 [4; 3; 1]%nat) None
           ex_heap)
  /\ (forall res,
        snd (calculate spec_numbautil ex_args ex_coords2d None ex_heap)
        = Ok res -> List.length res = 1%nat)
  /\ (exists h',
        fst (calculate spec_numbautil ex_args ex_coords2d None ex_heap)
        = ex_heap ++ h').
Proof.
  apply (calculate_2d_single_frame spec_numbautil ex_args ex_coords2d
           (mk_ndarray 0 [4; 3; 1]%nat) None ex_heap 4).
  - reflexivity.
  - simpl. lia.
  - reflexivity.
  - simpl. lia.
  - reflexivity.
  - intros b Hb. discriminate.
Defined.

(** * Further properties of the code *)

(** ** [_insets] *)

Lemma insets_scan1_first_hit (s : list Z) (i j : Z) :
  insets_scan1 s i j 0 0
  = match first_hit s i j with
    | None => (0, 0)%nat
    | Some x => if (x =? i)%Z then (1, 0)%nat else (0, 1)%nat
    end.
Proof.
  unfold first_hit. induction s as [|x r IH]; [reflexivity|].
  cbn [insets_scan1 insets_scan2 find].
  destruct (x =? i)%Z eqn:Ei; cbn [andb orb Nat.eqb];
    [rewrite Ei; reflexivity|].
  destruct (x =? j)%Z; [rewrite Ei; reflexivity | exact IH].
Qed.

Lemma insets_scan2_first_hit (s : list Z) (i j : Z) (a b : nat) :
  insets_scan2 s i j a b
  = match first_hit s i j with
    | None => (a, b)
    | Some x => if (x =? i)%Z then (2%nat, b) else (a, 2%nat)
    end.
Proof.
  unfold first_hit. induction s as [|x r IH]; [reflexivity|].
  cbn [insets_scan1 insets_scan2 find].
  destruct (x =? i)%Z eqn:Ei; cbn [andb orb Nat.eqb];
    [rewrite Ei; reflexivity|].
  destruct (x =? j)%Z; [rewrite Ei; reflexivity | exact IH].
Qed.

Lemma first_hit_cases (s : list Z) (i j x : Z) :
  first_hit s i j = Some x -> In x s /\ (x = i \/ x = j).
Proof.
  unfold first_hit. intros H. apply find_some in H as [Hin H].
  split; [exact Hin|].
  apply orb_prop in H as [H|H]; apply Z.eqb_eq in H; auto.
Qed.

Lemma first_hit_swap (s : list Z) (i j : Z) :
  first_hit s i j = first_hit s j i.
Proof.
  unfold first_hit. induction s as [|x r IH]; simpl; [reflexivity|].
  rewrite IH, orb_comm. reflexivity.
Qed.

(** The value of the two loops, in the order [s1] then [s2]. *)
Lemma insets_ordered_first_hits s1 s2 i j :
  (let '(ifound, jfound) := insets_scan1 s1 i j 0 0 in
   if (ifound =? 0)%nat && (jfound =? 0)%nat then false
   else
     let '(ifound, jfound) := insets_scan2 s2 i j ifound jfound in
     if negb (ifound =? 0)%nat && negb (jfound =? 0)%nat
     then negb (ifound =? jfound)%nat
     else false)
  = match first_hit s1 i j, first_hit s2 i j with
    | Some x, Some y => negb (x =? y)%Z
    | _, _ => false
    end.
Proof.
  rewrite insets_scan1_first_hit.
  destruct (first_hit s1 i j) as [x|] eqn:E1; [|reflexivity].
  apply first_hit_cases in E1 as [_ Hx].
  destruct (Z.eqb_spec x i) as [Exi|Exi]; cbn [Nat.eqb andb];
    rewrite insets_scan2_first_hit;
    destruct (first_hit s2 i j) as [y|] eqn:E2; try reflexivity;
    apply first_hit_cases in E2 as [_ Hy];
    destruct (Z.eqb_spec y i) as [Eyi|Eyi]; cbn [Nat.eqb andb negb];
    destruct (Z.eqb_spec x y) as [Exy|Exy]; try reflexivity;
    exfalso; destruct Hx, Hy; congruence.
Qed.

Lemma _insets_first_hits i j A B :
  _insets i j A B
  = match first_hit A i j, first_hit B i j with
    | Some x, Some y => negb (x =? y)%Z
    | _, _ => false
    end.
Proof.
  unfold _insets. destruct (List.length B <? List.length A)%nat.
  - rewrite insets_ordered_first_hits.
    destruct (first_hit A i j), (first_hit B i j); try reflexivity.
    rewrite Z.eqb_sym. reflexivity.
  - apply insets_ordered_first_hits.
Qed.

(** X1.  [_insets] does not depend on the order of the two atoms, nor on
    the order of the two sets, and an atom is never between the sets with
    itself. *)
Theorem _insets_symmetric (i j : Z) (A B : list Z) :
  _insets i j A B = _insets j i A B
  /\ _insets i j A B = _insets i j B A
  /\ _insets i i A B = false.
Proof.
  rewrite !_insets_first_hits. repeat split.
  - rewrite (first_hit_swap A i j), (first_hit_swap B i j). reflexivity.
  - destruct (first_hit A i j), (first_hit B i j); try reflexivity.
    rewrite Z.eqb_sym. reflexivity.
  - destruct (first_hit A i i) as [x|] eqn:E1; [|reflexivity].
    destruct (first_hit B i i) as [y|] eqn:E2; [|reflexivity].
    apply first_hit_cases in E1 as [_ Hx].
    apply first_hit_cases in E2 as [_ Hy].
    assert (x = y) as -> by (destruct Hx, Hy; congruence).
    rewrite Z.eqb_refl. reflexivity.
Qed.

(** X2.  [_insets] for any two sets, overlapping or not: it holds exactly
    when each set has an entry that is one of the two atoms, and the first
    such entry of the one set is the other atom than the first such entry
    of the other set. *)
Theorem _insets_true_iff (i j : Z) (A B : list Z) :
  _insets i j A B = true
  <-> exists x y, first_hit A i j = Some x /\ first_hit B i j = Some y
                  /\ x <> y.
Proof.
  rewrite _insets_first_hits. split.
  - destruct (first_hit A i j) as [x|]; [|discriminate].
    destruct (first_hit B i j) as [y|]; [|discriminate].
    intros H. exists x, y. repeat split.
    intros ->. rewrite Z.eqb_refl in H. discriminate.
  - intros (x & y & -> & -> & Hne).
    destruct (Z.eqb_spec x y); [contradiction | reflexivity].
Qed.

(** ** [nestedListToArray] *)

Lemma list_max_length_le {A : Type} (nl : list (list A)) (row : list A) :
  In row nl -> (List.length row <= list_max (map (@List.length A) nl))%nat.
Proof.
  intros Hin.
  pose proof (proj1 (list_max_le (map (@List.length A) nl) _) (Nat.le_refl _))
    as Hle.
  rewrite Forall_forall in Hle. apply Hle, in_map, Hin.
Qed.

(** X3.  The array is rectangular and never empty: it has as many rows as
    the nested list, and one row for the empty list; every row has the
    length of the longest list, and length one when all lists are empty. *)
Theorem nestedListToArray_shape {A : Type} (nl : list (list A)) (default : A) :
  List.length (nestedListToArray nl default) = Nat.max 1 (List.length nl)
  /\ Forall (fun row =>
               List.length row
               = Nat.max 1 (list_max (map (@List.length A) nl)))
            (nestedListToArray nl default).
Proof.
  unfold nestedListToArray. destruct nl as [|r0 rs]; [simpl; auto|].
  set (nl := r0 :: rs).
  assert (Hlen : Nat.max 1 (List.length nl) = List.length nl)
    by (unfold nl; simpl; lia).
  destruct (Nat.eqb_spec (list_max (map (@List.length A) nl)) 0) as [E|E].
  - rewrite E, length_map, Hlen. split; [reflexivity|].
    apply Forall_forall. intros row Hrow.
    apply in_map_iff in Hrow as (x & <- & _). reflexivity.
  - rewrite length_map, Hlen. split; [reflexivity|].
    apply Forall_forall. intros row Hrow.
    apply in_map_iff in Hrow as (x & <- & Hx). unfold pad_row.
    rewrite length_app, repeat_length.
    pose proof (list_max_length_le nl x Hx). lia.
Qed.

Lemma nestedListToArray_nth {A : Type} (nl : list (list A)) (default : A)
    (i : nat) (row : list A) :
  nth_error nl i = Some row ->
  exists k,
    nth_error (nestedListToArray nl default) i
    = Some (row ++ repeat default k).
Proof.
  intros Hi. unfold nestedListToArray.
  destruct nl as [|r0 rs]; [destruct i; discriminate|].
  set (nl := r0 :: rs) in *.
  destruct (list_max (map (@List.length A) nl) =? 0)%nat eqn:E.
  - apply Nat.eqb_eq in E.
    pose proof (list_max_length_le nl row (nth_error_In _ _ Hi)) as Hle.
    rewrite E in Hle.
    rewrite nth_error_map, Hi. cbn [option_map]. exists 1%nat.
    destruct row; [reflexivity | simpl in Hle; lia].
  - rewrite nth_error_map, Hi. cbn [option_map]. eexists. reflexivity.
Qed.

(** X4.  Row [i] of the array is the [i]-th list followed by the padding
    value only: the lists are read back by dropping the padding. *)
Theorem nestedListToArray_row {A : Type} (nl : list (list A)) (default : A)
    (i : nat) (row : list A) :
  nth_error nl i = Some row ->
  nth_error (nestedListToArray nl default) i
  = Some (row ++ repeat default
                   (Nat.max 1 (list_max (map (@List.length A) nl))
                    - List.length row)).
Proof.
  intros Hi. unfold nestedListToArray.
  destruct nl as [|r0 rs]; [destruct i; discriminate|].
  set (nl := r0 :: rs) in *.
  pose proof (list_max_length_le nl row (nth_error_In _ _ Hi)) as Hle.
  destruct (Nat.eqb_spec (list_max (map (@List.length A) nl)) 0) as [E|E].
  - rewrite nth_error_map, Hi. cbn [option_map]. rewrite E in *.
    destruct row; [reflexivity | simpl in Hle; lia].
  - rewrite nth_error_map, Hi. cbn [option_map]. unfold pad_row.
    do 3 f_equal. lia.
Qed.

Lemma nestedListToArray_row_witness :
  nth_error (nestedListToArray [[1; 2; 3]; [4]; []]%nat 0%nat) 1
  = Some [4; 0; 0]%nat.
Proof.
  exact (nestedListToArray_row [[1; 2; 3]; [4]; []]%nat 0%nat 1 [4%nat]
           eq_refl).
Defined.

(** ** The tables of [init] read by the pair loop *)

Lemma init_exclusions_witness :
  (_ispaired (excl ex_topo) 0 2 = true
   <-> bond_entry (mol_bonds ex_mol) 0 2 \/ angle_entry (mol_angles ex_mol) 0 2)
  /\ (_ispaired (bonda ex_topo) 0 2 = true
      <-> bond_entry (mol_bonds ex_mol) 0 2).
Proof.
  exact (init_exclusions ex_mol ex_prm ex_topo 0 2 ex_init).
Defined.

(** ** Atom indexes accepted by [init] *)

Lemma types_at_in_range (ats : list string) (idx : list nat) (ts : key) :
  types_at ats idx = Ok ts ->
  Forall (fun i => (i < List.length ats)%nat) idx.
Proof.
  revert ts. induction idx as [|i r IH]; simpl; intros ts H; [constructor|].
  destruct (nth_error ats i) as [t|] eqn:E; [|discriminate].
  bind_inv H. constructor; [|eapply IH; eauto].
  apply nth_error_Some. congruence.
Qed.

Lemma bond_loop_in_range ats prm bonds st st' :
  forM bonds (bond_step ats prm) st = Ok st' ->
  bonds_in_range (List.length ats) bonds = true.
Proof.
  revert st. induction bonds as [|[b0 b1] r IH]; intros st H; [reflexivity|].
  cbn [forM] in H. apply bind_Ok in H as (st1 & Hb & H).
  destruct st as [[e p] bv]. unfold bond_step in Hb.
  apply bind_Ok in Hb as (ts & Hts & _).
  apply types_at_in_range in Hts. inversion Hts as [|? ? H0 Hr]; subst.
  inversion Hr as [|? ? H1 _]; subst.
  cbn [bonds_in_range forallb]. apply andb_true_intro. split.
  - apply andb_true_intro. split; apply Nat.ltb_lt; assumption.
  - eapply IH, H.
Qed.

Lemma angle_loop_in_range ats prm angs e r :
  angle_loop ats prm angs e = Ok r ->
  forallb (fun '(i0, i1, i2) =>
             (i0 <? List.length ats) && (i1 <? List.length ats)
             && (i2 <? List.length ats))%nat angs = true.
Proof.
  revert e r. induction angs as [|[[a0 a1] a2] rest IH]; intros e r H;
    [reflexivity|].
  cbn [angle_loop] in H.
  apply bind_Ok in H as (e1 & _ & H). apply bind_Ok in H as (ts & Hts & H).
  apply bind_Ok in H as (aty & _ & H). apply bind_Ok in H as (r2 & Hr2 & _).
  apply types_at_in_range in Hts.
  inversion Hts as [|? ? H0 Hr]; subst. inversion Hr as [|? ? H1 Hr']; subst.
  inversion Hr' as [|? ? H2 _]; subst.
  cbn [forallb]. apply andb_true_intro. split; [|eapply IH, Hr2].
  rewrite !andb_true_iff, !Nat.ltb_lt. auto.
Qed.

Lemma quad_lt_Forall (n : nat) (q : quad) :
  quad_lt n q = true <-> Forall (fun i => (i < n)%nat) (quad_list q).
Proof.
  destruct q as [[[i0 i1] i2] i3]. unfold quad_lt, quad_list.
  rewrite !andb_true_iff, !Nat.ltb_lt. split.
  - intros [[[H0 H1] H2] H3]. repeat constructor; assumption.
  - intros H. inversion H as [|? ? H0 Hr]; subst.
    inversion Hr as [|? ? H1 Hr1]; subst. inversion Hr1 as [|? ? H2 Hr2]; subst.
    inversion Hr2 as [|? ? H3 _]; subst. auto.
Qed.

Lemma dihedral_step_in_range ats prm d st st' row :
  dihedral_step ats prm d st = Ok (st', row) ->
  (forall k, In k (alreadyadded st) ->
             Forall (fun i => (i < List.length ats)%nat) k) ->
  (forall k, In k (alreadyadded st') ->
             Forall (fun i => (i < List.length ats)%nat) k)
  /\ quad_lt (List.length ats) d = true.
Proof.
  unfold dihedral_step. intros H Hinv.
  destruct (existsb _ _) eqn:E.
  - injection H as <- <-. split; [exact Hinv|].
    apply already_In in E. apply quad_lt_Forall.
    apply Hinv in E. unfold stringrep in E.
    eapply Permutation_Forall; [apply sorted_Permutation | exact E].
  - apply bind_Ok in H as (ty & Hty & H). apply types_at_in_range in Hty.
    apply bind_Ok in H as (dihparam & _ & H).
    destruct d as [[[d0 d1] d2] d3].
    apply bind_Ok in H as (s14a' & _ & H).
    apply bind_Ok in H as (fst' & _ & H).
    apply bind_Ok in H as (s14v' & _ & H).
    apply bind_Ok in H as (e14a' & _ & H).
    apply bind_Ok in H as (e14v' & _ & H). injection H as <- <-.
    cbn [alreadyadded]. split; [|apply quad_lt_Forall, Hty].
    intros k [<-|Hk]; [|apply Hinv, Hk]. unfold stringrep.
    eapply Permutation_Forall; [symmetry; apply sorted_Permutation | exact Hty].
Qed.

Lemma dihedral_loop_in_range ats prm l st st' rows :
  dihedral_loop ats prm l st = Ok (st', rows) ->
  (forall k, In k (alreadyadded st) ->
             Forall (fun i => (i < List.length ats)%nat) k) ->
  forallb (quad_lt (List.length ats)) l = true.
Proof.
  revert st st' rows. induction l as [|d r IH]; intros st st' rows H Hinv;
    [reflexivity|].
  cbn [dihedral_loop] in H.
  apply bind_Ok in H as ([st1 row] & Hstep & H).
  apply bind_Ok in H as ([st2 rows2] & Hloop & _).
  destruct (dihedral_step_in_range _ _ _ _ _ _ Hstep Hinv) as [Hinv1 Hd].
  cbn [forallb]. rewrite Hd. eapply IH; eauto.
Qed.

Lemma mapM_In {A B : Type} (g : A -> res B) (xs : list A) (ys : list B) :
  mapM g xs = Ok ys -> forall x, In x xs -> exists y, g x = Ok y.
Proof.
  revert ys. induction xs as [|x r IH]; simpl; intros ys H x' Hin; [tauto|].
  apply bind_Ok in H as (y & Hy & H). apply bind_Ok in H as (ys' & Hr & _).
  destruct Hin as [<-|Hin]; eauto.
Qed.

Lemma impropers_in_range mol prm rows :
  mapM (fun impr => p <- resolve_improper mol prm impr ;; Ok (improper_row p))
       (mol_impropers mol) = Ok rows ->
  forallb (quad_lt (numAtoms mol)) (mol_impropers mol) = true.
Proof.
  intros H. apply forallb_forall. intros q Hq.
  destruct (mapM_In _ _ _ H q Hq) as [y Hy].
  apply bind_Ok in Hy as (p & Hp & _). unfold resolve_improper in Hp.
  apply bind_Ok in Hp as (ty & Hty & _).
  apply quad_lt_Forall. apply types_at_in_range in Hty. exact Hty.
Qed.

Lemma init_indexes mol prm tp :
  init mol prm = Ok tp ->
  bonds_in_range (numAtoms mol) (mol_bonds mol) = true
  /\ (forall s1 s2 c r sd,
        topology_in_range (numAtoms mol) (mk_ffargs tp s1 s2 c r sd) = true).
Proof.
  unfold init. intros H.
  apply bind_Ok in H as (atys & _ & H).
  apply bind_Ok in H as (nbf & _ & H).
  apply bind_Ok in H as ([[e1 p1] bv1] & Hb & H).
  apply bind_Ok in H as ([e2 rows] & Ha & H).
  apply bind_Ok in H as ([dst dprm] & Hd & H).
  apply bind_Ok in H as (iprm & Hi & H).
  injection H as <-.
  split; [eapply bond_loop_in_range, Hb|].
  intros s1 s2 c r sd. unfold topology_in_range.
  cbn [ff_topo angles dihedrals impropers].
  apply angle_loop_in_range in Ha. apply impropers_in_range in Hi.
  apply dihedral_loop_in_range in Hd; [|intros k []].
  unfold numAtoms in *. rewrite Ha. cbn [andb].
  apply andb_true_intro. split; [exact Hd | exact Hi].
Qed.

(** X5.  [init] returns only for a molecule whose bond, angle, dihedral
    and improper arrays hold atom indexes below [mol.numAtoms]: any other
    index makes it raise. *)
Theorem init_accepts_atom_indexes (mol : Molecule) (prm : ParameterSet)
    (tp : topo) :
  init mol prm = Ok tp ->
  bonds_in_range (numAtoms mol) (mol_bonds mol) = true
  /\ topology_in_range (numAtoms mol) (mk_ffargs tp [] [] 0 false 0) = true.
Proof.
  intros H. apply init_indexes in H as [Hb Ht]. split; [exact Hb | apply Ht].
Qed.

Lemma init_accepts_atom_indexes_witness :
  bonds_in_range (numAtoms ex_mol) (mol_bonds ex_mol) = true
  /\ topology_in_range (numAtoms ex_mol) (mk_ffargs ex_topo [] [] 0 false 0)
     = true.
Proof.
  exact (init_accepts_atom_indexes ex_mol ex_prm ex_topo ex_init).
Defined.

(** ** The evaluator built by the constructor *)

Lemma calculateSets_numAtoms atomselect mol bs mol' sA sB :
  calculateSets atomselect mol bs = Ok (mol', sA, sB) ->
  numAtoms mol' = numAtoms mol.
Proof.
  unfold calculateSets. destruct bs as [[selA selB]|].
  - intros H. apply bind_Ok in H as (a & _ & H).
    apply bind_Ok in H as (b & _ & H). injection H as <- _ _. reflexivity.
  - intros H. injection H as <- _ _. reflexivity.
Qed.

(** X6.  An evaluator that the constructor returns, applied to coordinates
    of [mol.numAtoms] atoms: in every frame of every result the six energy
    components sum to the sum of the per-atom energies, and the forces sum
    to the zero vector.  No assumption on the topology is left. *)
Theorem evaluator_energy_force_balance atomselect nu (mol : Molecule)
    (prm : ParameterSet) betweensets c r sd (self : ffargs) coords box res :
  FFEvaluate_init atomselect mol prm betweensets c r sd = Ok self ->
  natoms coords = numAtoms mol ->
  _ffevaluate nu coords box self = Ok res ->
  List.length res = nframes coords
  /\ forall f st, nth_error res f = Some st ->
       nrg_sum (energies st) = atmnrg_sum (atmnrg st)
       /\ vsum (forces st) = vzero.
Proof.
  intros Hinit Hn Hev. unfold FFEvaluate_init in Hinit.
  apply bind_Ok in Hinit as ([[mol' sA] sB] & Hsets & Hinit).
  apply bind_Ok in Hinit as (args & Hargs & Hinit). injection Hinit as <-.
  apply calculateSets_numAtoms in Hsets.
  apply init_indexes in Hargs as [_ Hwf].
  specialize (Hwf sA sB c r sd). rewrite Hsets, <- Hn in Hwf.
  destruct (_ffevaluate_balanced _ _ _ _ _ Hwf Hev) as [Hlen Hb].
  split; [exact Hlen|]. intros f st Hf.
  destruct (Hb f st Hf) as (_ & Hg & Hz). unfold gap in Hg. unfold ftot in Hz.
  split; [lra | exact Hz].
Qed.

Lemma ex_FFEvaluate_init :
  FFEvaluate_init ex_atomselect ex_mol ex_prm None 0 false 78.5 = Ok ex_args.
Proof.
  unfold FFEvaluate_init, calculateSets. cbn [bind]. rewrite ex_init.
  reflexivity.
Qed.

Lemma evaluator_energy_force_balance_witness :
  exists res,
    _ffevaluate spec_numbautil ex_coords ex_box ex_args = Ok res
    /\ List.length res = nframes ex_coords
    /\ forall f st, nth_error res f = Some st ->
         nrg_sum (energies st) = atmnrg_sum (atmnrg st)
         /\ vsum (forces st) = vzero.
Proof.
  destruct ex_ffevaluate_defined as [res Hres]. exists res.
  split; [exact Hres|].
  exact (evaluator_energy_force_balance ex_atomselect spec_numbautil ex_mol
           ex_prm None 0 false 78.5 ex_args ex_coords ex_box res
           ex_FFEvaluate_init eq_refl Hres).
Defined.

(** ** The per-type arrays of [init] *)

Lemma insert_uniq_str_In (x y : string) (l : list string) :
  In x (insert_uniq String.compare y l) <-> x = y \/ In x l.
Proof.
  induction l as [|z r IH]; simpl; [intuition congruence|].
  destruct (String.compare y z) eqn:E; simpl.
  - apply String.compare_eq_iff in E. subst. intuition congruence.
  - intuition congruence.
  - rewrite IH. intuition congruence.
Qed.

Lemma np_unique_str_In (x : string) (l : list string) :
  In x (np_unique String.compare l) <-> In x l.
Proof.
  induction l as [|y r IH]; simpl; [tauto|].
  rewrite insert_uniq_str_In, IH. intuition congruence.
Qed.

Lemma index_of_nth_error (t : string) (l : list string) :
  In t l -> nth_error l (index_of t l) = Some t.
Proof.
  induction l as [|x r IH]; simpl; [tauto|]. intros Hin.
  destruct (String.eqb_spec t x) as [->|Hne]; [reflexivity|].
  destruct Hin as [->|Hin]; [congruence | apply IH, Hin].
Qed.

Lemma mapM_nth_error_fwd {A B : Type} (g : A -> res B) (xs : list A)
    (ys : list B) :
  mapM g xs = Ok ys ->
  forall k x, nth_error xs k = Some x ->
    exists y, nth_error ys k = Some y /\ g x = Ok y.
Proof.
  revert ys. induction xs as [|x0 r IH]; simpl; intros ys H k x Hk.
  - destruct k; discriminate.
  - apply bind_Ok in H as (y0 & Hy0 & H). apply bind_Ok in H as (ys' & Hr & H).
    injection H as <-. destruct k as [|k]; simpl in *.
    + injection Hk as <-. eauto.
    + eapply IH; eauto.
Qed.

(** X7.  The Lennard-Jones arrays are indexed by [typeint]: for every atom
    [i] of the molecule, the entries of [sigma], [epsilon], [sigma14] and
    [epsilon14] at [typeint[i]] are those of the atom type of [i] in
    [prm.atom_types]; and the charges are those of the molecule. *)
Theorem init_atom_parameters (mol : Molecule) (prm : ParameterSet) (tp : topo)
    (i : nat) (t : string) :
  init mol prm = Ok tp ->
  nth_error (atomtype mol) i = Some t ->
  exists aty,
    lookup_str t (atom_types prm) = Some aty
    /\ nth (nth i (typeint tp) 0%nat) (sigma tp) 0 = at_sigma aty
    /\ nth (nth i (typeint tp) 0%nat) (epsilon tp) 0 = at_epsilon aty
    /\ nth (nth i (typeint tp) 0%nat) (sigma14 tp) 0 = at_sigma_14 aty
    /\ nth (nth i (typeint tp) 0%nat) (epsilon14 tp) 0 = at_epsilon_14 aty
    /\ charge tp = mol_charge mol.
Proof.
  unfold init. intros H Hi.
  apply bind_Ok in H as (atys & Hatys & H).
  apply bind_Ok in H as (nbf & _ & H).
  apply bind_Ok in H as ([[e1 p1] bv1] & _ & H).
  apply bind_Ok in H as ([e2 rows] & _ & H).
  apply bind_Ok in H as ([dst dprm] & _ & H).
  apply bind_Ok in H as (iprm & _ & H).
  injection H as <-. cbn [typeint sigma epsilon sigma14 epsilon14 charge].
  set (uq := np_unique String.compare (atomtype mol)) in *.
  assert (Hin : In t uq) by (apply np_unique_str_In; eapply nth_error_In, Hi).
  apply index_of_nth_error in Hin.
  destruct (mapM_nth_error_fwd _ _ _ Hatys _ _ Hin) as (aty & Haty & Hget).
  exists aty. unfold getitem_str in Hget.
  destruct (lookup_str t (atom_types prm)) as [v|]; [|discriminate].
  injection Hget as ->. split; [reflexivity|].
  assert (Hti : nth i (map (fun t0 => index_of t0 uq) (atomtype mol)) 0%nat
                = index_of t uq).
  { apply nth_error_nth. rewrite nth_error_map, Hi. reflexivity. }
  rewrite Hti.
  repeat split; apply nth_error_nth; rewrite nth_error_map, Haty; reflexivity.
Qed.

Lemma init_atom_parameters_witness :
  exists aty,
    lookup_str "C" (atom_types ex_prm) = Some aty
    /\ nth (nth 2 (typeint ex_topo) 0%nat) (sigma ex_topo) 0 = at_sigma aty
    /\ nth (nth 2 (typeint ex_topo) 0%nat) (epsilon ex_topo) 0 = at_epsilon aty
    /\ nth (nth 2 (typeint ex_topo) 0%nat) (sigma14 ex_topo) 0
       = at_sigma_14 aty
    /\ nth (nth 2 (typeint ex_topo) 0%nat) (epsilon14 ex_topo) 0
       = at_epsilon_14 aty
    /\ charge ex_topo = mol_charge ex_mol.
Proof.
  exact (init_atom_parameters ex_mol ex_prm ex_topo 2 "C" ex_init eq_refl).
Defined.

Lemma mapM_raises {A B : Type} (g : A -> res B) (xs : list A) (e : exn) :
  (forall x, In x xs -> g x = Raise e \/ exists y, g x = Ok y) ->
  (exists x, In x xs /\ g x = Raise e) ->
  mapM g xs = Raise e.
Proof.
  induction xs as [|x r IH]; simpl; intros Hall (x' & Hin & Hx'); [tauto|].
  destruct (Hall x (or_introl eq_refl)) as [E|[y E]]; rewrite E; [reflexivity|].
  cbn [bind]. rewrite IH; [reflexivity | auto |].
  destruct Hin as [->|Hin]; [congruence | eauto].
Qed.

(** X8.  A molecule with an atom type that is not a key of
    [prm.atom_types] makes [init] raise [KeyError], whatever the rest of
    the molecule and of the parameters. *)
Theorem init_unknown_atom_type (mol : Molecule) (prm : ParameterSet)
    (t : string) :
  In t (atomtype mol) ->
  lookup_str t (atom_types prm) = None ->
  init mol prm = Raise KeyError.
Proof.
  intros Hin Hnone. unfold init.
  rewrite (mapM_raises _ _ KeyError); [reflexivity | |].
  - intros x _. unfold getitem_str.
    destruct (lookup_str x (atom_types prm)); eauto.
  - exists t. split; [apply np_unique_str_In, Hin|].
    unfold getitem_str. rewrite Hnone. reflexivity.
Qed.

Lemma init_unknown_atom_type_witness :
  init (mk_Molecule ["C"; "N"]%string [0; 0] [] [] [] []) ex_prm
  = Raise KeyError.
Proof.
  apply (init_unknown_atom_type _ ex_prm "N").
  - right. left. reflexivity.
  - reflexivity.
Defined.

(** ** The bond parameters read by [_evaluate_harmonic_bonds] *)

Lemma append_at_nth {A : Type} (i : nat) (v : A) (tbl tbl' : list (list A)) :
  append_at i v tbl = Ok tbl' ->
  forall k, nth k tbl' [] = if (k =? i)%nat then nth k tbl [] ++ [v]
                            else nth k tbl [].
Proof.
  unfold append_at. destruct (Nat.ltb_spec i (List.length tbl)) as [Hi|Hi];
    [|discriminate].
  intros H k. injection H as <-. rewrite nth_list_upd.
  destruct (k =? i)%nat; [|reflexivity].
  destruct (Nat.ltb_spec i (List.length tbl)); [reflexivity | lia].
Qed.

Lemma bond_loop_rows ats prm all bonds e p bv e' p' bv' :
  forM bonds (bond_step ats prm) (e, p, bv) = Ok (e', p', bv') ->
  (forall b, In b bonds -> In b all) ->
  bond_rows_ok ats prm all p bv ->
  bond_rows_ok ats prm all p' bv'.
Proof.
  revert e p bv. induction bonds as [|[b0 b1] r IH]; intros e p bv H Hsub Hok.
  - simpl in H. injection H as <- <- <-. exact Hok.
  - cbn [forM] in H. apply bind_Ok in H as ([[e1 p1] bv1] & Hstep & H).
    eapply IH; [exact H | intros b Hb; apply Hsub; right; exact Hb |].
    clear H IH. unfold bond_step in Hstep.
    apply bind_Ok in Hstep as (ts & Hts & Hstep).
    apply bind_Ok in Hstep as (e2 & _ & Hstep).
    apply bind_Ok in Hstep as (p2 & Hp2 & Hstep).
    apply bind_Ok in Hstep as (bt & Hbt & Hstep).
    apply bind_Ok in Hstep as (bv2 & Hbv2 & Hstep).
    apply bind_Ok in Hstep as (bv3 & Hbv3 & Hstep).
    injection Hstep as <- <- <-.
    unfold getitem in Hbt.
    destruct (lookup ts (bond_types prm)) as [bt'|] eqn:Hlk; [|discriminate].
    injection Hbt as ->.
    pose proof (append_at_nth _ _ _ _ Hp2) as Np.
    pose proof (append_at_nth _ _ _ _ Hbv2) as Nv2.
    pose proof (append_at_nth _ _ _ _ Hbv3) as Nv3.
    intros k. destruct (Hok k) as [Hlen Hent].
    rewrite Np, Nv3, Nv2.
    destruct (Nat.eqb_spec k (Nat.min b0 b1)) as [Ek|Ek]; [|split; assumption].
    split.
    + rewrite !length_app. simpl. lia.
    + intros c v Hc.
      destruct (Nat.lt_ge_cases c (List.length (nth k p []))) as [Hlt|Hge].
      * rewrite nth_error_app1 in Hc by exact Hlt.
        destruct (Hent c v Hc) as (c0 & c1 & ts' & bt' & Hin & Hmin & Hmax
                                   & Hts' & Hlk' & Hk0 & Hreq).
        exists c0, c1, ts', bt'. repeat split; try assumption.
        -- rewrite <- app_assoc. rewrite nth_error_app1 by lia. exact Hk0.
        -- rewrite <- app_assoc. rewrite nth_error_app1 by lia. exact Hreq.
      * rewrite nth_error_app2 in Hc by exact Hge.
        destruct (c - List.length (nth k p []))%nat as [|c'] eqn:Ec;
          [|destruct c'; discriminate].
        simpl in Hc. injection Hc as <-.
        assert (c = List.length (nth k p [])) as -> by lia.
        exists b0, b1, ts, bt. repeat split; auto.
        -- apply Hsub. left. reflexivity.
        -- rewrite <- app_assoc. rewrite nth_error_app2 by lia.
           replace (2 * _ - _)%nat with 0%nat by lia. reflexivity.
        -- rewrite <- app_assoc. rewrite nth_error_app2 by lia.
           replace (2 * _ + 1 - _)%nat with 1%nat by lia. reflexivity.
Qed.

Lemma find_col_padded (row : list nat) (k : nat) (j e0 : nat) :
  match find_col (map Z.of_nat row ++ repeat (-1)%Z k) (Z.of_nat j) e0 with
  | Some e => (e0 <= e)%nat /\ nth_error row (e - e0) = Some j
  | None => ~ In j row
  end.
Proof.
  revert e0. induction row as [|x r IH]; intros e0; simpl.
  - destruct k; simpl; tauto.
  - destruct (Z.eqb_spec (Z.of_nat x) (-1)); [lia|].
    destruct (Z.eqb_spec (Z.of_nat x) (Z.of_nat j)) as [E|E].
    + apply Nat2Z.inj in E. subst. rewrite Nat.sub_diag. simpl. auto.
    + specialize (IH (S e0)).
      destruct (find_col _ _ (S e0)) as [e|].
      * destruct IH as [Hle Hn]. split; [lia|].
        replace (e - e0)%nat with (S (e - S e0)) by lia. exact Hn.
      * intros [->|Hin]; [congruence | tauto].
Qed.

Lemma int_array_nth (nl : list (list nat)) (i : nat) (row : list nat) :
  nth_error nl i = Some row ->
  exists k, nth i (int_array nl) [] = map Z.of_nat row ++ repeat (-1)%Z k.
Proof.
  intros Hi. unfold int_array.
  destruct (nestedListToArray_nth (map (map Z.of_nat) nl) (-1)%Z i
              (map Z.of_nat row)) as [k Hk];
    [rewrite nth_error_map, Hi; reflexivity|].
  exists k. apply nth_error_nth, Hk.
Qed.

Lemma float_array_nth (nl : list (list R)) (i : nat) (row : list R) :
  nth_error nl i = Some row ->
  exists k, nth i (float_array nl) [] = map (@Some R) row ++ repeat None k.
Proof.
  intros Hi. unfold float_array.
  destruct (nestedListToArray_nth (map (map (@Some R)) nl) None i
              (map (@Some R) row)) as [k Hk];
    [rewrite nth_error_map, Hi; reflexivity|].
  exists k. apply nth_error_nth, Hk.
Qed.

Lemma readf_padded (row : list R) (k idx : nat) (x : R) :
  nth_error row idx = Some x ->
  readf (map (@Some R) row ++ repeat None k) idx = Ok x.
Proof.
  intros H. unfold readf.
  rewrite (nth_error_nth (map (@Some R) row ++ repeat None k) idx None
             (x := Some x)); [reflexivity|].
  rewrite nth_error_app1; [rewrite nth_error_map, H; reflexivity|].
  rewrite length_map. apply nth_error_Some. congruence.
Qed.

Lemma find_col_ispaired (row : list Z) (j : Z) (e0 : nat) :
  _ispaired_row row j = match find_col row j e0 with
                        | Some _ => true
                        | None => false
                        end.
Proof.
  revert e0. induction row as [|x r IH]; intros e0; simpl; [reflexivity|].
  destruct (x =? -1)%Z; [reflexivity|].
  destruct (x =? j)%Z; [reflexivity | apply IH].
Qed.

Lemma init_bond_rows mol prm tp :
  init mol prm = Ok tp ->
  exists pairs params,
    bonda tp = int_array pairs /\ bondv tp = float_array params
    /\ List.length params = List.length pairs
    /\ bond_rows_ok (atomtype mol) prm (mol_bonds mol) pairs params.
Proof.
  unfold init. intros H.
  apply bind_Ok in H as (atys & _ & H).
  apply bind_Ok in H as (nbf & _ & H).
  apply bind_Ok in H as ([[e1 p1] bv1] & Hb & H).
  apply bind_Ok in H as ([e2 rows] & _ & H).
  apply bind_Ok in H as ([dst dprm] & _ & H).
  apply bind_Ok in H as (iprm & _ & H).
  injection H as <-. exists p1, bv1. cbn [bonda bondv].
  split; [reflexivity|]. split; [reflexivity|]. split.
  - clear -Hb.
    assert (G : forall bonds e p bv e' p' bv',
              forM bonds (bond_step (atomtype mol) prm) (e, p, bv)
              = Ok (e', p', bv') ->
              List.length bv = List.length p ->
              List.length bv' = List.length p').
    { induction bonds as [|[b0 b1] r IH]; intros e p bv e' p' bv' H Hl.
      - simpl in H. injection H as <- <- <-. exact Hl.
      - cbn [forM] in H. apply bind_Ok in H as ([[ea pa] bva] & Hstep & H).
        eapply IH; [exact H|]. unfold bond_step in Hstep.
        apply bind_Ok in Hstep as (ts & _ & Hstep).
        apply bind_Ok in Hstep as (e2 & _ & Hstep).
        apply bind_Ok in Hstep as (p2 & Hp2 & Hstep).
        apply bind_Ok in Hstep as (bt & _ & Hstep).
        apply bind_Ok in Hstep as (bv2 & Hbv2 & Hstep).
        apply bind_Ok in Hstep as (bv3 & Hbv3 & Hstep).
        injection Hstep as <- <- <-.
        apply append_at_In in Hp2 as [-> _], Hbv2 as [L2 _], Hbv3 as [-> _].
        rewrite L2. exact Hl. }
    eapply G; [exact Hb|]. rewrite !repeat_length. reflexivity.
  - eapply bond_loop_rows; [exact Hb | auto |].
    intros k. rewrite !nth_repeat_nil. split; [reflexivity|].
    intros e v He. destruct e; discriminate.
Qed.

(** X9.  The bond table and the bond parameter table of [init] go
    together.  For a pair [i], [j] that the bond table holds,
    [_evaluate_harmonic_bonds] returns the energy [k (dist - req)^2] and
    its derivative [2 k (dist - req)], where [k] and [req] are those of the
    bond type of a bond of the molecule between [i] and [j]: it never reads
    the padding.  For any other pair it returns zero energy and force. *)
Theorem init_bond_parameters (mol : Molecule) (prm : ParameterSet) (tp : topo)
    (i j : nat) (dist : R) :
  init mol prm = Ok tp ->
  (_ispaired (bonda tp) i j = true ->
   exists b0 b1 ts bt,
     In (b0, b1) (mol_bonds mol) /\ Nat.min b0 b1 = i /\ Nat.max b0 b1 = j
     /\ types_of mol [b0; b1] = Ok ts
     /\ lookup ts (bond_types prm) = Some bt
     /\ _evaluate_harmonic_bonds i j (bonda tp) (bondv tp) dist
        = Ok (bt_k bt * (dist - bt_req bt) ^ 2,
              2 * bt_k bt * (dist - bt_req bt)))
  /\ (_ispaired (bonda tp) i j = false ->
      _evaluate_harmonic_bonds i j (bonda tp) (bondv tp) dist = Ok (0, 0)).
Proof.
  intros H. apply init_bond_rows in H as (pairs & params & -> & -> & Hl & Hok).
  unfold _ispaired, _evaluate_harmonic_bonds.
  rewrite (find_col_ispaired _ _ 0). split.
  - destruct (nth_error pairs i) as [row|] eqn:Hrow.
    + destruct (int_array_nth _ _ _ Hrow) as [k Ek]. rewrite Ek.
      pose proof (find_col_padded row k j 0) as Hf.
      destruct (find_col _ _ 0) as [e|]; [|discriminate]. intros _.
      destruct Hf as [_ He]. rewrite Nat.sub_0_r in He.
      destruct (Hok i) as [_ Hent].
      rewrite (nth_error_nth _ _ [] Hrow) in Hent.
      destruct (Hent e j He) as (b0 & b1 & ts & bt & Hin & Hmin & Hmax & Hts
                                 & Hlk & Hk0 & Hreq).
      exists b0, b1, ts, bt. repeat split; try assumption.
      destruct (nth_error params i) as [prow|] eqn:Hprow.
      * destruct (float_array_nth _ _ _ Hprow) as [k' Ek']. rewrite Ek'.
        rewrite (nth_error_nth _ _ [] Hprow) in Hk0, Hreq.
        replace (e * 2 + 0)%nat with (2 * e)%nat by lia.
        replace (e * 2 + 1)%nat with (2 * e + 1)%nat by lia.
        rewrite (readf_padded _ _ _ _ Hk0), (readf_padded _ _ _ _ Hreq).
        reflexivity.
      * apply nth_error_None in Hprow.
        assert (nth_error pairs i <> None) by congruence.
        apply nth_error_Some in H. lia.
    + apply nth_error_None in Hrow.
      unfold int_array, nestedListToArray.
      destruct (map (map Z.of_nat) pairs) as [|r0 rs] eqn:E.
      * destruct i as [|[|i]]; simpl; discriminate.
      * rewrite <- E.
        rewrite nth_overflow;
          [simpl; discriminate
          | destruct (_ =? 0)%nat; rewrite !length_map; exact Hrow].
  - destruct (find_col _ _ 0); [discriminate | reflexivity].
Qed.

Lemma init_bond_parameters_witness :
  (_ispaired (bonda ex_topo) 1 2 = true ->
   exists b0 b1 ts bt,
     In (b0, b1) (mol_bonds ex_mol) /\ Nat.min b0 b1 = 1%nat
     /\ Nat.max b0 b1 = 2%nat
     /\ types_of ex_mol [b0; b1] = Ok ts
     /\ lookup ts (bond_types ex_prm) = Some bt
     /\ _evaluate_harmonic_bonds 1 2 (bonda ex_topo) (bondv ex_topo) 3
        = Ok (bt_k bt * (3 - bt_req bt) ^ 2, 2 * bt_k bt * (3 - bt_req bt)))
  /\ (_ispaired (bonda ex_topo) 1 2 = false ->
      _evaluate_harmonic_bonds 1 2 (bonda ex_topo) (bondv ex_topo) 3
      = Ok (0, 0)).
Proof.
  exact (init_bond_parameters ex_mol ex_prm ex_topo 1 2 3 ex_init).
Defined.

(** ** The pair kernels: potential and force *)

Lemma deriv_inv (r : R) :
  r <> 0 -> derivable_pt_lim (fun x => 1 / x) r (- / (r * r)).
Proof.
  intros Hr.
  apply (derivable_pt_lim_ext (fct_cte 1 / id)%F); [reflexivity|].
  replace (- / (r * r)) with ((0 * id r - 1 * fct_cte 1 r) / Rsqr (id r))
    by (unfold id, fct_cte, Rsqr; field; exact Hr).
  apply derivable_pt_lim_div;
    [apply derivable_pt_lim_const | apply derivable_pt_lim_id | exact Hr].
Qed.

Lemma deriv_inv_pow (c : R) (n : nat) (r : R) :
  r <> 0 ->
  derivable_pt_lim (fun x => c * (1 / x) ^ n) r
    (c * (INR n * (1 / r) ^ pred n * (- / (r * r)))).
Proof.
  intros Hr.
  apply (derivable_pt_lim_ext
           (mult_real_fct c (comp (fun y => y ^ n) (fun x => 1 / x))));
    [reflexivity|].
  apply derivable_pt_lim_scal.
  apply derivable_pt_lim_comp; [apply deriv_inv, Hr|].
  apply derivable_pt_lim_pow.
Qed.

Lemma _getSigmaEpsilon_AB i j it jt a sig eps A B scale :
  _getSigmaEpsilon i j it jt a = Ok (sig, eps, A, B, scale) ->
  A = 4 * eps * sig ^ 12 /\ B = 4 * eps * sig ^ 6.
Proof.
  unfold _getSigmaEpsilon. intros H.
  apply bind_Ok in H as ([s f14] & _ & H).
  apply bind_Ok in H as ([sg ep] & _ & H).
  injection H as <- <- <- <- <-. split; ring.
Qed.

(** X10.  [_evaluate_lj] is the 12-6 potential
    [4 eps ((sig / r)^12 - (sig / r)^6) / scale] of the pair's [sig],
    [eps] and 1-4 [scale], and the force coefficient it returns is the
    derivative of that potential with respect to the distance. *)
Theorem _evaluate_lj_potential (i j : nat) (a : ffargs)
    (sig eps A B scale : R) :
  _getSigmaEpsilon i j (nth i (typeint a) 0%nat) (nth j (typeint a) 0%nat) a
  = Ok (sig, eps, A, B, scale) ->
  scale <> 0 ->
  forall r, r <> 0 ->
    exists F,
      _evaluate_lj i j a r
      = Ok (4 * eps * ((sig / r) ^ 12 - (sig / r) ^ 6) / scale, F)
      /\ derivable_pt_lim
           (fun x => 4 * eps * ((sig / x) ^ 12 - (sig / x) ^ 6) / scale) r F.
Proof.
  intros Hse Hscale r Hr.
  destruct (_getSigmaEpsilon_AB _ _ _ _ _ _ _ _ _ _ Hse) as [-> ->].
  unfold _evaluate_lj. rewrite Hse. cbn [bind].
  rewrite (fdiv_nonzero 1 r Hr). cbn [bind].
  rewrite !(fdiv_nonzero _ scale Hscale). cbn [bind].
  eexists. split.
  - f_equal. f_equal. field. split; assumption.
  - apply (derivable_pt_lim_ext
             (minus_fct
                (fun x => (4 * eps * sig ^ 12 / scale) * (1 / x) ^ 12)
                (fun x => (4 * eps * sig ^ 6 / scale) * (1 / x) ^ 6))).
    { intros z. unfold minus_fct. unfold Rdiv.
      rewrite !Rpow_mult_distr. ring. }
    match goal with
    | |- derivable_pt_lim _ _ ?F =>
        replace F with
          ((4 * eps * sig ^ 12 / scale)
             * (INR 12 * (1 / r) ^ pred 12 * (- / (r * r)))
           - (4 * eps * sig ^ 6 / scale)
               * (INR 6 * (1 / r) ^ pred 6 * (- / (r * r))))
    end.
    + apply derivable_pt_lim_minus; apply deriv_inv_pow; exact Hr.
    + simpl INR. simpl pred. field. split; assumption.
Qed.

Lemma ex_getSigmaEpsilon :
  exists sig eps A B,
    _getSigmaEpsilon 0 1 (nth 0 (typeint ex_args) 0%nat)
      (nth 1 (typeint ex_args) 0%nat) ex_args
    = Ok (sig, eps, A, B, 1).
Proof.
  kcbv. destruct (Rlt_dec (1 * 1) 0) as [E|E]; [exfalso; lra|].
  do 4 eexists. reflexivity.
Qed.

Lemma _evaluate_lj_potential_witness :
  exists sig eps F,
    _evaluate_lj 0 1 ex_args 2
    = Ok (4 * eps * ((sig / 2) ^ 12 - (sig / 2) ^ 6) / 1, F)
    /\ derivable_pt_lim
         (fun x => 4 * eps * ((sig / x) ^ 12 - (sig / x) ^ 6) / 1) 2 F.
Proof.
  destruct ex_getSigmaEpsilon as (sig & eps & A & B & H).
  exists sig, eps.
  apply (_evaluate_lj_potential 0 1 ex_args sig eps A B 1 H); lra.
Defined.

Lemma Rpower_sixth : Rpower 2 (1 / 6) ^ 6 = 2 /\ 0 < Rpower 2 (1 / 6).
Proof.
  assert (Hpos : 0 < Rpower 2 (1 / 6)) by (unfold Rpower; apply exp_pos).
  split; [|exact Hpos].
  rewrite <- (Rpower_pow 6 _ Hpos), Rpower_mult.
  replace (1 / 6 * INR 6) with 1 by (simpl; field).
  apply Rpower_1. lra.
Qed.

(** X11.  The 12-6 potential of [_evaluate_lj] crosses zero at the
    distance [sig], and has its minimum [- eps / scale], with zero force,
    at the distance [2^(1/6) sig] (the [rmin] that [init] converts to
    [sig] for the NBFIX pairs). *)
Theorem _evaluate_lj_zero_and_minimum (i j : nat) (a : ffargs)
    (sig eps A B scale : R) :
  _getSigmaEpsilon i j (nth i (typeint a) 0%nat) (nth j (typeint a) 0%nat) a
  = Ok (sig, eps, A, B, scale) ->
  scale <> 0 ->
  sig <> 0 ->
  _evaluate_lj i j a sig = Ok (0, -24 * eps / (sig * scale))
  /\ _evaluate_lj i j a (sig * Rpower 2 (1 / 6)) = Ok (- eps / scale, 0).
Proof.
  intros Hse Hscale Hsig.
  destruct (_getSigmaEpsilon_AB _ _ _ _ _ _ _ _ _ _ Hse) as [-> ->].
  destruct Rpower_sixth as [Ht Htpos].
  set (t := Rpower 2 (1 / 6)) in *.
  unfold _evaluate_lj. rewrite Hse. cbn [bind]. split.
  - rewrite (fdiv_nonzero 1 sig Hsig). cbn [bind].
    rewrite !(fdiv_nonzero _ scale Hscale). cbn [bind].
    f_equal. f_equal; field; split; assumption.
  - assert (Hst : sig * t <> 0) by (apply Rmult_integral_contrapositive; lra).
    rewrite (fdiv_nonzero 1 (sig * t) Hst). cbn [bind].
    rewrite !(fdiv_nonzero _ scale Hscale). cbn [bind].
    set (rinv1 := 1 / (sig * t)).
    assert (H6 : rinv1 * rinv1 * (rinv1 * rinv1) * (rinv1 * rinv1)
                 = / (sig ^ 6 * 2)).
    { rewrite <- Ht. unfold rinv1. field. split; lra. }
    rewrite !H6. f_equal. f_equal.
    + field. split; assumption.
    + unfold rinv1. field. repeat split; lra.
Qed.

Lemma _evaluate_lj_zero_and_minimum_witness :
  exists sig eps,
    _evaluate_lj 0 1 ex_args sig = Ok (0, -24 * eps / (sig * 1))
    /\ _evaluate_lj 0 1 ex_args (sig * Rpower 2 (1 / 6)) = Ok (- eps / 1, 0).
Proof.
  destruct ex_getSigmaEpsilon as (sig & eps & A & B & H).
  exists sig, eps.
  apply (_evaluate_lj_zero_and_minimum 0 1 ex_args sig eps A B 1 H); [lra|].
  revert H. kcbv.
  destruct (Rlt_dec (1 * 1) 0) as [E|E]; [intros; exfalso; lra|].
  intros H. injection H as <- _ _ _. lra.
Defined.

(** X12.  [_evaluate_elec] is the Coulomb potential
    [ELEC_FACTOR q_i q_j / (r scale)], or with [rfa] the reaction-field
    potential [ELEC_FACTOR q_i q_j / scale (1 / r + krf r^2 - crf)] with
    [krf = (eps - 1) / ((2 eps + 1) cutoff^3)] and
    [crf = 3 eps / ((2 eps + 1) cutoff)], and the force coefficient it
    returns is the derivative of that potential with respect to the
    distance. *)
Theorem _evaluate_elec_potential (i j : nat) (charge : list R)
    (e14a : list (list Z)) (e14v : list (list (option R)))
    (EF : R) (rfa : bool) (eps Rc scale : R) :
  elec_scale i j e14a e14v = Ok scale ->
  scale <> 0 ->
  (rfa = true -> Rc <> 0 /\ 2 * eps + 1 <> 0) ->
  let q := EF * nth i charge 0 * nth j charge 0 in
  let V := fun r =>
    if rfa
    then q / scale * (1 / r + (eps - 1) / ((2 * eps + 1) * Rc ^ 3) * r ^ 2
                      - 3 * eps / ((2 * eps + 1) * Rc))
    else q / (r * scale) in
  forall r, r <> 0 ->
    exists F,
      _evaluate_elec i j charge e14a e14v EF r rfa eps Rc = Ok (V r, F)
      /\ derivable_pt_lim V r F.
Proof.
  intros Hscale Hs Hrfa q V r Hr. unfold _evaluate_elec.
  rewrite Hscale. cbn [bind]. fold q. subst V. destruct rfa.
  - destruct (Hrfa eq_refl) as [HRc Hden].
    assert (Rc ^ 3 <> 0) by (apply pow_nonzero; exact HRc).
    assert (r ^ 2 <> 0) by (apply pow_nonzero; exact Hr).
    repeat (rewrite fdiv_nonzero by assumption; cbn [bind]).
    eexists. split.
    + f_equal. f_equal. field. repeat split; assumption.
    + apply (derivable_pt_lim_ext
               (plus_fct
                  (plus_fct (fun x => q / scale * (1 / x) ^ 1)
                     (mult_real_fct
                        (q / scale * ((eps - 1) / ((2 * eps + 1) * Rc ^ 3)))
                        (fun x => x ^ 2)))
                  (fct_cte
                     (- (q / scale * (3 * eps / ((2 * eps + 1) * Rc))))))).
      { intros z. unfold plus_fct, mult_real_fct, fct_cte. ring. }
      match goal with
      | |- derivable_pt_lim _ _ ?F =>
          replace F with
            (q / scale * (INR 1 * (1 / r) ^ pred 1 * (- / (r * r)))
             + q / scale * ((eps - 1) / ((2 * eps + 1) * Rc ^ 3))
               * (INR 2 * r ^ pred 2)
             + 0)
      end.
      * apply derivable_pt_lim_plus; [apply derivable_pt_lim_plus|].
        -- apply deriv_inv_pow, Hr.
        -- apply derivable_pt_lim_scal, derivable_pt_lim_pow.
        -- apply derivable_pt_lim_const.
      * simpl INR. simpl pred. field. repeat split; assumption.
  - repeat (rewrite fdiv_nonzero by assumption; cbn [bind]).
    eexists. split.
    + f_equal. f_equal. field. split; assumption.
    + apply (derivable_pt_lim_ext (fun x => q / scale * (1 / x) ^ 1)).
      { intros z. unfold Rdiv. rewrite Rinv_mult. ring. }
      match goal with
      | |- derivable_pt_lim _ _ ?F =>
          replace F with
            (q / scale * (INR 1 * (1 / r) ^ pred 1 * (- / (r * r))))
      end.
      * apply deriv_inv_pow, Hr.
      * simpl INR. simpl pred. field. split; assumption.
Qed.

Lemma _evaluate_elec_potential_witness :
  exists F,
    _evaluate_elec 0 3 (charge ex_topo) (e14a ex_topo) (e14v ex_topo)
      ELEC_FACTOR_value 5 true 78.5 12
    = Ok (ELEC_FACTOR_value * nth 0 (charge ex_topo) 0
            * nth 3 (charge ex_topo) 0 / 2
          * (1 / 5 + (78.5 - 1) / ((2 * 78.5 + 1) * 12 ^ 3) * 5 ^ 2
             - 3 * 78.5 / ((2 * 78.5 + 1) * 12)), F)
    /\ derivable_pt_lim
         (fun r =>
            ELEC_FACTOR_value * nth 0 (charge ex_topo) 0
              * nth 3 (charge ex_topo) 0 / 2
            * (1 / r + (78.5 - 1) / ((2 * 78.5 + 1) * 12 ^ 3) * r ^ 2
               - 3 * 78.5 / ((2 * 78.5 + 1) * 12))) 5 F.
Proof.
  apply (_evaluate_elec_potential 0 3 (charge ex_topo) (e14a ex_topo)
           (e14v ex_topo) ELEC_FACTOR_value true 78.5 12 2).
  - reflexivity.
  - lra.
  - intros _. split; lra.
  - lra.
Defined.

(** ** The combination rule *)

Lemma nbfix_match_sym (it jt : nat) (row : nbfix_row) :
  nbfix_match it jt row = nbfix_match jt it row.
Proof.
  destruct row as [[[[[t0 t1] e] s] e14] s14]. unfold nbfix_match.
  apply orb_comm.
Qed.

Lemma find_pointwise {A : Type} (p q : A -> bool) (l : list A) :
  (forall x, p x = q x) -> find p l = find q l.
Proof.
  intros H. induction l as [|x r IH]; simpl; [reflexivity|].
  rewrite H, IH. reflexivity.
Qed.

(** X13.  The Lennard-Jones parameters of a pair do not depend on the
    order of the two atom types: an NBFIX row is found for either order,
    and the Lorentz-Berthelot rule is symmetric. *)
Theorem _getSigmaEpsilon_types_symmetric (i j it jt : nat) (a : ffargs) :
  _getSigmaEpsilon i j it jt a = _getSigmaEpsilon i j jt it a.
Proof.
  unfold _getSigmaEpsilon.
  rewrite (find_pointwise (nbfix_match it jt) (nbfix_match jt it))
    by (intros row; apply nbfix_match_sym).
  destruct (match find_col _ _ _ with Some e => _ | None => _ end)
    as [[scale found14]|e]; [|reflexivity].
  cbn [bind]. destruct (find (nbfix_match jt it) (nbfix a)); [reflexivity|].
  rewrite (Rmult_comm (nth jt _ 0) (nth it _ 0)).
  rewrite (Rplus_comm (nth jt _ 0) (nth it _ 0)).
  reflexivity.
Qed.

(** ** The shape of the result *)

Lemma pair_body_shaped nu coords box a n f i j st st' :
  shaped n st ->
  pair_body nu coords box a f i j st = Ok st' -> shaped n st'.
Proof.
  intros Hs H. unfold pair_body in H.
  destruct (usersets a && negb _); [injection H as <-; exact Hs|].
  destruct (_ispaired (excl a) i j) eqn:Hex;
  destruct (_ispaired (bonda a) i j) eqn:Hbo; cbn [andb negb] in H;
    try (injection H as <-; exact Hs).
  all: destruct (beyond_cutoff _ _); [injection H as <-; exact Hs|].
  all: repeat (bind_inv H;
               match goal with
               | x : (R * R)%type |- _ => destruct x as [? ?]
               end).
  all: destruct (unitvec _ _) as [u|]; [|discriminate].
  all: injection H as <-.
  all: auto 20 with shaped.
Qed.

Lemma angle_body_shaped nu coords box a n f i st st' :
  shaped n st ->
  angle_body nu coords box a f i st = Ok st' -> shaped n st'.
Proof.
  intros Hs H. unfold angle_body in H.
  destruct (nth i (angles a) _) as [[i0 i1] i2].
  bind_inv H. destruct x as [pot [[f0 f1] f2]]. injection H as <-.
  auto 20 with shaped.
Qed.

Lemma torsion_body_shaped nu coords box n t quads params f i st st' :
  shaped n st ->
  torsion_body nu coords box t quads params f i st = Ok st' -> shaped n st'.
Proof.
  intros Hs H. unfold torsion_body, torsion_step in H.
  destruct (nth i quads _) as [[[i0 i1] i2] i3].
  bind_inv H. destruct x as [pot [[[f0 f1] f2] f3]]. injection H as <-.
  auto 20 with shaped.
Qed.

Lemma frame_eval_shaped nu coords box a f st :
  frame_eval nu coords box a f = Ok st -> shaped (natoms coords) st.
Proof.
  intros H. unfold frame_eval in H. bind_inv H.
  assert (Hx' : shaped (natoms coords) x).
  { revert Hx. unfold pair_loop. apply forM_seq_invariant.
    - intros i s1 s2 _. apply forM_seq_invariant.
      intros j s3 s4 _. apply pair_body_shaped.
    - apply acc_zero_balanced. }
  destruct (usersets a); [injection H as <-; exact Hx'|].
  bind_inv H.
  apply (forM_seq_invariant (shaped (natoms coords))) in Hx0;
    [ | intros i s1 s2 _; apply angle_body_shaped | exact Hx'].
  bind_inv H.
  apply (forM_seq_invariant (shaped (natoms coords))) in Hx1;
    [ | intros i s1 s2 _; apply torsion_body_shaped | exact Hx0].
  apply (forM_seq_invariant (shaped (natoms coords))) in H;
    [exact H | intros i s1 s2 _; apply torsion_body_shaped | exact Hx1].
Qed.

(** X14.  Whatever the topology arrays hold, a result of [_ffevaluate]
    has one entry per frame of the coordinates, and in every frame one
    force row and one energy row per atom of the coordinates. *)
Theorem _ffevaluate_shape nu (coords : ndarray3) (box : ndarray2) (a : ffargs)
    (r : list acc) :
  _ffevaluate nu coords box a = Ok r ->
  List.length r = nframes coords
  /\ Forall (fun st => List.length (forces st) = natoms coords
                       /\ List.length (atmnrg st) = natoms coords) r.
Proof.
  intros H. unfold _ffevaluate in H. split.
  - apply mapM_length in H. rewrite H. apply length_seq.
  - apply Forall_forall. intros st Hst.
    apply In_nth_error in Hst as [f Hf].
    destruct (mapM_nth_error _ _ _ H f st Hf) as (f' & _ & Hev).
    apply frame_eval_shaped in Hev. exact Hev.
Qed.

Lemma _ffevaluate_shape_witness :
  exists r,
    _ffevaluate spec_numbautil ex_coords ex_box ex_args = Ok r
    /\ List.length r = nframes ex_coords
    /\ Forall (fun st => List.length (forces st) = natoms ex_coords
                         /\ List.length (atmnrg st) = natoms ex_coords) r.
Proof.
  destruct ex_ffevaluate_defined as [r Hr]. exists r. split; [exact Hr|].
  exact (_ffevaluate_shape spec_numbautil ex_coords ex_box ex_args r Hr).
Defined.

(** ** An empty selection *)

Lemma forM_skip {A S : Type} (body : A -> S -> res S) (xs : list A) (st : S) :
  (forall x, In x xs -> forall s, body x s = Ok s) ->
  forM xs body st = Ok st.
Proof.
  induction xs as [|x r IH]; simpl; intros H; [reflexivity|].
  rewrite (H x (or_introl eq_refl)). cbn [bind]. apply IH. auto.
Qed.

Lemma mapM_const {A B : Type} (g : A -> res B) (xs : list A) (y : B) :
  (forall x, In x xs -> g x = Ok y) ->
  mapM g xs = Ok (repeat y (List.length xs)).
Proof.
  induction xs as [|x r IH]; simpl; intros H; [reflexivity|].
  rewrite (H x (or_introl eq_refl)). cbn [bind]. rewrite IH by auto.
  reflexivity.
Qed.

(** X15.  Between-sets with exactly one empty selection: no pair is
    between the sets and the bonded terms are skipped, so every frame has
    zero energies and zero forces; no coordinate is read, and the call
    returns even for coordinates on which the kernels would fail. *)
Theorem one_empty_selection_zero nu (coords : ndarray3) (box : ndarray2)
    (a : ffargs) :
  (set1 a = [] /\ set2 a <> []) \/ (set1 a <> [] /\ set2 a = []) ->
  _ffevaluate nu coords box a
  = Ok (repeat (acc_zero (natoms coords)) (nframes coords)).
Proof.
  intros Hsets.
  assert (Hu : usersets a = true).
  { apply usersets_true_iff. tauto. }
  assert (Hin : forall i j, _insets i j (set1 a) (set2 a) = false).
  { intros i j. rewrite _insets_first_hits.
    destruct Hsets as [[-> _]|[_ ->]]; simpl; [reflexivity|].
    destruct (first_hit (set1 a) i j); reflexivity. }
  unfold _ffevaluate.
  replace (repeat (acc_zero (natoms coords)) (nframes coords))
    with (repeat (acc_zero (natoms coords))
            (List.length (seq 0 (nframes coords))))
    by (rewrite length_seq; reflexivity).
  apply mapM_const. intros f _. unfold frame_eval, pair_loop.
  rewrite forM_skip; [cbn [bind]; rewrite Hu; reflexivity|].
  intros i _ s. apply forM_skip. intros j _ s'.
  unfold pair_body. rewrite Hu, Hin. reflexivity.
Qed.

Lemma one_empty_selection_zero_witness :
  _ffevaluate spec_numbautil ex_coords ex_box
    (mk_ffargs ex_topo [0; 1]%Z [] 0 false 78.5)
  = Ok (repeat (acc_zero (natoms ex_coords)) (nframes ex_coords)).
Proof.
  apply one_empty_selection_zero. right. split; [discriminate | reflexivity].
Defined.

(** ** Translation of the coordinates *)

Lemma forM_pointwise {A S : Type} (body body' : A -> S -> res S)
    (xs : list A) (st : S) :
  (forall x s, body x s = body' x s) -> forM xs body st = forM xs body' st.
Proof.
  intros H. revert st. induction xs as [|x r IH]; intros st; simpl;
    [reflexivity|].
  rewrite H. destruct (body' x st); simpl; [apply IH | reflexivity].
Qed.

Lemma mapM_pointwise {A B : Type} (g g' : A -> res B) (xs : list A) :
  (forall x, g x = g' x) -> mapM g xs = mapM g' xs.
Proof.
  intros H. induction xs as [|x r IH]; simpl; [reflexivity|].
  rewrite H, IH. reflexivity.
Qed.

Lemma atom_pos_translate (t : vec3) (coords : ndarray3) (i f : nat) :
  atom_pos (translate t coords) i f = vadd (atom_pos coords i f) t.
Proof. destruct t as [[t0 t1] t2]. reflexivity. Qed.

Lemma wrap3_shift (w : R -> R -> R) (p q t bx : vec3) :
  wrap3 w (vadd p t) (vadd q t) bx = wrap3 w p q bx.
Proof.
  destruct p as [[p0 p1] p2], q as [[q0 q1] q2], t as [[t0 t1] t2],
    bx as [[l0 l1] l2].
  unfold wrap3, vadd.
  replace (p0 + t0 - (q0 + t0)) with (p0 - q0) by ring.
  replace (p1 + t1 - (q1 + t1)) with (p1 - q1) by ring.
  replace (p2 + t2 - (q2 + t2)) with (p2 - q2) by ring.
  reflexivity.
Qed.

Lemma pair_body_translate nu t coords box a f i j st :
  pair_body nu (translate t coords) box a f i j st
  = pair_body nu coords box a f i j st.
Proof.
  assert (Hd : pair_direction nu (translate t coords) box f i j
               = pair_direction nu coords box f i j).
  { unfold pair_direction. rewrite !atom_pos_translate. apply wrap3_shift. }
  unfold pair_body, pair_dist. rewrite Hd. reflexivity.
Qed.

Lemma natoms_translate t coords : natoms (translate t coords) = natoms coords.
Proof. destruct t as [[t0 t1] t2]. reflexivity. Qed.

Lemma nframes_translate t coords :
  nframes (translate t coords) = nframes coords.
Proof. destruct t as [[t0 t1] t2]. reflexivity. Qed.

Lemma angle_body_translate nu t coords box a f i st :
  angle_body nu (translate t coords) box a f i st
  = angle_body nu coords box a f i st.
Proof.
  unfold angle_body. destruct (nth i (angles a) _) as [[i0 i1] i2].
  rewrite !atom_pos_translate.
  assert (E : forall p0 p1 p2 prm bx,
             _evaluate_angles nu (vadd p0 t, vadd p1 t, vadd p2 t) prm bx
             = _evaluate_angles nu (p0, p1, p2) prm bx).
  { intros p0 p1 p2 [k0 theta0] bx. unfold _evaluate_angles.
    rewrite !wrap3_shift. reflexivity. }
  rewrite E. reflexivity.
Qed.

Lemma torsion_body_translate nu t coords box tm quads params f i st :
  (forall pos bx,
     dihedralAngleFull nu (shift4 t pos) bx = dihedralAngleFull nu pos bx) ->
  torsion_body nu (translate t coords) box tm quads params f i st
  = torsion_body nu coords box tm quads params f i st.
Proof.
  intros Hnu. unfold torsion_body, torsion_step.
  destruct (nth i quads _) as [[[i0 i1] i2] i3].
  rewrite !atom_pos_translate.
  assert (E : forall p0 p1 p2 p3 row bx,
             _evaluate_torsion nu (vadd p0 t, vadd p1 t, vadd p2 t, vadd p3 t)
               row bx
             = _evaluate_torsion nu (p0, p1, p2, p3) row bx).
  { intros p0 p1 p2 p3 row bx. unfold _evaluate_torsion.
    rewrite <- (Hnu (p0, p1, p2, p3) bx). reflexivity. }
  rewrite E. reflexivity.
Qed.

(** X16.  Translation invariance.  Moving every atom by the same vector
    changes nothing in the result of [_ffevaluate], with or without a
    periodic box: the pair and the angle kernels read differences of
    positions only, and so does the dihedral angle of [numbautil]. *)
Theorem translation_invariance nu (t : vec3) (coords : ndarray3)
    (box : ndarray2) (a : ffargs) :
  (forall pos bx,
     dihedralAngleFull nu (shift4 t pos) bx = dihedralAngleFull nu pos bx) ->
  _ffevaluate nu (translate t coords) box a = _ffevaluate nu coords box a.
Proof.
  intros Hnu. unfold _ffevaluate. rewrite nframes_translate.
  apply mapM_pointwise. intros f. unfold frame_eval, pair_loop.
  rewrite natoms_translate.
  rewrite (forM_pointwise _
             (fun i => forM (seq (i + 1) (natoms coords - (i + 1)))
                            (pair_body nu coords box a f i))).
  2: { intros i s. apply forM_pointwise. intros j s'.
       apply pair_body_translate. }
  destruct (pair_loop nu coords box a f (acc_zero (natoms coords)))
    as [st|e] eqn:E; unfold pair_loop in E; rewrite E; cbn [bind];
    [|reflexivity].
  destruct (usersets a); [reflexivity|].
  rewrite (forM_pointwise _ (angle_body nu coords box a f))
    by (intros i s; apply angle_body_translate).
  destruct (forM _ (angle_body nu coords box a f) st) as [st1|e1];
    cbn [bind]; [|reflexivity].
  rewrite (forM_pointwise _
             (torsion_body nu coords box Dihedral (dihedrals a)
                (dihedral_params a) f))
    by (intros i s; apply torsion_body_translate, Hnu).
  destruct (forM _ (torsion_body nu coords box Dihedral _ _ f) st1)
    as [st2|e2]; cbn [bind]; [|reflexivity].
  apply forM_pointwise. intros i s. apply torsion_body_translate, Hnu.
Qed.

Lemma spec_dihedralAngleFull_shift (t : vec3) pos bx :
  dihedralAngleFull spec_numbautil (shift4 t pos) bx
  = dihedralAngleFull spec_numbautil pos bx.
Proof.
  destruct pos as [[[p0 p1] p2] p3].
  unfold spec_numbautil, dihedralAngleFull, spec_dihedralAngleFull, shift4.
  rewrite !wrap3_shift. reflexivity.
Qed.

Lemma translation_invariance_witness :
  _ffevaluate spec_numbautil (translate (1, 2, 3) ex_coords) ex_box ex_args
  = _ffevaluate spec_numbautil ex_coords ex_box ex_args.
Proof.
  apply translation_invariance. intros pos bx.
  apply spec_dihedralAngleFull_shift.
Defined.

(** ** [calculate]: the arrays of the caller and the shape of the box *)

Ltac grows := cbn [fst]; rewrite <- ?app_assoc; eexists; reflexivity.

(** The part of [calculate] after the default box is made. *)
Lemma calculate_tail_grows nu self (c1 : ndarray) (nfr : option nat)
    (bx : res ndarray) (h h2 : heap) :
  (exists h', h2 = h ++ h') ->
  exists h',
    fst (match bx with
         | Raise e => (h2, Raise e)
         | Ok box0 =>
             match shape box0 with
             | [] => (h2, Raise IndexError)
             | b0 :: rest =>
                 if negb (b0 =? 3)%nat then (h2, Raise ValueError)
                 else
                   match rest, nfr with
                   | b1 :: _, Some n =>
                       if negb (b1 =? n)%nat
                       then (h2, Raise ValueError)
                       else
                         let '(h3, coords32) := astype c1 h2 in
                         let '(h4, box32) := astype box0 h3 in
                         match shape coords32, shape box32 with
                         | [s0; s1; s2], [r; c0] =>
                             (h4, _ffevaluate nu
                                    (view3 h4 coords32 s0 s1 s2)
                                    (view2 h4 box32 r c0) self)
                         | _, _ => (h4, Raise TypeError)
                         end
                   | _, _ => (h2, Raise IndexError)
                   end
             end
         end) = h ++ h'.
Proof.
  intros [h' ->]. destruct bx as [box0|e]; [|grows].
  destruct (shape box0) as [|b0 rest] eqn:Eb; [grows|].
  destruct (negb (b0 =? 3)%nat); [grows|].
  destruct rest as [|b1 rest']; [grows|].
  destruct nfr as [n|]; [|grows].
  destruct (negb (b1 =? n)%nat); [grows|].
  unfold astype, copy. cbn [shape].
  destruct (shape c1) as [|s0 [|s1 [|s2 [|? ?]]]];
    rewrite ?Eb; try (destruct rest' as [|? [|? ?]]); grows.
Qed.

(** X17.  [calculate] never writes to an array of the caller: whatever
    the shapes of its arguments, and whether it returns or raises, the
    heap it leaves is the heap it was given followed by new buffers, and
    every array of the caller has the entries it had. *)
Theorem calculate_never_writes nu (self : ffargs) (c : ndarray)
    (box : option ndarray) (h : heap) :
  exists h',
    fst (calculate nu self c box h) = h ++ h'
    /\ forall x, (base x < List.length h)%nat ->
         buffer_of (fst (calculate nu self c box h)) x = buffer_of h x.
Proof.
  assert (Hgrows : exists h', fst (calculate nu self c box h) = h ++ h').
  { unfold calculate.
    destruct (List.length (shape c) =? 2)%nat.
    - set (c1 := mk_ndarray (List.length h) (shape (newaxis c))).
      set (h1 := h ++ [buffer_of h (newaxis c)]).
      destruct box as [b|].
      + apply (calculate_tail_grows nu self c1 (nth_error (shape c1) 2)
                 (Ok b) h h1).
        eexists. reflexivity.
      + unfold copy. cbv beta iota zeta. cbn [shape]. fold c1 h1.
        destruct (nth_error (shape (newaxis c)) 2) as [n|] eqn:En.
        * apply (calculate_tail_grows nu self c1 (Some n)
                   (Ok (mk_ndarray (List.length h1) [3%nat; n])) h
                   (h1 ++ [repeat 0 (fold_right Nat.mul 1%nat [3%nat; n])])).
          unfold h1. rewrite <- app_assoc. eexists. reflexivity.
        * unfold h1. grows.
    - destruct box as [b|].
      + apply (calculate_tail_grows nu self c (nth_error (shape c) 2)
                 (Ok b) h h).
        exists []. rewrite app_nil_r. reflexivity.
      + destruct (nth_error (shape c) 2) as [n|] eqn:En.
        * apply (calculate_tail_grows nu self c (Some n)
                   (Ok (mk_ndarray (List.length h) [3%nat; n])) h
                   (h ++ [repeat 0 (fold_right Nat.mul 1%nat [3%nat; n])])).
          eexists. reflexivity.
        * exists []. rewrite app_nil_r. reflexivity. }
  destruct Hgrows as [h' Hh'].
  exists h'. split; [exact Hh'|].
  intros x Hx. rewrite Hh'. apply buffer_of_old, Hx.
Qed.

(** X18.  A box whose shape is not (3, number of frames) makes
    [calculate] raise [ValueError], for coordinates of three dimensions
    and for coordinates of two dimensions, which count as one frame. *)
Theorem calculate_box_shape_error nu (self : ffargs) (c b : ndarray)
    (h : heap) (n s1 nfr b0 b1 : nat) (rest : list nat) :
  shape c = [n; s1; nfr] \/ (shape c = [n; s1] /\ nfr = 1%nat) ->
  shape b = b0 :: b1 :: rest ->
  b0 <> 3%nat \/ b1 <> nfr ->
  snd (calculate nu self c (Some b) h) = Raise ValueError.
Proof.
  intros Hc Hb Hbad.
  assert (G : forall c' h', shape c' = [n; s1; nfr] ->
              snd (calculate nu self c' (Some b) h') = Raise ValueError).
  { intros c' h' Hc'. unfold calculate. rewrite Hc'.
    cbn [List.length Nat.eqb]. rewrite Hc'. cbn [nth_error]. rewrite Hb.
    destruct (Nat.eqb_spec b0 3) as [E0|E0]; cbn [negb]; [|reflexivity].
    destruct (Nat.eqb_spec b1 nfr) as [E1|E1]; cbn [negb]; [|reflexivity].
    destruct Hbad; contradiction. }
  destruct Hc as [Hc|[Hc ->]].
  - apply G, Hc.
  - rewrite (calculate_2d nu self c (Some b) h n s1 Hc). apply G. reflexivity.
Qed.

Lemma calculate_box_shape_error_witness :
  snd (calculate spec_numbautil ex_args (mk_ndarray 0 [4; 3]%nat)
         (Some (mk_ndarray 1 [3; 2]%nat))
         [repeat 0 12; repeat 0 6])
  = Raise ValueError.
Proof.
  apply (calculate_box_shape_error spec_numbautil ex_args
           (mk_ndarray 0 [4; 3]%nat) (mk_ndarray 1 [3; 2]%nat)
           [repeat 0 12; repeat 0 6] 4 3 1 3 2 []).
  - right. split; reflexivity.
  - reflexivity.
  - right. discriminate.
Defined.

(** ** [formatEnergies] and [calculateEnergies] *)

Lemma squeezed_row_at (t : term) (energies : list nrg) (f : nat) (e : nrg) :
  nth_error energies f = Some e ->
  match squeezed_row t energies with
  | Number x => if (f =? 0)%nat then Some x else None
  | PerFrame xs => nth_error xs f
  end = Some (nrg_get t e).
Proof.
  intros H. unfold squeezed_row.
  destruct energies as [|e0 [|e1 r]].
  - destruct f; discriminate.
  - destruct f as [|[|f]]; simpl in H; try discriminate.
    injection H as ->. reflexivity.
  - rewrite nth_error_map, H. reflexivity.
Qed.

Lemma squeezed_sum_at (energies : list nrg) (f : nat) (e : nrg) :
  nth_error energies f = Some e ->
  match squeezed_sum energies with
  | Number x => if (f =? 0)%nat then Some x else None
  | PerFrame xs => nth_error xs f
  end = Some (nrg_sum e).
Proof.
  intros H. unfold squeezed_sum.
  destruct energies as [|e0 [|e1 r]].
  - destruct f; discriminate.
  - destruct f as [|[|f]]; simpl in H; try discriminate.
    injection H as ->. reflexivity.
  - rewrite nth_error_map, H. reflexivity.
Qed.

(** X19.  The dictionary of [formatEnergies] holds, for every frame of
    the energies array, the six components under their keys and, under
    ["total"], their sum; for an array of one frame the entries are
    numbers, for any other number of frames they are arrays with one
    number per frame. *)
Theorem formatEnergies_entries (energies : list nrg) :
  (forall f e, nth_error energies f = Some e ->
     (forall t, entry_at (formatEnergies energies) (term_key t) f
                = Some (nrg_get t e))
     /\ entry_at (formatEnergies energies) "total" f
        = Some (e_bond e + e_lj e + e_elec e + e_angle e + e_dihedral e
                + e_improper e))
  /\ (forall k v, In (k, v) (formatEnergies energies) ->
        match v with
        | Number _ => List.length energies = 1%nat
        | PerFrame xs =>
            List.length energies <> 1%nat
            /\ List.length xs = List.length energies
        end).
Proof.
  split.
  - intros f e H. split.
    + intros t. unfold entry_at.
      destruct t; cbn [term_key formatEnergies lookup_str String.eqb
                       Ascii.eqb Bool.eqb fst snd];
        apply squeezed_row_at, H.
    + unfold entry_at. cbn [formatEnergies lookup_str String.eqb Ascii.eqb
                            Bool.eqb].
      apply (squeezed_sum_at energies f e H).
  - intros k v Hin. unfold formatEnergies in Hin. simpl in Hin.
    unfold squeezed_row, squeezed_sum in Hin.
    destruct energies as [|e0 [|e1 r]];
      repeat (destruct Hin as [Hin|Hin]; [injection Hin as _ <-|]);
      try contradiction; simpl; try rewrite !length_map; auto; split;
      try discriminate; reflexivity.
Qed.

(** A result of [calculate] is a result of [_ffevaluate] on arrays whose
    number of atoms is the first dimension of the coordinates. *)
Lemma calculate_tail_runs nu self (c1 : ndarray) (nfr : option nat)
    (bx : res ndarray) (h2 : heap) (res : list acc) :
  snd (match bx with
       | Raise e => (h2, Raise e)
       | Ok box0 =>
           match shape box0 with
           | [] => (h2, Raise IndexError)
           | b0 :: rest =>
               if negb (b0 =? 3)%nat then (h2, Raise ValueError)
               else
                 match rest, nfr with
                 | b1 :: _, Some n =>
                     if negb (b1 =? n)%nat
                     then (h2, Raise ValueError)
                     else
                       let '(h3, coords32) := astype c1 h2 in
                       let '(h4, box32) := astype box0 h3 in
                       match shape coords32, shape box32 with
                       | [s0; s1; s2], [r; c0] =>
                           (h4, _ffevaluate nu
                                  (view3 h4 coords32 s0 s1 s2)
                                  (view2 h4 box32 r c0) self)
                       | _, _ => (h4, Raise TypeError)
                       end
                 | _, _ => (h2, Raise IndexError)
                 end
           end
       end) = Ok res ->
  exists coords3 box2,
    natoms coords3 = hd 0%nat (shape c1)
    /\ _ffevaluate nu coords3 box2 self = Ok res.
Proof.
  destruct bx as [box0|e]; [|discriminate].
  destruct (shape box0) as [|b0 rest] eqn:Eb; [discriminate|].
  destruct (negb (b0 =? 3)%nat); [discriminate|].
  destruct rest as [|b1 rest']; [discriminate|].
  destruct nfr as [n|]; [|discriminate].
  destruct (negb (b1 =? n)%nat); [discriminate|].
  unfold astype, copy. cbn [shape].
  destruct (shape c1) as [|s0 [|s1 [|s2 [|? ?]]]];
    rewrite ?Eb; try discriminate.
  destruct rest' as [|? ?]; [|discriminate].
  cbn [snd]. intros H. do 2 eexists. split; [|exact H]. reflexivity.
Qed.

Lemma calculate_runs_ffevaluate nu self (c : ndarray) box (h : heap)
    (res : list acc) :
  snd (calculate nu self c box h) = Ok res ->
  exists coords3 box2,
    natoms coords3 = hd 0%nat (shape c)
    /\ _ffevaluate nu coords3 box2 self = Ok res.
Proof.
  unfold calculate.
  destruct (List.length (shape c) =? 2)%nat eqn:E2.
  - set (c1 := mk_ndarray (List.length h) (shape (newaxis c))).
    set (h1 := h ++ [buffer_of h (newaxis c)]).
    assert (Hhd : hd 0%nat (shape c1) = hd 0%nat (shape c)).
    { unfold c1, newaxis. cbn [shape].
      destruct (shape c); [discriminate | reflexivity]. }
    rewrite <- Hhd. destruct box as [b|].
    + apply (calculate_tail_runs nu self c1 (nth_error (shape c1) 2)
               (Ok b) h1).
    + unfold copy. cbv beta iota zeta. cbn [shape]. fold c1 h1.
      destruct (nth_error (shape (newaxis c)) 2) as [n|] eqn:En.
      * apply (calculate_tail_runs nu self c1 (Some n)
                 (Ok (mk_ndarray (List.length h1) [3%nat; n]))
                 (h1 ++ [repeat 0 (fold_right Nat.mul 1%nat [3%nat; n])])).
      * discriminate.
  - destruct box as [b|].
    + apply (calculate_tail_runs nu self c (nth_error (shape c) 2) (Ok b) h).
    + destruct (nth_error (shape c) 2) as [n|] eqn:En.
      * apply (calculate_tail_runs nu self c (Some n)
                 (Ok (mk_ndarray (List.length h) [3%nat; n]))
                 (h ++ [repeat 0 (fold_right Nat.mul 1%nat [3%nat; n])])).
      * discriminate.
Qed.

(** X20.  For an evaluator that the constructor returns and coordinates
    whose first dimension is [mol.numAtoms]: the entry ["total"] of the
    dictionary of [calculateEnergies] is, in every frame, the sum over all
    atoms and all components of the per-atom energies that [calculate]
    returns for the same arguments. *)
Theorem calculateEnergies_total atomselect nu (mol : Molecule)
    (prm : ParameterSet) betweensets cut r sd (self : ffargs)
    (c : ndarray) box (h : heap) (d : list (string * energy_value)) :
  FFEvaluate_init atomselect mol prm betweensets cut r sd = Ok self ->
  hd 0%nat (shape c) = numAtoms mol ->
  snd (calculateEnergies nu self c box true h) = Ok (Formatted d) ->
  fst (calculateEnergies nu self c box true h)
  = fst (calculate nu self c box h)
  /\ exists res,
       snd (calculate nu self c box h) = Ok res
       /\ forall f st, nth_error res f = Some st ->
            entry_at d "total" f = Some (atmnrg_sum (atmnrg st)).
Proof.
  intros Hinit Hn. unfold calculateEnergies.
  destruct (calculate nu self c box h) as [h' rr] eqn:Ecalc. cbn [fst snd].
  destruct rr as [res|e]; [|discriminate]. cbn [bind].
  intros Hd. injection Hd as <-. split; [reflexivity|].
  exists res. split; [reflexivity|]. intros f st Hf.
  assert (Hrun : snd (calculate nu self c box h) = Ok res)
    by (rewrite Ecalc; reflexivity).
  apply calculate_runs_ffevaluate in Hrun as (coords3 & box2 & Hnat & Hev).
  unfold FFEvaluate_init in Hinit.
  apply bind_Ok in Hinit as ([[mol' sA] sB] & Hsets & Hinit).
  apply bind_Ok in Hinit as (args & Hargs & Hinit). injection Hinit as <-.
  apply calculateSets_numAtoms in Hsets.
  apply init_indexes in Hargs as [_ Hwf].
  specialize (Hwf sA sB cut r sd). rewrite Hsets, <- Hn, <- Hnat in Hwf.
  destruct (_ffevaluate_balanced _ _ _ _ _ Hwf Hev) as [_ Hb].
  destruct (Hb f st Hf) as (_ & Hg & _). unfold gap in Hg.
  unfold entry_at. cbn [formatEnergies lookup_str String.eqb Ascii.eqb
                        Bool.eqb].
  rewrite (squeezed_sum_at (map energies res) f (energies st))
    by (rewrite nth_error_map, Hf; reflexivity).
  f_equal. lra.
Qed.

(** A frame is evaluated from the positions of its atoms and its box. *)
Lemma frame_eval_pointwise nu (c c' : ndarray3) (b b' : ndarray2)
    (a : ffargs) (f f' : nat) :
  natoms c = natoms c' ->
  (forall i, atom_pos c i f = atom_pos c' i f') ->
  frame_box b f = frame_box b' f' ->
  frame_eval nu c b a f = frame_eval nu c' b' a f'.
Proof.
  intros Hn Hpos Hbox. unfold frame_eval, pair_loop. rewrite Hn.
  rewrite (forM_pointwise _
             (fun i => forM (seq (i + 1) (natoms c' - (i + 1)))
                            (pair_body nu c' b' a f' i))).
  2: { intros i s. apply forM_pointwise. intros j s'.
       unfold pair_body, pair_dist, pair_direction.
       rewrite !Hpos, Hbox. reflexivity. }
  destruct (forM (seq 0 (natoms c')) _ (acc_zero (natoms c'))) as [st|e];
    cbn [bind]; [|reflexivity].
  destruct (usersets a); [reflexivity|].
  rewrite (forM_pointwise _ (angle_body nu c' b' a f')).
  2: { intros i s. unfold angle_body.
       destruct (nth i (angles a) _) as [[i0 i1] i2].
       rewrite !Hpos, Hbox. reflexivity. }
  destruct (forM _ (angle_body nu c' b' a f') st) as [st1|e1];
    cbn [bind]; [|reflexivity].
  assert (Ht : forall tm quads params i s,
             torsion_body nu c b tm quads params f i s
             = torsion_body nu c' b' tm quads params f' i s).
  { intros tm quads params i s. unfold torsion_body, torsion_step.
    destruct (nth i quads _) as [[[i0 i1] i2] i3].
    rewrite !Hpos, Hbox. reflexivity. }
  rewrite (forM_pointwise _
             (torsion_body nu c' b' Dihedral (dihedrals a)
                (dihedral_params a) f'))
    by (intros i s; apply Ht).
  destruct (forM _ (torsion_body nu c' b' Dihedral _ _ f') st1)
    as [st2|e2]; cbn [bind]; [|reflexivity].
  apply forM_pointwise. intros i s. apply Ht.
Qed.

Lemma ex_calculate :
  snd (calculate spec_numbautil ex_args ex_coords2d None ex_heap)
  = _ffevaluate spec_numbautil ex_coords ex_box ex_args.
Proof.
  unfold calculate, ex_coords2d, ex_heap, copy, newaxis, zeros, astype, copy.
  cbn [shape base List.length Nat.eqb app nth_error negb snd fst buffer_of nth
       fold_right Nat.mul repeat].
  unfold _ffevaluate.
  change (nframes (view3 _ _ 4 3 1)) with 1%nat.
  change (nframes ex_coords) with 1%nat.
  cbn [seq mapM].
  rewrite (frame_eval_pointwise spec_numbautil _ ex_coords _ ex_box ex_args
             0 0); [reflexivity | reflexivity | | reflexivity].
  intros i. destruct i as [|[|[|[|i]]]]; try reflexivity.
  unfold atom_pos, view3, ex_coords, buffer_of.
  cbn [at3 base nth Nat.mul Nat.add].
  destruct ((i * 3 + 0) * 1 + 0)%nat, ((i * 3 + 1) * 1 + 0)%nat,
    ((i * 3 + 2) * 1 + 0)%nat; reflexivity.
Qed.

Lemma calculateEnergies_total_witness :
  exists d,
    snd (calculateEnergies spec_numbautil ex_args ex_coords2d None true ex_heap)
    = Ok (Formatted d)
    /\ fst (calculateEnergies spec_numbautil ex_args ex_coords2d None true
              ex_heap)
       = fst (calculate spec_numbautil ex_args ex_coords2d None ex_heap)
    /\ exists res,
         snd (calculate spec_numbautil ex_args ex_coords2d None ex_heap)
         = Ok res
         /\ forall f st, nth_error res f = Some st ->
              entry_at d "total" f = Some (atmnrg_sum (atmnrg st)).
Proof.
  destruct ex_ffevaluate_defined as [res Hres].
  assert (Hd : snd (calculateEnergies spec_numbautil ex_args ex_coords2d None
                      true ex_heap)
               = Ok (Formatted (formatEnergies (map energies res)))).
  { unfold calculateEnergies.
    pose proof ex_calculate as Hc. rewrite Hres in Hc.
    destruct (calculate spec_numbautil ex_args ex_coords2d None ex_heap)
      as [h' rr]. cbn [snd] in *. rewrite Hc. reflexivity. }
  exists (formatEnergies (map energies res)). split; [exact Hd|].
  exact (calculateEnergies_total ex_atomselect spec_numbautil ex_mol ex_prm
           None 0 false 78.5 ex_args ex_coords2d None ex_heap _
           ex_FFEvaluate_init eq_refl Hd).
Defined.

(** ** [loadParameters] *)

Lemma endswith_prmtop_not_prm (fname : string) :
  endswith fname ".prmtop" = true -> endswith fname ".prm" = false.
Proof.
  unfold endswith. generalize (rev (list_ascii_of_string fname)) as l.
  intros l. cbn [list_ascii_of_string rev app prefixb].
  destruct l as [|a l]; [discriminate|].
  destruct (Ascii.eqb_spec "p" a) as [<-|Hne]; cbn [andb]; [|discriminate].
  intros _. reflexivity.
Qed.

Lemma endswith_frcmod_not_prm (fname : string) :
  endswith fname ".frcmod" = true ->
  endswith fname ".prm" = false /\ endswith fname ".prmtop" = false.
Proof.
  unfold endswith. generalize (rev (list_ascii_of_string fname)) as l.
  intros l. cbn [list_ascii_of_string rev app prefixb].
  destruct l as [|a l]; [discriminate|].
  destruct (Ascii.eqb_spec "d" a) as [<-|Hne]; cbn [andb]; [|discriminate].
  intros _. split; reflexivity.
Qed.

(** X21.  The errors of [loadParameters].  A file name with none of the
    three extensions raises [RuntimeError].  For a [.prm] file no reader
    exception reaches the caller: the CHARMM reader is tried, then the
    AMBER one, and when both fail the call raises the same
    [RuntimeError].  For a [.prmtop] and for a [.frcmod] file the call
    returns what the AMBER reader returns, with the CMAP terms of the
    structure cleared for [.prmtop], and an exception of the reader
    reaches the caller as it is. *)
Theorem loadParameters_branches (AmberStructure : Type)
    (CharmmParameterSet : string -> res ParameterSet)
    (AmberParm : string -> res AmberStructure)
    (from_structure : AmberStructure -> res ParameterSet)
    (AmberParameterSet : string -> res ParameterSet)
    (clear_cmaps : AmberStructure -> AmberStructure) (fname : string) :
  let load := loadParameters AmberStructure CharmmParameterSet AmberParm
                from_structure AmberParameterSet clear_cmaps in
  (endswith fname ".prm" = false -> endswith fname ".prmtop" = false ->
   endswith fname ".frcmod" = false -> load fname = Raise RuntimeError)
  /\ (endswith fname ".prm" = true ->
      load fname
      = match CharmmParameterSet fname with
        | Ok prm => Ok prm
        | Raise _ =>
            match (struct <- AmberParm fname ;; from_structure struct) with
            | Ok prm => Ok prm
            | Raise _ => Raise RuntimeError
            end
        end)
  /\ (endswith fname ".prmtop" = true ->
      load fname
      = (struct <- AmberParm fname ;; from_structure (clear_cmaps struct)))
  /\ (endswith fname ".frcmod" = true -> load fname = AmberParameterSet fname).
Proof.
  intros load. subst load. unfold loadParameters. repeat split.
  - intros -> -> ->. reflexivity.
  - intros ->. destruct (CharmmParameterSet fname); [reflexivity|].
    destruct (AmberParm fname) as [st|e']; cbn [bind]; [|reflexivity].
    destruct (from_structure st); reflexivity.
  - intros H. rewrite (endswith_prmtop_not_prm _ H), H.
    destruct (AmberParm fname) as [st|e']; cbn [bind]; [|reflexivity].
    destruct (from_structure (clear_cmaps st)); reflexivity.
  - intros H. destruct (endswith_frcmod_not_prm _ H) as [-> ->]. rewrite H.
    destruct (AmberParameterSet fname); reflexivity.
Qed.

(** ** The parameter rows read by [_evaluate_torsion] *)

Lemma first_nan_Some (l : list R) (rest : list (option R)) (i : nat) :
  first_nan (map (@Some R) l ++ rest) i
  = first_nan rest (i + List.length l).
Proof.
  revert i. induction l as [|x r IH]; intros i; simpl.
  - rewrite Nat.add_0_r. reflexivity.
  - rewrite IH. f_equal. lia.
Qed.

Lemma dihedral_triples_length (dps : list DihedralType) :
  List.length (flat_map dihedral_triple dps) = (3 * List.length dps)%nat.
Proof.
  induction dps as [|d r IH]; simpl; [reflexivity|]. rewrite IH. lia.
Qed.

Lemma ntorsions_of_row (dps : list DihedralType) (k : nat) :
  ntorsions_of (map (@Some R) (flat_map dihedral_triple dps) ++ repeat None k)
  = List.length dps.
Proof.
  unfold ntorsions_of. rewrite first_nan_Some, dihedral_triples_length.
  destruct k as [|k]; cbn [repeat first_nan].
  - rewrite app_nil_r, length_map, dihedral_triples_length.
    rewrite Nat.mul_comm. apply Nat.div_mul. discriminate.
  - rewrite Nat.add_0_l, Nat.mul_comm. apply Nat.div_mul. discriminate.
Qed.

Lemma torsion_terms_read (phi : R) (dps : list DihedralType) :
  forall (pre : list R) (rest : list (option R)) (s : nat) (pc : R * R),
    List.length pre = (3 * s)%nat ->
    forM (seq s (List.length dps))
         (torsion_term
            (map (@Some R) (pre ++ flat_map dihedral_triple dps) ++ rest) phi)
         pc
    = Ok (dihedral_terms phi dps pc).
Proof.
  induction dps as [|d r IH]; intros pre rest s [pot coef] Hpre;
    [reflexivity|].
  cbn [List.length seq forM flat_map].
  assert (Hrd : forall o x, nth_error (dihedral_triple d) o = Some x ->
            readf (map (@Some R)
                     (pre ++ dihedral_triple d ++ flat_map dihedral_triple r)
                   ++ rest) (s * 3 + o) = Ok x).
  { intros o x Ho. unfold readf.
    rewrite (nth_error_nth _ _ None (x := Some x)); [reflexivity|].
    rewrite nth_error_app1.
    - rewrite nth_error_map, nth_error_app2 by lia.
      replace (s * 3 + o - List.length pre)%nat with o by lia.
      rewrite nth_error_app1; [rewrite Ho; reflexivity|].
      apply nth_error_Some. congruence.
    - rewrite length_map, !length_app.
      assert (o < List.length (dihedral_triple d))%nat
        by (apply nth_error_Some; congruence).
      lia. }
  unfold torsion_term at 1.
  rewrite (Hrd 0%nat (phi_k d) eq_refl). cbn [bind].
  rewrite (Hrd 1%nat (radians (phase d)) eq_refl). cbn [bind].
  rewrite (Hrd 2%nat (per d) eq_refl). cbn [bind].
  assert (Hstep : (if Rgt_dec (per d) 0
                   then Ok (pot + phi_k d * (1 + cos (per d * phi
                                                      - radians (phase d))),
                            coef + - per d * phi_k d
                                   * sin (per d * phi - radians (phase d)))
                   else Ok (pot + phi_k d
                                  * wrap_diff (phi - radians (phase d)) ^ 2,
                            coef + 2 * phi_k d
                                   * wrap_diff (phi - radians (phase d))))
                  = Ok (fst (pot, coef) + fst (dihedral_term phi d),
                        snd (pot, coef) + snd (dihedral_term phi d))).
  { unfold dihedral_term. destruct (Rgt_dec (per d) 0); reflexivity. }
  rewrite Hstep. cbn [bind].
  rewrite (app_assoc pre).
  rewrite (IH (pre ++ dihedral_triple d) rest (S s)); [reflexivity|].
  rewrite length_app. simpl. lia.
Qed.

Lemma _evaluate_torsion_terms nu pos (dps : list DihedralType) (k : nat) bx
    phi r12 r23 r34 :
  dihedralAngleFull nu pos bx = Ok (phi, r12, r23, r34) ->
  dot (cross r12 r23) (cross r12 r23) <> 0 ->
  dot (cross r23 r34) (cross r23 r34) <> 0 ->
  dot r23 r23 <> 0 ->
  exists force,
    _evaluate_torsion nu pos
      (map (@Some R) (flat_map dihedral_triple dps) ++ repeat None k) bx
    = Ok (fst (dihedral_terms phi dps (0, 0)), force).
Proof.
  intros Hphi H1 H2 H3. unfold _evaluate_torsion.
  rewrite ntorsions_of_row, Hphi. cbn [bind].
  pose proof (torsion_terms_read phi dps [] (repeat None k) 0 (0, 0) eq_refl)
    as Ht.
  cbn [app] in Ht. rewrite Ht. cbn [bind].
  destruct (dihedral_terms phi dps (0, 0)) as [pot coef].
  repeat (rewrite fdiv_nonzero by assumption; cbn [bind]).
  eexists. reflexivity.
Qed.

Lemma dihedral_step_row ats prm d st st' row :
  dihedral_step ats prm d st = Ok (st', row) ->
  (forall x, In x (alreadyadded st') ->
             x = stringrep d \/ In x (alreadyadded st))
  /\ (~ In (stringrep d) (alreadyadded st) ->
      exists ty dps,
        types_at ats (quad_list d) = Ok ty
        /\ dihedral_lookup prm ty = Ok dps
        /\ row = flat_map dihedral_triple dps).
Proof.
  unfold dihedral_step. intros H.
  destruct (existsb _ _) eqn:E.
  - injection H as <- <-. apply already_In in E. split; [auto | contradiction].
  - apply bind_Ok in H as (ty & Hty & H).
    apply bind_Ok in H as (dps & Hdps & H).
    destruct d as [[[d0 d1] d2] d3].
    apply bind_Ok in H as (s14a' & _ & H).
    apply bind_Ok in H as (fst' & _ & H).
    apply bind_Ok in H as (s14v' & _ & H).
    apply bind_Ok in H as (e14a' & _ & H).
    apply bind_Ok in H as (e14v' & _ & H). injection H as <- <-.
    cbn [alreadyadded]. split.
    + intros x [<-|Hx]; auto.
    + intros _. exists ty, dps. auto.
Qed.

Lemma dihedral_loop_rows ats prm l :
  forall st st' rows idx d,
    dihedral_loop ats prm l st = Ok (st', rows) ->
    nth_error l idx = Some d ->
    ~ In (stringrep d) (alreadyadded st) ->
    (forall idx' d', (idx' < idx)%nat -> nth_error l idx' = Some d' ->
                     stringrep d' <> stringrep d) ->
    exists ty dps,
      types_at ats (quad_list d) = Ok ty
      /\ dihedral_lookup prm ty = Ok dps
      /\ nth_error rows idx = Some (flat_map dihedral_triple dps).
Proof.
  induction l as [|d0 r IH]; intros st st' rows idx d H Hidx Hnew Hfirst.
  - destruct idx; discriminate.
  - cbn [dihedral_loop] in H.
    apply bind_Ok in H as ([st1 row] & Hstep & H).
    apply bind_Ok in H as ([st2 rows2] & Hloop & H). injection H as <- <-.
    destruct (dihedral_step_row _ _ _ _ _ _ Hstep) as [Hadd Hrow].
    destruct idx as [|idx]; simpl in Hidx.
    + injection Hidx as ->.
      destruct (Hrow Hnew) as (ty & dps & Hty & Hdps & ->).
      exists ty, dps. auto.
    + destruct (IH st1 st2 rows2 idx d Hloop Hidx) as (ty & dps & Hr).
      * intros Hin. apply Hadd in Hin as [E|Hin]; [|contradiction].
        apply (Hfirst 0%nat d0); [lia | reflexivity | congruence].
      * intros idx' d' Hlt Hd'. apply (Hfirst (S idx') d'); [lia | exact Hd'].
      * exists ty, dps. exact Hr.
Qed.

(** X22.  The parameter row of a dihedral.  For a dihedral of the
    molecule that does not repeat an earlier one, [init] stores the
    parameters of the dihedral type found for its atom types (exact,
    reversed or wildcard), and on every geometry that is not degenerate
    [_evaluate_torsion] returns for that row the sum of the energies of
    exactly these parameters: it reads every stored parameter and none of
    the padding. *)
Theorem init_dihedral_energy (mol : Molecule) (prm : ParameterSet) (tp : topo)
    (idx : nat) (d : quad) :
  init mol prm = Ok tp ->
  nth_error (mol_dihedrals mol) idx = Some d ->
  (forall idx' d', (idx' < idx)%nat ->
     nth_error (mol_dihedrals mol) idx' = Some d' ->
     stringrep d' <> stringrep d) ->
  exists ty dps,
    types_of mol (quad_list d) = Ok ty
    /\ dihedral_lookup prm ty = Ok dps
    /\ forall nu pos bx phi r12 r23 r34,
         dihedralAngleFull nu pos bx = Ok (phi, r12, r23, r34) ->
         dot (cross r12 r23) (cross r12 r23) <> 0 ->
         dot (cross r23 r34) (cross r23 r34) <> 0 ->
         dot r23 r23 <> 0 ->
         exists force,
           _evaluate_torsion nu pos (nth idx (dihedral_params tp) []) bx
           = Ok (fst (dihedral_terms phi dps (0, 0)), force).
Proof.
  unfold init. intros H Hidx Hfirst.
  apply bind_Ok in H as (atys & _ & H).
  apply bind_Ok in H as (nbf & _ & H).
  apply bind_Ok in H as ([[e1 p1] bv1] & _ & H).
  apply bind_Ok in H as ([e2 rows] & _ & H).
  apply bind_Ok in H as ([dst dprm] & Hd & H).
  apply bind_Ok in H as (iprm & _ & H).
  injection H as <-. cbn [dihedral_params].
  destruct (dihedral_loop_rows _ _ _ _ _ _ idx d Hd Hidx) as
    (ty & dps & Hty & Hdps & Hrow); [intros [] | exact Hfirst|].
  exists ty, dps. split; [exact Hty|]. split; [exact Hdps|].
  intros nu pos bx phi r12 r23 r34 Hphi H1 H2 H3.
  destruct (float_array_nth _ _ _ Hrow) as [k ->].
  apply (_evaluate_torsion_terms nu pos dps k bx phi r12 r23 r34); assumption.
Qed.

Lemma ex_dihedral_angle :
  exists phi,
    dihedralAngleFull spec_numbautil
      ((1, 0, 0), (0, 0, 0), (0, 1, 0), (0, 1, 1)) (0, 0, 0)
    = Ok (phi, (-1, 0, 0), (0, 1, 0), (0, 0, 1)).
Proof.
  unfold spec_numbautil, dihedralAngleFull, spec_dihedralAngleFull, wrap3.
  rewrite !spec_wrap_zero.
  replace (0 - 1) with (-1) by ring. replace (0 - 0) with 0 by ring.
  replace (1 - 0) with 1 by ring. replace (1 - 1) with 0 by ring.
  unfold fdiv.
  destruct (Req_EM_T _ 0) as [E|E]; cbn [bind]; [|eexists; reflexivity].
  exfalso. revert E. unfold cross, dot.
  replace (0 * 0 - 0 * 1) with 0 by ring.
  replace (0 * 0 - -1 * 0) with 0 by ring.
  replace (-1 * 1 - 0 * 0) with (-1) by ring.
  replace (1 * 1 - 0 * 0) with 1 by ring.
  replace (0 * 0 - 0 * 1) with 0 by ring.
  replace (0 * 0 - 1 * 0) with 0 by ring.
  replace (0 * 0 + 0 * 0 + -1 * -1) with 1 by ring.
  replace (1 * 1 + 0 * 0 + 0 * 0) with 1 by ring.
  rewrite sqrt_1. lra.
Qed.

Lemma init_dihedral_energy_witness :
  exists ty dps,
    types_of ex_mol (quad_list (0, 1, 2, 3)%nat) = Ok ty
    /\ dihedral_lookup ex_prm ty = Ok dps
    /\ exists phi force,
         _evaluate_torsion spec_numbautil
           ((1, 0, 0), (0, 0, 0), (0, 1, 0), (0, 1, 1))
           (nth 0 (dihedral_params ex_topo) []) (0, 0, 0)
         = Ok (fst (dihedral_terms phi dps (0, 0)), force).
Proof.
  destruct (init_dihedral_energy ex_mol ex_prm ex_topo 0 (0, 1, 2, 3)%nat
              ex_init eq_refl) as (ty & dps & Hty & Hdps & Hev).
  - intros idx' d' Hlt. lia.
  - exists ty, dps. split; [exact Hty|]. split; [exact Hdps|].
    destruct ex_dihedral_angle as [phi Hphi]. exists phi.
    apply (Hev spec_numbautil _ _ phi (-1, 0, 0) (0, 1, 0) (0, 0, 1) Hphi);
      unfold cross, dot; lra.
Defined.

(** X23.  The parameter row of an improper.  For every improper of the
    molecule [init] stores the parameters that [resolve_improper] finds,
    and on every geometry that is not degenerate [_evaluate_torsion]
    returns for that row: the harmonic energy
    [psi_k (phi - radians(psi_eq))^2], on the wrapped difference, for a
    parameter of [improper_types]; the energy of a dihedral parameter
    (periodic for a positive periodicity) for a parameter of
    [improper_periodic_types]. *)
Theorem init_improper_energy (mol : Molecule) (prm : ParameterSet) (tp : topo)
    (idx : nat) (q : quad) :
  init mol prm = Ok tp ->
  nth_error (mol_impropers mol) idx = Some q ->
  exists p,
    resolve_improper mol prm q = Ok p
    /\ forall nu pos bx phi r12 r23 r34,
         dihedralAngleFull nu pos bx = Ok (phi, r12, r23, r34) ->
         dot (cross r12 r23) (cross r12 r23) <> 0 ->
         dot (cross r23 r34) (cross r23 r34) <> 0 ->
         dot r23 r23 <> 0 ->
         exists force,
           _evaluate_torsion nu pos (nth idx (improper_params tp) []) bx
           = Ok (match p with
                 | From_improper_types t =>
                     0 + psi_k t * wrap_diff (phi - radians (psi_eq t)) ^ 2
                 | From_improper_periodic_types t =>
                     0 + fst (dihedral_term phi t)
                 end, force).
Proof.
  unfold init. intros H Hidx.
  apply bind_Ok in H as (atys & _ & H).
  apply bind_Ok in H as (nbf & _ & H).
  apply bind_Ok in H as ([[e1 p1] bv1] & _ & H).
  apply bind_Ok in H as ([e2 rows] & _ & H).
  apply bind_Ok in H as ([dst dprm] & _ & H).
  apply bind_Ok in H as (iprm & Hi & H).
  injection H as <-. cbn [improper_params].
  destruct (mapM_nth_error_fwd _ _ _ Hi _ _ Hidx) as (row & Hrow & Hres).
  apply bind_Ok in Hres as (p & Hp & Hres). injection Hres as <-.
  exists p. split; [exact Hp|].
  intros nu pos bx phi r12 r23 r34 Hphi H1 H2 H3.
  rewrite (nth_error_nth _ _ [] Hrow).
  destruct p as [t|t].
  - destruct (_evaluate_torsion_terms nu pos
                [mk_DihedralType (psi_k t) (psi_eq t) 0 0 0] 0 bx phi r12 r23
                r34 Hphi H1 H2 H3) as [force Hf].
    exists force. cbn [flat_map dihedral_triple app map repeat phi_k phase per]
      in Hf.
    unfold improper_row. rewrite Hf.
    unfold dihedral_terms, dihedral_term.
    cbn [fold_left fst snd per phi_k phase].
    destruct (Rgt_dec 0 0) as [E|E]; [exfalso; lra | reflexivity].
  - destruct (_evaluate_torsion_terms nu pos [t] 0 bx phi r12 r23 r34 Hphi H1
                H2 H3) as [force Hf].
    exists force. cbn [flat_map dihedral_triple app map repeat] in Hf.
    unfold improper_row. rewrite Hf. reflexivity.
Qed.

Lemma ex2_init : exists tp, init ex2_mol ex2_prm = Ok tp.
Proof. kcbv. eexists. reflexivity. Qed.

Lemma init_improper_energy_witness :
  exists tp p,
    init ex2_mol ex2_prm = Ok tp
    /\ resolve_improper ex2_mol ex2_prm (0, 1, 2, 3)%nat = Ok p
    /\ exists phi force,
         _evaluate_torsion spec_numbautil
           ((1, 0, 0), (0, 0, 0), (0, 1, 0), (0, 1, 1))
           (nth 0 (improper_params tp) []) (0, 0, 0)
         = Ok (match p with
               | From_improper_types t =>
                   0 + psi_k t * wrap_diff (phi - radians (psi_eq t)) ^ 2
               | From_improper_periodic_types t =>
                   0 + fst (dihedral_term phi t)
               end, force).
Proof.
  destruct ex2_init as [tp Htp].
  destruct (init_improper_energy ex2_mol ex2_prm tp 0 (0, 1, 2, 3)%nat Htp
              eq_refl) as (p & Hp & Hev).
  exists tp, p. split; [exact Htp|]. split; [exact Hp|].
  destruct ex_dihedral_angle as [phi Hphi]. exists phi.
  apply (Hev spec_numbautil _ _ phi (-1, 0, 0) (0, 1, 0) (0, 0, 1) Hphi);
    unfold cross, dot; lra.
Defined.

(** ** Degenerate angles *)

Lemma wrap3_self (w : R -> R -> R) (p bx : vec3) :
  (forall L, w 0 L = 0) -> wrap3 w p p bx = vzero.
Proof.
  intros Hw. destruct p as [[x y] z], bx as [[l0 l1] l2]. unfold wrap3.
  rewrite !Rminus_diag, !Hw. reflexivity.
Qed.

Lemma fdiv_raises (x y : R) (e : exn) :
  fdiv x y = Raise e -> e = ZeroDivisionError.
Proof. unfold fdiv. destruct (Req_EM_T y 0); congruence. Qed.

(** X24.  An end atom of an angle at the same place as its middle atom:
    the angle kernel does not return, it raises [ZeroDivisionError] (the
    wrap of [numbautil] leaving a zero distance zero).  The two end atoms
    at one place, away from the middle atom, are a collinear angle (X25):
    the kernel returns there. *)
Theorem _evaluate_angles_coincident nu (p0 p1 p2 : vec3) (prm : R * R)
    (box : vec3) :
  (forall L, wrapBondedDistance nu 0 L = 0) ->
  p0 = p1 \/ p2 = p1 ->
  _evaluate_angles nu (p0, p1, p2) prm box = Raise ZeroDivisionError.
Proof.
  intros Hw Hp. unfold _evaluate_angles. destruct prm as [k0 theta0].
  assert (Hz : sqrt (0 * 0 + 0 * 0 + 0 * 0) = 0)
    by (replace (0 * 0 + 0 * 0 + 0 * 0) with 0 by ring; apply sqrt_0).
  destruct (Req_EM_T 0 0) as [_|E]; [|exfalso; apply E; reflexivity].
  destruct Hp as [->| ->].
  - rewrite (wrap3_self _ p1 box Hw).
    destruct (wrap3 (wrapBondedDistance nu) p2 p1 box) as [[a0 a1] a2].
    unfold vzero.
    destruct (fdiv 1 (sqrt (a0 * a0 + a1 * a1 + a2 * a2))) as [x|e] eqn:E;
      cbn [bind].
    + rewrite Hz, fdiv_zero. reflexivity.
    + apply fdiv_raises in E. rewrite E. reflexivity.
  - rewrite (wrap3_self _ p1 box Hw).
    destruct (wrap3 (wrapBondedDistance nu) p0 p1 box) as [[b0 b1] b2].
    unfold vzero. rewrite Hz, fdiv_zero. reflexivity.
Qed.

Lemma _evaluate_angles_coincident_witness :
  _evaluate_angles spec_numbautil ((1, 2, 3), (1, 2, 3), (0, 0, 0)) (1, 2)
    (0, 0, 0)
  = Raise ZeroDivisionError.
Proof.
  apply _evaluate_angles_coincident.
  - intros L. unfold spec_numbautil, wrapBondedDistance, spec_wrapDistance.
    destruct (Rgt_dec L 0); [|reflexivity].
    unfold Rdiv. rewrite Rmult_0_l.
    replace (spec_round 0) with 0%Z; [lra|].
    unfold spec_round. apply tech_up; simpl; lra.
  - left. reflexivity.
Defined.

(** X25.  Three atoms of an angle on a line: the angle kernel divides by
    no zero; it returns the energy [k0 (theta - theta0)^2] of the angle
    [theta = 0] (both neighbours on the same side) or [theta = PI] (the
    middle atom between them), and zero forces on the three atoms. *)
Theorem _evaluate_angles_collinear nu (p0 p1 p2 : vec3) (k0 theta0 : R)
    (box u : vec3) (c : R) :
  wrap3 (wrapBondedDistance nu) p2 p1 box = u ->
  wrap3 (wrapBondedDistance nu) p0 p1 box = vscale c u ->
  u <> vzero ->
  c <> 0 ->
  _evaluate_angles nu (p0, p1, p2) (k0, theta0) box
  = Ok (k0 * ((if Rlt_dec c 0 then PI else 0) - theta0)
           * ((if Rlt_dec c 0 then PI else 0) - theta0),
        (vzero, vzero, vzero)).
Proof.
  intros Hu Hcu Hnz Hc. unfold _evaluate_angles. rewrite Hu, Hcu.
  destruct u as [[a0 a1] a2]. unfold vscale.
  set (n := a0 * a0 + a1 * a1 + a2 * a2).
  assert (Hn : 0 < n).
  { unfold n. destruct (Req_dec a0 0) as [E0|E0];
      destruct (Req_dec a1 0) as [E1|E1];
      destruct (Req_dec a2 0) as [E2|E2];
      try (subst; exfalso; apply Hnz; reflexivity); nra. }
  set (s := sqrt n).
  assert (Hs : 0 < s) by (apply sqrt_lt_R0; exact Hn).
  assert (Hss : s * s = n) by (apply sqrt_sqrt; lra).
  assert (Hn21 : sqrt (c * a0 * (c * a0) + c * a1 * (c * a1)
                       + c * a2 * (c * a2)) = Rabs c * s).
  { replace (c * a0 * (c * a0) + c * a1 * (c * a1) + c * a2 * (c * a2))
      with (Rsqr c * n) by (unfold n, Rsqr; ring).
    rewrite sqrt_mult by (try apply Rle_0_sqr; lra).
    rewrite sqrt_Rsqr_abs. reflexivity. }
  rewrite Hn21. fold s.
  assert (Habs : 0 < Rabs c) by (apply Rabs_pos_lt; exact Hc).
  rewrite (fdiv_nonzero 1 s) by lra. cbn [bind].
  rewrite (fdiv_nonzero 1 (Rabs c * s)) by nra. cbn [bind].
  assert (Hcos : (a0 * (c * a0) + a1 * (c * a1) + a2 * (c * a2))
                 * (1 / (Rabs c * s)) * (1 / s)
                 = if Rlt_dec c 0 then -1 else 1).
  { replace (a0 * (c * a0) + a1 * (c * a1) + a2 * (c * a2))
      with (c * (s * s)) by (rewrite Hss; unfold n; ring).
    destruct (Rlt_dec c 0) as [Hneg|Hpos].
    - rewrite (Rabs_left c Hneg). field. lra.
    - rewrite (Rabs_right c) by lra. field. lra. }
  rewrite Hcos.
  destruct (Rlt_dec c 0) as [Hneg|Hpos].
  - destruct (Rlt_dec (-1) (-1)) as [F|_]; [exfalso; lra|].
    destruct (Rgt_dec (-1) 1) as [F|_]; [exfalso; lra|].
    replace (1 - -1 * -1) with 0 by ring. rewrite sqrt_0.
    destruct (Req_EM_T 0 0) as [_|F]; [|exfalso; apply F; reflexivity].
    replace (acos (-1)) with PI
      by (replace (-1) with (Ropp 1) by lra; rewrite acos_opp, acos_1; ring).
    match goal with
    | |- Ok (_, (?f0, ?f1, ?f2)) = _ =>
        replace f0 with vzero by (unfold vzero; apply vec3_eq; ring);
        replace f1 with vzero by (unfold vzero; apply vec3_eq; ring);
        replace f2 with vzero by (unfold vzero; apply vec3_eq; ring)
    end.
    reflexivity.
  - destruct (Rlt_dec 1 (-1)) as [F|_]; [exfalso; lra|].
    destruct (Rgt_dec 1 1) as [F|_]; [exfalso; lra|].
    replace (1 - 1 * 1) with 0 by ring. rewrite sqrt_0.
    destruct (Req_EM_T 0 0) as [_|F]; [|exfalso; apply F; reflexivity].
    rewrite acos_1.
    match goal with
    | |- Ok (_, (?f0, ?f1, ?f2)) = _ =>
        replace f0 with vzero by (unfold vzero; apply vec3_eq; ring);
        replace f1 with vzero by (unfold vzero; apply vec3_eq; ring);
        replace f2 with vzero by (unfold vzero; apply vec3_eq; ring)
    end.
    reflexivity.
Qed.

Lemma _evaluate_angles_collinear_witness :
  _evaluate_angles spec_numbautil ((-2, 0, 0), (0, 0, 0), (1, 0, 0)) (3, 2)
    (0, 0, 0)
  = Ok (3 * ((if Rlt_dec (-2) 0 then PI else 0) - 2)
          * ((if Rlt_dec (-2) 0 then PI else 0) - 2),
        (vzero, vzero, vzero)).
Proof.
  apply (_evaluate_angles_collinear spec_numbautil (-2, 0, 0) (0, 0, 0)
           (1, 0, 0) 3 2 (0, 0, 0) (1, 0, 0) (-2)).
  - unfold spec_numbautil, wrapBondedDistance, wrap3.
    rewrite !spec_wrap_zero. f_equal; [f_equal|]; lra.
  - unfold spec_numbautil, wrapBondedDistance, wrap3, vscale.
    rewrite !spec_wrap_zero. f_equal; [f_equal|]; lra.
  - unfold vzero. intros H. injection H. intros. lra.
  - lra.
Defined.

(** ** A dihedral with no parameters *)

Lemma lookup_nil_None {V : Type} (n : nat) (table : list (key * V)) :
  (0 < n)%nat ->
  forallb (fun kv => (List.length (fst kv) =? n)%nat) table = true ->
  lookup [] table = None.
Proof.
  intros Hn. induction table as [|[k v] r IH]; simpl; intros H; [reflexivity|].
  apply andb_prop in H as [Hk Hr]. apply Nat.eqb_eq in Hk.
  destruct k; [simpl in Hk; lia | apply IH, Hr].
Qed.

(** X26.  The lookup of the dihedral loop of [init], for a type tuple and
    a table whose keys have its length.  When no key is the tuple, the
    reversed tuple, or a wildcard key matching it position by position,
    the lookup raises [KeyError], not the [RuntimeError] of the source's
    message; [RuntimeError] is raised only for a matching wildcard key
    whose parameter list is empty. *)
Theorem dihedral_lookup_errors (prm : ParameterSet) (ty : key) :
  ty <> [] ->
  forallb (fun kv => (List.length (fst kv) =? List.length ty)%nat)
          (dihedral_types prm) = true ->
  lookup ty (dihedral_types prm) = None ->
  lookup (rev ty) (dihedral_types prm) = None ->
  (find (fun kv => has_X (fst kv) && matches_positionwise (fst kv) ty)
        (dihedral_types prm) = None ->
   dihedral_lookup prm ty = Raise KeyError)
  /\ (dihedral_lookup prm ty = Raise RuntimeError ->
      exists k, has_X k = true /\ matches_positionwise k ty = true
                /\ lookup k (dihedral_types prm) = Some []).
Proof.
  intros Hty Hwf Hex Hrev. unfold dihedral_lookup. rewrite Hex, Hrev.
  rewrite (wildcard_substituted_spec ty (dihedral_types prm) Hwf).
  cbn [bind].
  assert (Hnil : lookup [] (dihedral_types prm) = None).
  { apply (lookup_nil_None (List.length ty)); [|exact Hwf].
    destruct ty; [contradiction | simpl; lia]. }
  destruct (find _ (dihedral_types prm)) as [[k v]|] eqn:Ef.
  - split; [discriminate|]. cbn [fst]. unfold getitem.
    apply find_some in Ef as [_ Hk]. cbn [fst] in Hk.
    apply andb_prop in Hk as [HX Hm].
    destruct (lookup k (dihedral_types prm)) as [dps|] eqn:El;
      cbn [bind]; [|discriminate].
    destruct dps; [|discriminate]. intros _. exists k. auto.
  - split.
    + intros _. unfold getitem. rewrite Hnil. reflexivity.
    + unfold getitem. rewrite Hnil. discriminate.
Qed.

Lemma dihedral_lookup_errors_witness :
  (find (fun kv => has_X (fst kv)
                   && matches_positionwise (fst kv) ["C"; "C"; "C"; "N"]%string)
        (dihedral_types ex_prm) = None ->
   dihedral_lookup ex_prm ["C"; "C"; "C"; "N"]%string = Raise KeyError)
  /\ (dihedral_lookup ex_prm ["C"; "C"; "C"; "N"]%string = Raise RuntimeError ->
      exists k, has_X k = true
                /\ matches_positionwise k ["C"; "C"; "C"; "N"]%string = true
                /\ lookup k (dihedral_types ex_prm) = Some []).
Proof.
  apply (dihedral_lookup_errors ex_prm ["C"; "C"; "C"; "N"]%string).
  - discriminate.
  - reflexivity.
  - reflexivity.
  - reflexivity.
Defined.

(** ** Between-sets and the topology *)

Lemma nth_map_np_unique_nil (n k : nat) :
  nth k (map (np_unique Nat.compare) (repeat [] n)) [] = [].
Proof.
  change (@nil nat) with (np_unique Nat.compare []) at 2.
  rewrite (map_nth (np_unique Nat.compare)), nth_repeat_nil. reflexivity.
Qed.

(** X27.  An evaluator built with between-sets has no exclusions, no
    bonds and no 1-4 pairs, whatever the topology of the molecule: a pair
    between the two sets gets its full Lennard-Jones and electrostatic
    terms, with no 1-4 scaling, also when its two atoms are bonded or
    share an angle or a dihedral in the molecule. *)
Theorem between_sets_no_exclusions atomselect (mol : Molecule)
    (prm : ParameterSet) (selA selB : string) c r sd (self : ffargs) :
  FFEvaluate_init atomselect mol prm (Some (selA, selB)) c r sd = Ok self ->
  forall i j,
    _ispaired (excl self) i j = false
    /\ _ispaired (bonda self) i j = false
    /\ find_col (nth i (s14a self) []) (Z.of_nat j) 0 = None
    /\ elec_scale i j (e14a self) (e14v self) = Ok 1.
Proof.
  intros H. apply FFEvaluate_init_between in H as (_ & _ & Hinit).
  unfold init, numAtoms in Hinit.
  cbn [atomtype mol_charge mol_bonds mol_angles mol_dihedrals mol_impropers
       forM angle_loop dihedral_loop mapM bind] in Hinit.
  apply bind_Ok in Hinit as (atys & _ & Hinit).
  apply bind_Ok in Hinit as (nbf & _ & Hinit).
  injection Hinit as Hinit. intros i j.
  assert (Hnone : forall nl, (forall k, nth k nl [] = []) ->
            _ispaired (int_array nl) i j = false
            /\ find_col (nth i (int_array nl) []) (Z.of_nat j) 0 = None).
  { intros nl Hnl.
    assert (Hp : _ispaired (int_array nl) i j = false).
    { destruct (_ispaired (int_array nl) i j) eqn:E; [|reflexivity].
      apply _ispaired_int_array in E. rewrite Hnl in E. contradiction. }
    split; [exact Hp|]. unfold _ispaired in Hp.
    rewrite (find_col_ispaired _ _ 0) in Hp.
    destruct (find_col _ _ 0); [discriminate | reflexivity]. }
  rewrite <- Hinit. cbn [ff_topo excl bonda s14a e14a e14v s14_atom_list
                         e14_atom_list e14_value_list].
  destruct (Hnone _ (nth_map_np_unique_nil (List.length (atomtype mol))))
    as [He _].
  destruct (Hnone (repeat [] (List.length (atomtype mol)))
              (fun k => nth_repeat_nil k _)) as [Hb Hs].
  repeat split; try assumption.
  unfold elec_scale. rewrite Hs. reflexivity.
Qed.

Lemma ex_between_init :
  exists self,
    FFEvaluate_init ex_atomselect ex_mol ex_prm (Some ("first", "last")%string)
      0 false 78.5 = Ok self.
Proof. kcbv. eexists. reflexivity. Qed.

Lemma between_sets_no_exclusions_witness :
  exists self,
    FFEvaluate_init ex_atomselect ex_mol ex_prm (Some ("first", "last")%string)
      0 false 78.5 = Ok self
    /\ _ispaired (excl self) 1 2 = false
    /\ _ispaired (bonda self) 1 2 = false
    /\ find_col (nth 1 (s14a self) []) (Z.of_nat 2) 0 = None
    /\ elec_scale 1 2 (e14a self) (e14v self) = Ok 1.
Proof.
  destruct ex_between_init as [self Hself]. exists self.
  split; [exact Hself|].
  exact (between_sets_no_exclusions ex_atomselect ex_mol ex_prm "first" "last"
           0 false 78.5 self Hself 1%nat 2%nat).
Defined.

(** ** The 1-4 scaling factors read by the pair kernels *)

Lemma rows14_ok_append ats prm all f atoms values atoms' values' d ty dip
    rest i j :
  rows14_ok ats prm all f atoms values ->
  In d all -> quad_ends d = (i, j) ->
  types_at ats (quad_list d) = Ok ty ->
  dihedral_lookup prm ty = Ok (dip :: rest) ->
  append_at i j atoms = Ok atoms' ->
  append_at i (f dip) values = Ok values' ->
  rows14_ok ats prm all f atoms' values'.
Proof.
  intros Hok Hin Hends Hty Hlk Ha Hv k.
  pose proof (append_at_nth _ _ _ _ Ha) as Na.
  pose proof (append_at_nth _ _ _ _ Hv) as Nv.
  destruct (Hok k) as [Hlen Hent]. rewrite Na, Nv.
  destruct (Nat.eqb_spec k i) as [->|Ek]; [|split; assumption].
  split; [rewrite !length_app, Hlen; reflexivity|].
  intros e v He.
  destruct (Nat.lt_ge_cases e (List.length (nth i atoms []))) as [Hlt|Hge].
  - rewrite nth_error_app1 in He by exact Hlt.
    destruct (Hent e v He)
      as (d' & ty' & dip' & rest' & H1 & H2 & H3 & H4 & H5).
    exists d', ty', dip', rest'. repeat split; try assumption.
    rewrite nth_error_app1 by lia. exact H5.
  - rewrite nth_error_app2 in He by exact Hge.
    destruct (e - List.length (nth i atoms []))%nat as [|e'] eqn:Ee;
      [|destruct e'; discriminate].
    simpl in He. injection He as <-.
    exists d, ty, dip, rest. repeat split; try assumption.
    rewrite nth_error_app2 by lia.
    replace (e - List.length (nth i values []))%nat with 0%nat by lia.
    reflexivity.
Qed.

Lemma dihedral_step_rows14 ats prm all d st st' row :
  dihedral_step ats prm d st = Ok (st', row) ->
  In d all ->
  rows14_ok ats prm all scnb (s14_atom_list st) (s14_value_list st) ->
  rows14_ok ats prm all scee (e14_atom_list st) (e14_value_list st) ->
  rows14_ok ats prm all scnb (s14_atom_list st') (s14_value_list st')
  /\ rows14_ok ats prm all scee (e14_atom_list st') (e14_value_list st').
Proof.
  unfold dihedral_step. intros H Hin Hs He.
  destruct (existsb _ _).
  - injection H as <- <-. auto.
  - apply bind_Ok in H as (ty & Hty & H).
    apply bind_Ok in H as (dps & Hdps & H).
    destruct d as [[[d0 d1] d2] d3] eqn:Ed.
    apply bind_Ok in H as (s14a' & Hsa & H).
    apply bind_Ok in H as (dip & Hdip & H).
    apply bind_Ok in H as (s14v' & Hsv & H).
    apply bind_Ok in H as (e14a' & Hea & H).
    apply bind_Ok in H as (e14v' & Hev & H). injection H as <- <-.
    destruct dps as [|dip' rest]; [discriminate|]. injection Hdip as ->.
    cbn [s14_atom_list s14_value_list e14_atom_list e14_value_list].
    split.
    + apply (rows14_ok_append ats prm all scnb _ _ _ _ (d0, d1, d2, d3) ty dip
               rest (Nat.min d0 d3) (Nat.max d0 d3) Hs Hin eq_refl Hty Hdps
               Hsa Hsv).
    + apply (rows14_ok_append ats prm all scee _ _ _ _ (d0, d1, d2, d3) ty dip
               rest (Nat.min d0 d3) (Nat.max d0 d3) He Hin eq_refl Hty Hdps
               Hea Hev).
Qed.

Lemma dihedral_loop_rows14 ats prm all l :
  forall st st' rows,
    dihedral_loop ats prm l st = Ok (st', rows) ->
    (forall d, In d l -> In d all) ->
    rows14_ok ats prm all scnb (s14_atom_list st) (s14_value_list st) ->
    rows14_ok ats prm all scee (e14_atom_list st) (e14_value_list st) ->
    rows14_ok ats prm all scnb (s14_atom_list st') (s14_value_list st')
    /\ rows14_ok ats prm all scee (e14_atom_list st') (e14_value_list st').
Proof.
  induction l as [|d r IH]; intros st st' rows H Hsub Hs He.
  - simpl in H. injection H as <- <-. auto.
  - cbn [dihedral_loop] in H.
    apply bind_Ok in H as ([st1 row] & Hstep & H).
    apply bind_Ok in H as ([st2 rows2] & Hloop & H). injection H as <- <-.
    destruct (dihedral_step_rows14 _ _ all _ _ _ _ Hstep
                (Hsub d (or_introl eq_refl)) Hs He) as [Hs1 He1].
    apply (IH st1 st2 rows2 Hloop); auto.
    intros d' Hd'. apply Hsub. right. exact Hd'.
Qed.

Lemma find_col_int_array (nl : list (list nat)) (i j e : nat) :
  find_col (nth i (int_array nl) []) (Z.of_nat j) 0 = Some e ->
  nth_error (nth i nl []) e = Some j.
Proof.
  destruct (nth_error nl i) as [row|] eqn:Hrow.
  - destruct (int_array_nth _ _ _ Hrow) as [k ->].
    pose proof (find_col_padded row k j 0) as Hf. intros E. rewrite E in Hf.
    destruct Hf as [_ Hf]. rewrite Nat.sub_0_r in Hf.
    rewrite (nth_error_nth _ _ [] Hrow). exact Hf.
  - intros E. exfalso. apply nth_error_None in Hrow.
    assert (Hp : _ispaired (int_array nl) i j = true).
    { unfold _ispaired. rewrite (find_col_ispaired _ _ 0), E. reflexivity. }
    apply _ispaired_int_array in Hp. rewrite nth_overflow in Hp by exact Hrow.
    contradiction.
Qed.

Lemma readf_float_array (nl : list (list R)) (i e : nat) (x : R) :
  nth_error (nth i nl []) e = Some x ->
  readf (nth i (float_array nl) []) e = Ok x.
Proof.
  intros H. destruct (nth_error nl i) as [row|] eqn:Hrow.
  - destruct (float_array_nth _ _ _ Hrow) as [k ->].
    rewrite (nth_error_nth _ _ [] Hrow) in H. apply readf_padded, H.
  - apply nth_error_None in Hrow. rewrite nth_overflow in H by exact Hrow.
    destruct e; discriminate.
Qed.

Lemma init_rows14 mol prm tp :
  init mol prm = Ok tp ->
  exists sa sv ea ev,
    s14a tp = int_array sa /\ s14v tp = float_array sv
    /\ e14a tp = int_array ea /\ e14v tp = float_array ev
    /\ rows14_ok (atomtype mol) prm (mol_dihedrals mol) scnb sa sv
    /\ rows14_ok (atomtype mol) prm (mol_dihedrals mol) scee ea ev.
Proof.
  unfold init. intros H.
  apply bind_Ok in H as (atys & _ & H).
  apply bind_Ok in H as (nbf & _ & H).
  apply bind_Ok in H as ([[e1 p1] bv1] & _ & H).
  apply bind_Ok in H as ([e2 rows] & _ & H).
  apply bind_Ok in H as ([dst dprm] & Hd & H).
  apply bind_Ok in H as (iprm & _ & H).
  injection H as <-. cbn [s14a s14v e14a e14v].
  exists (s14_atom_list dst), (s14_value_list dst), (e14_atom_list dst),
    (e14_value_list dst).
  repeat (split; [reflexivity|]).
  apply (dihedral_loop_rows14 _ _ (mol_dihedrals mol) _ _ _ _ Hd); auto;
    intros k; cbn [s14_atom_list s14_value_list e14_atom_list e14_value_list];
    rewrite !nth_repeat_nil; (split; [reflexivity|]);
    intros e v He; destruct e; discriminate.
Qed.

(** X28.  The 1-4 tables of [init] go together with their values.  For a
    pair [i], [j] that the electrostatic 1-4 table holds, the scale
    [_evaluate_elec] divides by is the [scee] of the first parameter of
    the dihedral type of a dihedral of the molecule with the ends [i] and
    [j]; for any other pair it is 1.  For a pair that the Lennard-Jones
    1-4 table holds, the scale read by [_getSigmaEpsilon] is the [scnb] of
    such a parameter.  No read reaches the padding. *)
Theorem init_14_scaling (mol : Molecule) (prm : ParameterSet) (tp : topo)
    (i j : nat) :
  init mol prm = Ok tp ->
  (_ispaired (e14a tp) i j = true ->
   exists d ty dip rest,
     In d (mol_dihedrals mol) /\ quad_ends d = (i, j)
     /\ types_of mol (quad_list d) = Ok ty
     /\ dihedral_lookup prm ty = Ok (dip :: rest)
     /\ elec_scale i j (e14a tp) (e14v tp) = Ok (scee dip))
  /\ (_ispaired (e14a tp) i j = false ->
      elec_scale i j (e14a tp) (e14v tp) = Ok 1)
  /\ (_ispaired (s14a tp) i j = true ->
      exists d ty dip rest e,
        In d (mol_dihedrals mol) /\ quad_ends d = (i, j)
        /\ types_of mol (quad_list d) = Ok ty
        /\ dihedral_lookup prm ty = Ok (dip :: rest)
        /\ find_col (nth i (s14a tp) []) (Z.of_nat j) 0 = Some e
        /\ readf (nth i (s14v tp) []) e = Ok (scnb dip)).
Proof.
  intros H.
  apply init_rows14 in H as (sa & sv & ea & ev & -> & -> & -> & -> & Hs & He).
  unfold _ispaired, elec_scale. rewrite !(find_col_ispaired _ _ 0).
  repeat split.
  - destruct (find_col (nth i (int_array ea) []) (Z.of_nat j) 0) as [e|] eqn:E;
      [|discriminate].
    intros _. apply find_col_int_array in E.
    destruct (He i) as [_ Hent].
    destruct (Hent e j E) as (d & ty & dip & rest & H1 & H2 & H3 & H4 & H5).
    exists d, ty, dip, rest. repeat split; try assumption.
    apply readf_float_array, H5.
  - destruct (find_col (nth i (int_array ea) []) (Z.of_nat j) 0);
      [discriminate | reflexivity].
  - destruct (find_col (nth i (int_array sa) []) (Z.of_nat j) 0) as [e|] eqn:E;
      [|discriminate].
    intros _. pose proof (find_col_int_array _ _ _ _ E) as E'.
    destruct (Hs i) as [_ Hent].
    destruct (Hent e j E') as (d & ty & dip & rest & H1 & H2 & H3 & H4 & H5).
    exists d, ty, dip, rest, e. repeat split; try assumption.
    apply readf_float_array, H5.
Qed.

Lemma init_14_scaling_witness :
  (_ispaired (e14a ex_topo) 0 3 = true ->
   exists d ty dip rest,
     In d (mol_dihedrals ex_mol) /\ quad_ends d = (0, 3)%nat
     /\ types_of ex_mol (quad_list d) = Ok ty
     /\ dihedral_lookup ex_prm ty = Ok (dip :: rest)
     /\ elec_scale 0 3 (e14a ex_topo) (e14v ex_topo) = Ok (scee dip))
  /\ (_ispaired (e14a ex_topo) 0 3 = false ->
      elec_scale 0 3 (e14a ex_topo) (e14v ex_topo) = Ok 1)
  /\ (_ispaired (s14a ex_topo) 0 3 = true ->
      exists d ty dip rest e,
        In d (mol_dihedrals ex_mol) /\ quad_ends d = (0, 3)%nat
        /\ types_of ex_mol (quad_list d) = Ok ty
        /\ dihedral_lookup ex_prm ty = Ok (dip :: rest)
        /\ find_col (nth 0 (s14a ex_topo) []) (Z.of_nat 3) 0 = Some e
        /\ readf (nth 0 (s14v ex_topo) []) e = Ok (scnb dip)).
Proof.
  exact (init_14_scaling ex_mol ex_prm ex_topo 0 3 ex_init).
Defined.

(** ** Reaction field at the cutoff *)

(** Where the divisor [2 * eps_s + 1] of the reaction-field formula is
    zero, [_evaluate_elec] raises: with the dielectric [-1/2], at
    [r = R_c = 1]. *)
Lemma rf_potential_pole :
  _evaluate_elec 0 1 [1; 1] [] [] 1 1 true (-1 / 2) 1
  = Raise ZeroDivisionError.
Proof.
  unfold _evaluate_elec, elec_scale. cbn [nth find_col bind].
  rewrite fdiv_nonzero by lra. cbn [bind].
  replace (2 * (-1 / 2) + 1) with 0 by lra.
  rewrite fdiv_zero. reflexivity.
Qed.

(** What [_evaluate_elec] returns with [rfa] on, where it returns. *)
Lemma rf_potential_value (i j : nat) (charge : list R)
    (e14a : list (list Z)) (e14v : list (list (option R)))
    (EF r eps Rc pot force : R) :
  _evaluate_elec i j charge e14a e14v EF r true eps Rc = Ok (pot, force) ->
  exists scale,
    elec_scale i j e14a e14v = Ok scale
    /\ scale <> 0 /\ 2 * eps + 1 <> 0 /\ Rc <> 0 /\ r <> 0
    /\ pot = EF * nth i charge 0 * nth j charge 0 / scale
             * (1 / r + (1 / Rc ^ 3) * (eps - 1) / (2 * eps + 1) * r ^ 2
                - (1 / Rc) * (3 * eps) / (2 * eps + 1)).
Proof.
  unfold _evaluate_elec. intros H.
  apply bind_Ok in H as (scale & Hscale & H).
  apply bind_Ok in H as (c3 & Hc3 & H). apply bind_Ok in H as (krf & Hkrf & H).
  apply bind_Ok in H as (c1 & Hc1 & H). apply bind_Ok in H as (crf & Hcrf & H).
  apply bind_Ok in H as (common & Hcommon & H).
  apply bind_Ok in H as (rinv & Hrinv & H).
  apply bind_Ok in H as (rinv2 & Hrinv2 & H).
  injection H as <- _.
  apply fdiv_Ok in Hc3 as [_ ->], Hkrf as [Hden ->], Hc1 as [HRc ->],
    Hcrf as [_ ->], Hcommon as [Hs ->], Hrinv as [Hr ->].
  exists scale. repeat split; try assumption.
Qed.

Lemma rf_potential_derivable (K k c r : R) :
  r <> 0 ->
  derivable_pt_lim (fun x => K * (1 / x + k * x ^ 2 - c)) r
    (K * (INR 1 * (1 / r) ^ pred 1 * (- / (r * r)))
     + K * k * (INR 2 * r ^ pred 2) + 0).
Proof.
  intros Hr.
  apply (derivable_pt_lim_ext
           (plus_fct
              (plus_fct (fun x => K * (1 / x) ^ 1)
                 (mult_real_fct (K * k) (fun x => x ^ 2)))
              (fct_cte (- (K * c))))).
  { intros z. unfold plus_fct, mult_real_fct, fct_cte. ring. }
  apply derivable_pt_lim_plus; [apply derivable_pt_lim_plus|].
  - apply deriv_inv_pow, Hr.
  - apply derivable_pt_lim_scal, derivable_pt_lim_pow.
  - apply derivable_pt_lim_const.
Qed.

(** C4.  The reaction-field potential at the cutoff.  For every cutoff
    [R_c > 0], every solvent dielectric [eps_s] and all charges: the value
    [C (1 / R_c + k_rf R_c^2 - c_rf)] of the formula is zero wherever the
    formula is defined ([2 eps_s + 1] not zero); whenever [_evaluate_elec]
    with [rfa] on returns at [r = R_c], the potential it returns is zero,
    and it returns there whenever its two divisors, [2 eps_s + 1] and the
    1-4 scale, are not zero; and the potential it returns at [r] tends to
    zero as [r] tends to [R_c], so that it is continuous at the cutoff,
    beyond which the pair contributes nothing. *)
Theorem rf_potential_zero_at_cutoff (i j : nat) (charge : list R)
    (e14a : list (list Z)) (e14v : list (list (option R)))
    (EF eps Rc : R) :
  Rc > 0 ->
  (2 * eps + 1 <> 0 ->
   forall C,
     C * (1 / Rc + (1 / Rc ^ 3) * (eps - 1) / (2 * eps + 1) * Rc ^ 2
          - (1 / Rc) * (3 * eps) / (2 * eps + 1)) = 0)
  /\ (forall pot force,
        _evaluate_elec i j charge e14a e14v EF Rc true eps Rc
        = Ok (pot, force) -> pot = 0)
  /\ (forall scale,
        elec_scale i j e14a e14v = Ok scale -> scale <> 0 ->
        2 * eps + 1 <> 0 ->
        exists pot force,
          _evaluate_elec i j charge e14a e14v EF Rc true eps Rc
          = Ok (pot, force)
          /\ pot = 0)
  /\ (forall tol, tol > 0 ->
        exists delta,
          delta > 0
          /\ forall r pot force,
               Rabs (r - Rc) < delta ->
               _evaluate_elec i j charge e14a e14v EF r true eps Rc
               = Ok (pot, force) ->
               Rabs pot < tol).
Proof.
  intros HRc.
  assert (Hzero : 2 * eps + 1 <> 0 ->
            forall C,
              C * (1 / Rc + (1 / Rc ^ 3) * (eps - 1) / (2 * eps + 1) * Rc ^ 2
                   - (1 / Rc) * (3 * eps) / (2 * eps + 1)) = 0).
  { intros Hden C. field. split; lra. }
  split; [exact Hzero|]. split; [|split].
  - intros pot force H.
    apply rf_potential_value in H as (scale & _ & _ & Hden & _ & _ & ->).
    apply Hzero, Hden.
  - intros scale Hscale Hs Hden. unfold _evaluate_elec.
    rewrite Hscale. cbn [bind].
    assert (Rc ^ 3 <> 0) by (apply pow_nonzero; lra).
    assert (Rc ^ 2 <> 0) by (apply pow_nonzero; lra).
    repeat (rewrite fdiv_nonzero by (assumption || lra); cbn [bind]).
    do 2 eexists. split; [reflexivity|]. field. repeat split; lra.
  - intros tol Htol.
    destruct (Req_dec (2 * eps + 1) 0) as [Hden|Hden].
    { exists 1. split; [lra|]. intros r pot force _ H.
      apply rf_potential_value in H as (scale & _ & _ & Hden' & _).
      contradiction. }
    destruct (elec_scale i j e14a e14v) as [scale|e] eqn:Hscale.
    2: { exists 1. split; [lra|]. intros r pot force _ H.
         apply rf_potential_value in H as (scale & Hs & _).
         rewrite Hscale in Hs. discriminate. }
    set (K := EF * nth i charge 0 * nth j charge 0 / scale).
    set (k := (1 / Rc ^ 3) * (eps - 1) / (2 * eps + 1)).
    set (c := (1 / Rc) * (3 * eps) / (2 * eps + 1)).
    set (V := fun x => K * (1 / x + k * x ^ 2 - c)).
    assert (HV0 : V Rc = 0) by (unfold V, k, c; apply Hzero, Hden).
    assert (Hcont : continuity_pt V Rc).
    { apply derivable_continuous_pt. eexists.
      apply (rf_potential_derivable K k c Rc). lra. }
    destruct (Hcont tol Htol) as (alp & Halp & Hlim).
    exists alp. split; [exact Halp|]. intros r pot force Hr H.
    apply rf_potential_value in H as (scale' & Hs' & _ & _ & _ & _ & ->).
    rewrite Hscale in Hs'. injection Hs' as <-.
    fold K k c. change (Rabs (V r) < tol).
    destruct (Req_dec Rc r) as [<-|Hne].
    + rewrite HV0, Rabs_R0. exact Htol.
    + specialize (Hlim r). simpl in Hlim. unfold R_dist in Hlim.
      rewrite HV0, Rminus_0_r in Hlim. apply Hlim.
      split; [split; [exact I | exact Hne] | exact Hr].
Qed.

(** Witness of C4: cutoff 12, dielectric 78.5, unit charges and the 1-4
    scale 2 of the pair (0, 3) of the chain. *)
Lemma rf_potential_zero_at_cutoff_witness :
  exists pot force,
    _evaluate_elec 0 3 (charge ex_topo) (e14a ex_topo) (e14v ex_topo)
      ELEC_FACTOR_value 12 true 78.5 12
    = Ok (pot, force)
    /\ pot = 0.
Proof.
  destruct (rf_potential_zero_at_cutoff 0 3 (charge ex_topo) (e14a ex_topo)
              (e14v ex_topo) ELEC_FACTOR_value 78.5 12) as (_ & _ & Hret & _).
  - lra.
  - apply (Hret 2); [reflexivity | lra | lra].
Defined.
